(** * Route assembly and segmentation of the employee survey backend

    A shallow embedding of the two pieces of
    [src/controllers/projectController.js] that own path structure:

    - [addWaypoint] (lines 180-365), the request handler that appends one
      waypoint to the caller's current path of a project or rejects it;
    - [getAllWaypointsEmployee] (lines 530-673), the read-only report that
      re-derives segments from the flattened waypoint stream, sorts them and
      groups them by day and by project.

    The data model follows the Mongoose schemas of the [Projects] and
    [Users] models. *)

From stdpp Require Import base option list strings numbers sorting.
From Stdlib Require QArith_base.

Local Open Scope string_scope.
Local Open Scope list_scope.

(** ** Data model *)

(** A Mongo [ObjectId] is a 12-byte value; [toString] renders it injectively
    (24 hex digits), so comparing the strings is comparing the numbers. *)
Definition ObjectId := N.

(** A [Date], as its time value: milliseconds since the epoch. *)
Definition Timestamp := Z.

(** What [parseFloat] returns, as far as the handler looks at it: [NaN] or a
    number, which is carried along and never computed with. *)
Inductive number := NaN | Num (q : QArith_base.Q).

Definition isNaN (x : number) : bool :=
  match x with NaN => true | Num _ => false end.

(** A field of a request body as the handler reads it. *)
Inductive jsval :=
  | JUndefined
  | JNull
  | JBool (b : bool)
  | JStr (s : string).

Module User.
(** The fields of a user document that a populated [createdBy] carries
    ([_id] and the selection "empId name role email"). *)
Record t := mk {
  _id : ObjectId;
  empId : string;
  name : string;
  role : string;
  email : option string;
}.
End User.

Module PoleDetails.
(** An element of [poleDetails], as [PoleDetailsSchema] reads it: the five
    fields the schema requires ([None]: absent or null; a number that does
    not cast: [NaN]), and whether a value given for one of its other fields
    (the pole number and the equipment quantities, all numbers) fails to
    cast, which an element that is not an object does too. *)
Record t := mk {
  existingOrNewProposed : option string;
  poleDiscription : option string;
  poleType : option string;
  poleSizeInMeter : option number;
  poleStructure : option string;
  castError : bool;
}.
End PoleDetails.

Module GpsDetail.
(** An element of [gpsDetails], as [GpsDetailSchema] reads it: the two
    fields the schema requires, the feeder name (which the downloads put in
    the file name, code unit by code unit), and whether a value given for
    one of its other fields fails to cast. *)
Record t := mk {
  timeAndDate : option string;
  userId : option string;
  feederName : option (list N);
  castError : bool;
}.
End GpsDetail.

Module Waypoint.
(** [WaypointSchema]. [U] is what [createdBy] holds: an [ObjectId] in a
    stored document, a user document (or null) after [populate]. *)
Record t (U : Type) := mk {
  _id : ObjectId;
  name : string;
  description : string;
  distanceFromPrevious : number;
  latitude : number;
  longitude : number;
  isStart : bool;
  isEnd : bool;
  image : option string;
  poleDetails : list PoleDetails.t;
  gpsDetails : list GpsDetail.t;
  routeType : string;
  routeStartingPoint : string;
  routeEndingPoint : string;
  createdBy : U;
  timestamp : Timestamp;
  pathOwner : option ObjectId;
}.
Arguments mk {U}.
Arguments _id {U}.
Arguments name {U}.
Arguments description {U}.
Arguments distanceFromPrevious {U}.
Arguments latitude {U}.
Arguments longitude {U}.
Arguments isStart {U}.
Arguments isEnd {U}.
Arguments image {U}.
Arguments poleDetails {U}.
Arguments gpsDetails {U}.
Arguments routeType {U}.
Arguments routeStartingPoint {U}.
Arguments routeEndingPoint {U}.
Arguments createdBy {U}.
Arguments timestamp {U}.
Arguments pathOwner {U}.

(** [waypoint.pathOwner = employeeId] *)
Definition setPathOwner {U} (o : ObjectId) (w : t U) : t U :=
  mk (_id w) (name w) (description w) (distanceFromPrevious w) (latitude w)
     (longitude w) (isStart w) (isEnd w) (image w) (poleDetails w)
     (gpsDetails w) (routeType w) (routeStartingPoint w)
     (routeEndingPoint w) (createdBy w) (timestamp w) (Some o).

(** What [populate] does to one waypoint. *)
Definition mapCreatedBy {U V} (f : U → V) (w : t U) : t V :=
  mk (_id w) (name w) (description w) (distanceFromPrevious w) (latitude w)
     (longitude w) (isStart w) (isEnd w) (image w) (poleDetails w)
     (gpsDetails w) (routeType w) (routeStartingPoint w)
     (routeEndingPoint w) (f (createdBy w)) (timestamp w) (pathOwner w).
End Waypoint.

(** A path is an array of waypoints; a project holds an array of paths. *)
Abbreviation Path U := (list (Waypoint.t U)) (only parsing).

Module Project.
(** [ProjectSchema]; [waypoints] is the two-level array. *)
Record t (U : Type) := mk {
  projectId : string;
  circle : string;
  division : string;
  description : option string;
  createdBy : ObjectId;
  employees : list ObjectId;
  waypoints : list (list (Waypoint.t U));
}.
Arguments mk {U}.
Arguments projectId {U}.
Arguments circle {U}.
Arguments division {U}.
Arguments description {U}.
Arguments createdBy {U}.
Arguments employees {U}.
Arguments waypoints {U}.

Definition setWaypoints {U V} (ws : list (list (Waypoint.t V))) (p : t U) : t V :=
  mk (projectId p) (circle p) (division p) (description p) (createdBy p)
     (employees p) ws.

Definition setEmployees {U} (es : list ObjectId) (p : t U) : t U :=
  mk (projectId p) (circle p) (division p) (description p) (createdBy p)
     es (waypoints p).
End Project.

(** Stored documents reference their creator by id. *)
Abbreviation StoredWaypoint := (Waypoint.t ObjectId).
Abbreviation StoredProject := (Project.t ObjectId).

(** ** Schema validation

    What Mongoose checks of the waypoints when a project document is saved:
    every value casts to the type of its path, and every path with
    [required: true] has a value, which for a String path is a non-empty
    string. [createdBy], required too, is an [ObjectId] in every stored
    waypoint. *)

(** [{ type: String, required: true }] *)
Definition requiredString (v : option string) : bool :=
  match v with
  | Some s => negb (bool_decide (s = ""))
  | None => false
  end.

(** [{ type: Number, required: true }] *)
Definition requiredNumber (v : option number) : bool :=
  match v with
  | Some x => negb (isNaN x)
  | None => false
  end.

(** [PoleDetailsSchema] *)
Definition validPoleDetails (d : PoleDetails.t) : bool :=
  requiredString (PoleDetails.existingOrNewProposed d)
  && requiredString (PoleDetails.poleDiscription d)
  && requiredString (PoleDetails.poleType d)
  && requiredNumber (PoleDetails.poleSizeInMeter d)
  && requiredString (PoleDetails.poleStructure d)
  && negb (PoleDetails.castError d).

(** [GpsDetailSchema] *)
Definition validGpsDetail (d : GpsDetail.t) : bool :=
  requiredString (GpsDetail.timeAndDate d)
  && requiredString (GpsDetail.userId d)
  && negb (GpsDetail.castError d).

(** [WaypointSchema]: [distanceFromPrevious] has a default, but a [NaN]
    given for it does not cast. *)
Definition validWaypoint (w : StoredWaypoint) : bool :=
  requiredString (Some (Waypoint.name w))
  && negb (isNaN (Waypoint.distanceFromPrevious w))
  && requiredNumber (Some (Waypoint.latitude w))
  && requiredNumber (Some (Waypoint.longitude w))
  && requiredString (Some (Waypoint.routeType w))
  && requiredString (Some (Waypoint.routeStartingPoint w))
  && requiredString (Some (Waypoint.routeEndingPoint w))
  && forallb validPoleDetails (Waypoint.poleDetails w)
  && forallb validGpsDetail (Waypoint.gpsDetails w).

(** [waypoints: [[WaypointSchema]]] *)
Definition validWaypoints (paths : list (Path ObjectId)) : bool :=
  forallb (forallb validWaypoint) paths.

(** ** The handler monad

    A handler runs over the document it loaded ([doc]) and the collection
    entry it came from ([db]); it either goes on with a value or has sent
    its response and returned. A thrown exception lands in the handler's
    [catch], which answers 500; what the handler had done to the loaded
    document is then lost with it. *)

Inductive Response :=
  | Forbidden403 (message : string)
  | BadRequest400 (message : string)
  | Created201 (message : string) (waypoint : StoredWaypoint)
  | ServerError500 (message : string).

Record Mem := mkMem { doc : StoredProject; db : StoredProject }.

Definition Handler (A : Type) : Type := Mem → Mem * (A + Response).

Global Instance Handler_ret : MRet Handler := λ A a m, (m, inl a).
Global Instance Handler_bind : MBind Handler := λ A B k h m,
  match h m with
  | (m', inl a) => k a m'
  | (m', inr r) => (m', inr r)
  end.

(** [return res.status(..).json(..)] *)
Definition reply {A} (r : Response) : Handler A := λ m, (m, inr r).

(** An exception inside the [try] block. *)
Definition throw {A} : Handler A := reply (ServerError500 "Server error").

Definition getDoc : Handler StoredProject := λ m, (m, inl (doc m)).

(** In-place mutation of the loaded document's path array. *)
Definition modifyWaypoints (f : list (Path ObjectId) → list (Path ObjectId)) : Handler unit :=
  λ m, (mkMem (Project.setWaypoints (f (Project.waypoints (doc m))) (doc m)) (db m), inl tt).

(** [await project.save()]: Mongoose validates the loaded document's
    waypoints against the schema and throws when one fails; otherwise the
    document is written to the collection. *)
Definition save : Handler unit := λ m,
  if validWaypoints (Project.waypoints (doc m))
  then (mkMem (doc m) (doc m), inl tt)
  else throw m.

(** [if (c) return res...] *)
Definition rejectIf (c : bool) (r : Response) : Handler unit :=
  if c then reply r else mret tt.

(** [findOne], the handler, and what is stored afterwards with the response. *)
Definition runHandler (h : Handler Response) (stored : StoredProject) : StoredProject * Response :=
  match h (mkMem stored stored) with
  | (m, inl r) => (db m, r)
  | (m, inr r) => (db m, r)
  end.

(** ** addWaypoint *)

Module Req.
(** One request to [POST .../waypoints] as the handler sees it:
    [req.user._id], the body, and what the environment supplies while the
    handler runs. The numeric fields are given after [parseFloat]; the two
    JSON fields as the outcome of [parseJsonField] ([None]: it threw); the
    image as the outcome of the upload ([None]: no file, [Some None]: the
    upload failed). [newId] is the [_id] the waypoint gets when it is cast
    into the array; the model writes it into the waypoint from the start. *)
Record t := mk {
  employeeId : ObjectId;
  name : string;
  description : string;
  distanceFromPrevious : number;
  latitude : number;
  longitude : number;
  isStart : jsval;
  isEnd : jsval;
  poleDetails : option (list PoleDetails.t);
  gpsDetails : option (list GpsDetail.t);
  routeType : string;
  routeStartingPoint : string;
  routeEndingPoint : string;
  upload : option (option string);
  now : Timestamp;      (* new Date() *)
  newId : ObjectId;     (* the _id the new subdocument is given *)
}.
End Req.

(** [v === "true" || v === true] *)
Definition parseFlag (v : jsval) : bool :=
  match v with
  | JStr s => bool_decide (s = "true")
  | JBool b => b
  | _ => false
  end.

(** [v == null] *)
Definition isNullish (v : jsval) : bool :=
  match v with JUndefined | JNull => true | _ => false end.

(** [!s] on a string field (an absent field is falsy like the empty one). *)
Definition falsy (s : string) : bool := bool_decide (s = "").

Definition msgStartWhileOpen : string :=
  "Cannot start a new path. Your last path is not complete.".
Definition msgEndNotStarted : string :=
  "Cannot end a path that hasn't started.".
Definition msgNoActivePath : string :=
  "No active path found. Start a new path with isStart: true before adding midpoints.".

(** The three rejections by the path state machine. *)
Definition PathConflict (r : Response) : Prop :=
  r = BadRequest400 msgStartWhileOpen ∨
  r = BadRequest400 msgEndNotStarted ∨
  r = BadRequest400 msgNoActivePath.

(** [project.waypoints.filter((path) => path[0].pathOwner?.toString() ===
    employeeId.toString())]. The result holds the very arrays of
    [project.waypoints], so it is given as their positions, counted from
    [i]. Reading [path[0].pathOwner] of an empty path throws: [None]. *)
Fixpoint filterOwnedFrom (employeeId : ObjectId) (i : nat)
    (paths : list (Path ObjectId)) : option (list nat) :=
  match paths with
  | [] => Some []
  | path :: rest =>
      match path with
      | [] => None
      | first :: _ =>
          rest' ← filterOwnedFrom employeeId (S i) rest;
          Some (if decide (Waypoint.pathOwner first = Some employeeId)
                then i :: rest' else rest')
      end
  end.

Definition filterOwned (employeeId : ObjectId) (paths : list (Path ObjectId)) :=
  filterOwnedFrom employeeId 0 paths.

(** [lastUserPath && !lastUserPath[lastUserPath.length - 1].isEnd];
    [None] when reading [.isEnd] of a missing element throws. *)
Definition hasIncompletePath (paths : list (Path ObjectId))
    (lastUserPath : option nat) : option bool :=
  match lastUserPath with
  | None => Some false
  | Some i =>
      path ← paths !! i;
      w ← last path;
      Some (negb (Waypoint.isEnd w))
  end.

Definition orThrow {A} (o : option A) : Handler A :=
  match o with Some a => mret a | None => throw end.

(** [lastUserPath.push(waypoint)]: the array inside [project.waypoints]
    grows. *)
Definition pushToPath (lastUserPath : option nat) (waypoint : StoredWaypoint) : Handler unit :=
  match lastUserPath with
  | Some i => modifyWaypoints (alter (λ path, path ++ [waypoint]) i)
  | None => throw
  end.

(** Lines 312-353: the path state machine, on the loaded document. The
    flags it branches on are those of the waypoint just built. *)
Definition submitWaypoint (employeeId : ObjectId) (waypoint : StoredWaypoint) : Handler unit :=
  project ← getDoc;
  userPaths ← orThrow (filterOwned employeeId (Project.waypoints project));
  let lastUserPath := last userPaths in
  incomplete ← orThrow (hasIncompletePath (Project.waypoints project) lastUserPath);
  if Waypoint.isStart waypoint then
    rejectIf incomplete (BadRequest400 msgStartWhileOpen);;
    let waypoint := Waypoint.setPathOwner employeeId waypoint in
    modifyWaypoints (λ paths, paths ++ [[waypoint]])
  else if Waypoint.isEnd waypoint then
    rejectIf (negb incomplete) (BadRequest400 msgEndNotStarted);;
    pushToPath lastUserPath waypoint
  else
    rejectIf (negb incomplete) (BadRequest400 msgNoActivePath);;
    pushToPath lastUserPath waypoint.

(** Lines 290-307: the waypoint object. *)
Definition buildWaypoint (req : Req.t) (imageUrl : option string)
    (parsedPoleDetails : list PoleDetails.t)
    (parsedGpsDetails : list GpsDetail.t) : StoredWaypoint :=
  Waypoint.mk (Req.newId req) (Req.name req) (Req.description req)
    (Req.distanceFromPrevious req) (Req.latitude req) (Req.longitude req)
    (parseFlag (Req.isStart req)) (parseFlag (Req.isEnd req))
    imageUrl parsedPoleDetails parsedGpsDetails
    (Req.routeType req) (Req.routeStartingPoint req) (Req.routeEndingPoint req)
    (Req.employeeId req) (Req.now req) (Some (Req.employeeId req)).

(** The handler body, for a project that [findOne] found. *)
Definition addWaypointHandler (req : Req.t) : Handler Response :=
  let employeeId := Req.employeeId req in
  project ← getDoc;
  rejectIf (negb (bool_decide (employeeId ∈ Project.employees project)))
    (Forbidden403 "Not assigned to this project");;
  parsedPoleDetails ←
    match Req.poleDetails req with
    | Some d => mret d
    | None => reply (BadRequest400 "Invalid poleDetails format")
    end;
  parsedGpsDetails ←
    match Req.gpsDetails req with
    | Some d => mret d
    | None => reply (BadRequest400 "Invalid gpsDetails format")
    end;
  rejectIf (falsy (Req.name req)
            || isNaN (Req.latitude req)
            || isNaN (Req.longitude req)
            || isNullish (Req.isStart req)
            || isNullish (Req.isEnd req)
            || falsy (Req.routeType req)
            || falsy (Req.routeStartingPoint req)
            || falsy (Req.routeEndingPoint req))
    (BadRequest400 "Missing required fields");;
  imageUrl ←
    match Req.upload req with
    | None => mret None
    | Some (Some url) => mret (Some url)
    | Some None => reply (BadRequest400 "Image upload failed")
    end;
  let waypoint := buildWaypoint req imageUrl parsedPoleDetails parsedGpsDetails in
  submitWaypoint employeeId waypoint;;
  save;;
  mret (Created201 "Waypoint added successfully" waypoint).

Definition addWaypoint (req : Req.t) (stored : StoredProject) : StoredProject * Response :=
  runHandler (addWaypointHandler req) stored.

(** The effect of [assignEmployee] on the project document, for an employee
    that was found: refused when already assigned, pushed otherwise. *)
Definition assignEmployee (employee : ObjectId) (p : StoredProject) : StoredProject :=
  if bool_decide (employee ∈ Project.employees p) then p
  else Project.setEmployees (Project.employees p ++ [employee]) p.

(** The document [createProject] stores. *)
Definition createProject (projectId circle division : string)
    (description : option string) (admin : ObjectId) : StoredProject :=
  Project.mk projectId circle division description admin [] [].

(** ** Vocabulary of the path claims *)

(** A path belongs to the employee its first waypoint names as owner. *)
Definition ownedBy (e : ObjectId) (path : Path ObjectId) : Prop :=
  head path ≫= Waypoint.pathOwner = Some e.

Global Instance ownedBy_dec e path : Decision (ownedBy e path).
Proof. unfold ownedBy. apply _. Defined.

(** A path is open when its last waypoint does not have [isEnd]. *)
Definition isOpen {U} (path : Path U) : bool :=
  match last path with
  | Some w => negb (Waypoint.isEnd w)
  | None => true
  end.

(** The employee's paths in creation order, and the last of them. *)
Definition userPaths (e : ObjectId) (paths : list (Path ObjectId)) : list (Path ObjectId) :=
  filter (ownedBy e) paths.

Definition lastUserPath (e : ObjectId) (paths : list (Path ObjectId)) : option (Path ObjectId) :=
  last (userPaths e paths).

(** The employee's last path exists and its last waypoint is not an end. *)
Definition lastPathIncomplete (e : ObjectId) (paths : list (Path ObjectId)) : Prop :=
  ∃ path w, lastUserPath e paths = Some path ∧ last path = Some w ∧
            Waypoint.isEnd w = false.

(** The employee's open paths. *)
Definition openPaths (e : ObjectId) (paths : list (Path ObjectId)) : list (Path ObjectId) :=
  filter (λ path, isOpen path = true) (userPaths e paths).

(** No path is an empty array. *)
Definition pathsNonEmpty {U} (paths : list (Path U)) : Prop :=
  Forall (λ path, path ≠ []) paths.

(** A path that begins with a start waypoint. *)
Definition startsWithStart (path : Path ObjectId) : Prop :=
  ∃ first rest, path = first :: rest ∧ Waypoint.isStart first = true.

(** Of an employee's paths, all but the last are closed. *)
Definition closedButLast (e : ObjectId) (paths : list (Path ObjectId)) : Prop :=
  ∀ earlier path, userPaths e paths = earlier ++ [path] →
                  Forall (λ q, isOpen q = false) earlier.

(** Requests that do not set both flags. *)
Definition exclusiveFlags (req : Req.t) : Prop :=
  ¬ (parseFlag (Req.isStart req) = true ∧ parseFlag (Req.isEnd req) = true).

(** No waypoint of the array has both [isStart] and [isEnd]. *)
Definition noDoubleFlag (paths : list (Path ObjectId)) : Prop :=
  Forall (Forall (λ w : StoredWaypoint,
            ¬ (Waypoint.isStart w = true ∧ Waypoint.isEnd w = true))) paths.

(** The states a project document goes through: created empty, employees
    assigned, waypoints accepted. [ok] restricts the requests considered. *)
Inductive reachableBy (ok : Req.t → Prop) : StoredProject → Prop :=
  | reach_create projectId circle division description admin :
      reachableBy ok (createProject projectId circle division description admin)
  | reach_assign p employee :
      reachableBy ok p → reachableBy ok (assignEmployee employee p)
  | reach_add p req p' message waypoint :
      reachableBy ok p → ok req →
      addWaypoint req p = (p', Created201 message waypoint) →
      reachableBy ok p'.

Definition reachable : StoredProject → Prop := reachableBy (λ _, True).

(** The two ways an accepted submission changes the path array. *)
Inductive pathStep (e : ObjectId) (w : StoredWaypoint) :
    list (Path ObjectId) → list (Path ObjectId) → Prop :=
  | step_start paths :
      Waypoint.isStart w = true →
      pathsNonEmpty paths →
      ¬ lastPathIncomplete e paths →
      pathStep e w paths (paths ++ [[Waypoint.setPathOwner e w]])
  | step_append before path after :
      Waypoint.isStart w = false →
      pathsNonEmpty (before ++ path :: after) →
      ownedBy e path →
      userPaths e after = [] →
      isOpen path = true →
      pathStep e w (before ++ path :: after) (before ++ (path ++ [w]) :: after).

(** The loaded document with its path array replaced. *)
Definition withWaypoints (paths : list (Path ObjectId)) (m : Mem) : Mem :=
  mkMem (Project.setWaypoints paths (doc m)) (db m).

(** What a 201 answer means: the caller is assigned to the project, the
    waypoint answered is the one built from the request, the state machine
    made a step with it, and the result was saved. *)
Definition accepted (req : Req.t) (p p' : StoredProject) (w : StoredWaypoint) : Prop :=
  Req.employeeId req ∈ Project.employees p ∧
  (∃ imageUrl pole gps, w = buildWaypoint req imageUrl pole gps) ∧
  ∃ paths', p' = Project.setWaypoints paths' p ∧
            pathStep (Req.employeeId req) w (Project.waypoints p) paths'.

(** ** getAllWaypointsEmployee *)

(** After [populate], [createdBy] is the creator's user document, or null
    when no such user exists. *)
Abbreviation PopulatedWaypoint := (Waypoint.t (option User.t)).
Abbreviation PopulatedProject := (Project.t (option User.t)).

Definition findUser (users : list User.t) (id : ObjectId) : option User.t :=
  snd <$> list_find (λ u, User._id u = id) users.

Definition populate (users : list User.t) (p : StoredProject) : PopulatedProject :=
  Project.setWaypoints
    (map (map (Waypoint.mapCreatedBy (findUser users))) (Project.waypoints p)) p.

(** The day part of [toISOString()], the text before the "T": a UTC calendar
    day. A day is kept as its number counted from 1970-01-01, of which the
    YYYY-MM-DD text is a one-to-one rendering; [new Date(day)] of such a
    text is the day's midnight. *)
Definition Date := Z.

Definition msPerDay : Z := 86400000.

Definition isoDate (t : Timestamp) : Date := (t `div` msPerDay)%Z.

Definition dateTime (d : Date) : Z := (d * msPerDay)%Z.

Module Segment.
(** An element of [allSegments]. *)
Record t := mk {
  projectId : string;
  circle : string;
  division : string;
  description : option string;
  segment : list PopulatedWaypoint;
  date : Date;
  timestamp : Timestamp;
}.
End Segment.

Definition mkSegment (project : PopulatedProject)
    (currentSegment : list PopulatedWaypoint) (stamp : Timestamp) : Segment.t :=
  Segment.mk (Project.projectId project) (Project.circle project)
    (Project.division project) (Project.description project)
    currentSegment (isoDate stamp) stamp.

(** [project.waypoints.flat().filter((wp) => wp.createdBy?.empId === empId)] *)
Definition employeeWaypoints (empId : string) (project : PopulatedProject) : list PopulatedWaypoint :=
  filter (λ wp, User.empId <$> Waypoint.createdBy wp = Some empId)
         (concat (Project.waypoints project)).

Definition nonEmpty {A} (l : list A) : bool := bool_decide (0 < length l)%nat.

(** The body of the [forEach] over the employee's waypoints, on the two
    variables it assigns: [currentSegment] and [allSegments]. [len] is
    [employeeWaypoints.length]. *)
Definition scanStep (project : PopulatedProject) (len idx : nat)
    (waypoint : PopulatedWaypoint)
    (st : list PopulatedWaypoint * list Segment.t)
    : list PopulatedWaypoint * list Segment.t :=
  let '(currentSegment, allSegments) := st in
  let currentSegment :=
    if Waypoint.isStart waypoint then [waypoint]
    else if nonEmpty currentSegment then currentSegment ++ [waypoint]
    else currentSegment in
  let isLast := bool_decide (idx = len - 1)%nat in
  let '(currentSegment, allSegments) :=
    if Waypoint.isEnd waypoint && nonEmpty currentSegment
    then ([], allSegments ++ [mkSegment project currentSegment (Waypoint.timestamp waypoint)])
    else (currentSegment, allSegments) in
  match currentSegment with
  | first :: _ =>
      if isLast
      then ([], allSegments ++ [mkSegment project currentSegment (Waypoint.timestamp first)])
      else (currentSegment, allSegments)
  | [] => (currentSegment, allSegments)
  end.

Fixpoint scanFrom (project : PopulatedProject) (len idx : nat)
    (rest : list PopulatedWaypoint)
    (st : list PopulatedWaypoint * list Segment.t)
    : list PopulatedWaypoint * list Segment.t :=
  match rest with
  | [] => st
  | waypoint :: rest' =>
      scanFrom project len (S idx) rest' (scanStep project len idx waypoint st)
  end.

(** One round of [projects.forEach]: [allSegments] after this project. *)
Definition scanProject (empId : string) (allSegments : list Segment.t)
    (project : PopulatedProject) : list Segment.t :=
  let ws := employeeWaypoints empId project in
  snd (scanFrom project (length ws) 0 ws ([], allSegments)).

(** Step 1: [allSegments] after all projects. *)
Definition extractSegments (empId : string) (projects : list PopulatedProject) : list Segment.t :=
  foldl (scanProject empId) [] projects.

(** [Array.prototype.sort] with a comparator: the sort is stable, so for a
    consistent comparator its result is the one list that insertion from
    the right builds, each element put in front of the first one it does
    not come after. *)
Fixpoint sortInsert {A} (cmp : A → A → Z) (x : A) (sorted : list A) : list A :=
  match sorted with
  | [] => [x]
  | y :: rest =>
      if bool_decide (cmp x y ≤ 0)%Z then x :: y :: rest
      else y :: sortInsert cmp x rest
  end.

Fixpoint arraySort {A} (cmp : A → A → Z) (l : list A) : list A :=
  match l with
  | [] => []
  | x :: rest => sortInsert cmp x (arraySort cmp rest)
  end.

(** Step 2: [(a, b) => new Date(b.timestamp) - new Date(a.timestamp)] *)
Definition byTimestampDesc (a b : Segment.t) : Z :=
  (Segment.timestamp b - Segment.timestamp a)%Z.

(** Step 3: [dateGroups], an object used as a map from day to segments; its
    keys are kept in the order they were first set. *)
Fixpoint pushToGroup (segment : Segment.t) (dateGroups : list (Date * list Segment.t))
    : list (Date * list Segment.t) :=
  match dateGroups with
  | [] => [(Segment.date segment, [segment])]
  | (d, group) :: rest =>
      if bool_decide (d = Segment.date segment)
      then (d, group ++ [segment]) :: rest
      else (d, group) :: pushToGroup segment rest
  end.

Definition groupByDate (allSegments : list Segment.t) : list (Date * list Segment.t) :=
  foldl (λ dateGroups segment, pushToGroup segment dateGroups) [] allSegments.

(** [dateGroups[date]] *)
Fixpoint groupOf (date : Date) (dateGroups : list (Date * list Segment.t)) : list Segment.t :=
  match dateGroups with
  | [] => []
  | (d, group) :: rest => if bool_decide (d = date) then group else groupOf date rest
  end.

(** Step 4: [(a, b) => new Date(b) - new Date(a)] on the keys. *)
Definition byDateDesc (a b : Date) : Z := (dateTime b - dateTime a)%Z.

Definition sortedDates (dateGroups : list (Date * list Segment.t)) : list Date :=
  arraySort byDateDesc (map fst dateGroups).

Module Creator.
(** The flattened creator identity of the display shape. *)
Record t := mk {
  empId : string;
  name : string;
  role : string;
  email : option string;
}.
End Creator.

Module Display.
(** The shape a waypoint is projected to. *)
Record t := mk {
  _id : ObjectId;
  routeType : string;
  routeStartingPoint : string;
  routeEndingPoint : string;
  latitude : number;
  longitude : number;
  isStart : bool;
  isEnd : bool;
  image : option string;
  gpsDetails : list GpsDetail.t;
  poleDetails : list PoleDetails.t;
  timestamp : Timestamp;
  createdBy : option Creator.t;
}.
End Display.

Definition display (wp : PopulatedWaypoint) : Display.t :=
  Display.mk (Waypoint._id wp) (Waypoint.routeType wp)
    (Waypoint.routeStartingPoint wp) (Waypoint.routeEndingPoint wp)
    (Waypoint.latitude wp) (Waypoint.longitude wp)
    (Waypoint.isStart wp) (Waypoint.isEnd wp) (Waypoint.image wp)
    (Waypoint.gpsDetails wp) (Waypoint.poleDetails wp) (Waypoint.timestamp wp)
    ((λ u, Creator.mk (User.empId u) (User.name u) (User.role u) (User.email u))
       <$> Waypoint.createdBy wp).

Module Entry.
(** One element of the response's [projects]. *)
Record t := mk {
  projectId : string;
  circle : string;
  division : string;
  description : option string;
  waypoints : list (list Display.t);
}.
End Entry.

(** [projectsMap]: a [Map] from project id to entry, in insertion order. *)
Fixpoint pushToProject (segment : Segment.t) (projectsMap : list (string * Entry.t))
    : list (string * Entry.t) :=
  let shown := map display (Segment.segment segment) in
  match projectsMap with
  | [] =>
      [(Segment.projectId segment,
        Entry.mk (Segment.projectId segment) (Segment.circle segment)
          (Segment.division segment) (Segment.description segment) [shown])]
  | (k, entry) :: rest =>
      if bool_decide (k = Segment.projectId segment)
      then (k, Entry.mk (Entry.projectId entry) (Entry.circle entry)
                 (Entry.division entry) (Entry.description entry)
                 (Entry.waypoints entry ++ [shown])) :: rest
      else (k, entry) :: pushToProject segment rest
  end.

(** [projectsMap] after the [forEach] over one day's group. *)
Definition projectsMapOf (group : list Segment.t) : list (string * Entry.t) :=
  foldl (λ projectsMap segment, pushToProject segment projectsMap) [] group.

(** The entries of one day: [Array.from(projectsMap.values())]. *)
Definition entriesOfGroup (group : list Segment.t) : list Entry.t :=
  map snd (projectsMapOf group).

(** Steps 2 to 4 on the extracted segments. *)
Definition dateGroupsOf (allSegments : list Segment.t) : list (Date * list Segment.t) :=
  groupByDate (arraySort byTimestampDesc allSegments).

Definition buildResult (allSegments : list Segment.t) : list Entry.t :=
  let dateGroups := dateGroupsOf allSegments in
  concat (map (λ date, entriesOfGroup (groupOf date dateGroups)) (sortedDates dateGroups)).

(** The report over the projects the query returned. *)
Definition reconstruct (empId : string) (projects : list PopulatedProject) : list Entry.t :=
  buildResult (extractSegments empId projects).

Inductive ReportResponse :=
  | NotFound404 (message : string)
  | Ok200 (empId employeeName : string) (projects : list Entry.t).

(** The handler over the user and project collections. *)
Definition getAllWaypointsEmployee (users : list User.t)
    (projects : list StoredProject) (empId : string) : ReportResponse :=
  match list_find (λ u, User.empId u = empId) users with
  | None => NotFound404 "Employee not found"
  | Some (_, user) =>
      let mine := filter (λ p, User._id user ∈ Project.employees p) projects in
      Ok200 empId (User.name user) (reconstruct empId (map (populate users) mine))
  end.

(** ** Vocabulary of the segment claims *)

(** A waypoint with neither flag. *)
Definition midpoint {U} (w : Waypoint.t U) : Prop :=
  Waypoint.isStart w = false ∧ Waypoint.isEnd w = false.

(** A segment whose last waypoint is an end, and one whose last is not. *)
Definition closedSegment (s : Segment.t) : Prop :=
  ∃ w, last (Segment.segment s) = Some w ∧ Waypoint.isEnd w = true.

Definition openSegment (s : Segment.t) : Prop :=
  ∃ w, last (Segment.segment s) = Some w ∧ Waypoint.isEnd w = false.

(** The waypoint was created by the employee with this [empId]. *)
Definition createdByEmp (empId : string) (w : PopulatedWaypoint) : Prop :=
  User.empId <$> Waypoint.createdBy w = Some empId.

Global Instance createdByEmp_dec empId w : Decision (createdByEmp empId w).
Proof. unfold createdByEmp. apply _. Defined.

Definition shownCreatedBy (empId : string) (d : Display.t) : Prop :=
  Creator.empId <$> Display.createdBy d = Some empId.

(** A project's history without the waypoints of one employee. *)
Definition removeEmployee (other : string) (p : PopulatedProject) : PopulatedProject :=
  Project.setWaypoints
    (map (filter (λ w, ¬ createdByEmp other w)) (Project.waypoints p)) p.

(** All waypoints of the segments, the groups, the entries satisfy [P]. *)
Definition segmentsOf (P : PopulatedWaypoint → Prop) (segments : list Segment.t) : Prop :=
  Forall (λ s, Forall P (Segment.segment s)) segments.

Definition entriesOf (Q : Display.t → Prop) (entries : list Entry.t) : Prop :=
  Forall (λ entry, Forall (Forall Q) (Entry.waypoints entry)) entries.

(** The segment is shown in one of the entries, under its project. *)
Definition shownIn (s : Segment.t) (entries : list Entry.t) : Prop :=
  ∃ entry, entry ∈ entries ∧
           Entry.projectId entry = Segment.projectId s ∧
           map display (Segment.segment s) ∈ Entry.waypoints entry.

(** ** Vocabulary of the further properties *)

(** Every waypoint of the path was created by [e] and names [e] as owner. *)
Definition wholly (e : ObjectId) (path : Path ObjectId) : Prop :=
  Forall (λ w, Waypoint.createdBy w = e ∧ Waypoint.pathOwner w = Some e) path.

(** The path is a start, then waypoints that are not starts, and no waypoint
    before its last one is an end. *)
Definition pathShape {U} (path : Path U) : Prop :=
  ∃ first rest,
    path = first :: rest ∧ Waypoint.isStart first = true ∧
    Forall (λ w, Waypoint.isStart w = false) rest ∧
    ∀ earlier final, path = earlier ++ [final] →
                     Forall (λ w, Waypoint.isEnd w = false) earlier.

(** The sort key the scan gives the segment made of a whole path: the last
    waypoint's timestamp when that is an end, the first one's otherwise. *)
Definition pathStamp {U} (path : Path U) : Timestamp :=
  match last path with
  | Some w =>
      if Waypoint.isEnd w then Waypoint.timestamp w
      else default 0%Z (Waypoint.timestamp <$> head path)
  | None => 0%Z
  end.

(** ** assignEmployee, the handler *)

Inductive AssignResponse :=
  | AssignBadRequest400 (message : string)
  | AssignNotFound404 (message : string)
  | AssignOk200 (message : string) (project : StoredProject).

(** Lines 70-112, over what [Project.findOne({ projectId })] found and the
    user collection; [empId] is the body field (absent: empty). The answer
    carries the saved document (the handler sends it populated). *)
Definition assignEmployeeHandler (users : list User.t) (empId : string)
    (found : option StoredProject) : option StoredProject * AssignResponse :=
  if falsy empId
  then (found, AssignBadRequest400 "Employee ID (empId) is required")
  else
    match found with
    | None => (found, AssignNotFound404 "Project not found")
    | Some project =>
        match list_find (λ u, User.empId u = empId ∧ User.role u = "employee") users with
        | None =>
            (found, AssignNotFound404
                      "Employee not found or user doesn't have employee role")
        | Some (_, employee) =>
            if bool_decide (User._id employee ∈ Project.employees project)
            then (found, AssignBadRequest400 "Employee already assigned")
            else
              let saved :=
                Project.setEmployees
                  (Project.employees project ++ [User._id employee]) project in
              (Some saved, AssignOk200 "Employee assigned successfully" saved)
        end
    end.

(** ** getProjectWaypoints *)

Inductive WaypointsResponse :=
  | WaypointsNotFound404 (message : string)
  | WaypointsForbidden403 (message : string)
  | WaypointsOk200 (waypoints : list (Path ObjectId)).

(** [path.length > 0 && path[0].createdBy.equals(userId)] *)
Definition startedBy (userId : ObjectId) (path : Path ObjectId) : Prop :=
  Waypoint.createdBy <$> head path = Some userId.

Global Instance startedBy_dec userId path : Decision (startedBy userId path).
Proof. unfold startedBy. apply _. Defined.

(** Lines 378-426, over what [Project.findOne({ projectId })] found. *)
Definition getProjectWaypoints (role : string) (userId : ObjectId)
    (found : option StoredProject) : WaypointsResponse :=
  match found with
  | None => WaypointsNotFound404 "Project not found"
  | Some project =>
      if bool_decide (role = "employee")
         && negb (bool_decide (userId ∈ Project.employees project))
      then WaypointsForbidden403 "Not authorized to access this project"
      else
        let filteredWaypoints :=
          if bool_decide (role = "admin") then Project.waypoints project
          else filter (startedBy userId) (Project.waypoints project) in
        WaypointsOk200 filteredWaypoints
  end.

(** ** Vocabulary of the segment properties *)

(** A running segment: empty, or a start followed by waypoints that are
    neither starts nor ends. *)
Definition running (cur : list PopulatedWaypoint) : Prop :=
  cur = [] ∨ (pathShape cur ∧ Forall (λ w, Waypoint.isEnd w = false) cur).

(** A segment that is a well-formed path, with the sort key and the date
    its waypoints determine. *)
Definition segmentSound (s : Segment.t) : Prop :=
  pathShape (Segment.segment s) ∧
  Segment.timestamp s = pathStamp (Segment.segment s) ∧
  Segment.date s = isoDate (Segment.timestamp s).

(** What is shown of a segment. *)
Definition shown (s : Segment.t) : list Display.t :=
  map display (Segment.segment s).

(** ** Strings as the regular expressions see them

    A JavaScript string is a sequence of UTF-16 code units, and a regular
    expression without the [u] flag matches code unit by code unit. *)

Abbreviation JsString := (list N) (only parsing).

(** An ASCII literal of the source. *)
Definition js (s : string) : JsString :=
  map Ascii.N_of_ascii (String.list_ascii_of_string s).

(** [[0-9]] *)
Definition isDigit (c : N) : bool := (48 <=? c)%N && (c <=? 57)%N.

(** [[a-zA-Z0-9-_]]: after the range [0-9], the hyphen and the underscore
    stand for themselves. *)
Definition isFileSafe (c : N) : bool :=
  ((97 <=? c)%N && (c <=? 122)%N) || ((65 <=? c)%N && (c <=? 90)%N)
  || isDigit c || (c =? 45)%N || (c =? 95)%N.

(** A line terminator, which [.] does not match. *)
Definition isLineTerminator (c : N) : bool :=
  (c =? 10)%N || (c =? 13)%N || (c =? 8232)%N || (c =? 8233)%N.

(** [\s]: white space and line terminators. *)
Definition isSpace (c : N) : bool :=
  ((9 <=? c)%N && (c <=? 13)%N) || (c =? 32)%N || (c =? 160)%N
  || (c =? 5760)%N || ((8192 <=? c)%N && (c <=? 8202)%N)
  || (c =? 8232)%N || (c =? 8233)%N || (c =? 8239)%N || (c =? 8287)%N
  || (c =? 12288)%N || (c =? 65279)%N.

(** The longest prefix of code units that satisfy [f], and the rest. *)
Fixpoint span (f : N → bool) (s : JsString) : JsString * JsString :=
  match s with
  | [] => ([], [])
  | c :: rest =>
      if f c then let '(run, after) := span f rest in (c :: run, after)
      else ([], s)
  end.

(** [s.startsWith(p)], with what follows the prefix. *)
Fixpoint stripPrefix (p s : JsString) : option JsString :=
  match p, s with
  | [], _ => Some s
  | a :: p', b :: s' => if (a =? b)%N then stripPrefix p' s' else None
  | _ :: _, [] => None
  end.

(** The decimal digits of a number, as [`${n}`] writes a non-negative
    integer. *)
Fixpoint decimalFrom (fuel : nat) (n : N) (acc : JsString) : JsString :=
  let acc' := (48 + n `mod` 10)%N :: acc in
  match fuel with
  | O => acc'
  | S fuel' => if (n <? 10)%N then acc' else decimalFrom fuel' (n `div` 10)%N acc'
  end.

Definition decimal (n : N) : JsString :=
  decimalFrom (N.to_nat (N.log2 n)) n [].

(** ** The download handlers

    [downloadExcel], [downloadPdf] and [downloadKmz]: the same checks and
    the same selection of the employee's waypoints, then each its own
    projection of them, its own generator and its own file name. The three
    buffer generators are other modules and [toLowerCase] is the
    language's; the handlers are given over them. A generator that throws
    gives [None]. *)

(** [feederName.replace(/[^a-zA-Z0-9-_]/g, "_").substring(0, 50)] *)
Definition sanitizeFeederName (feederName : JsString) : JsString :=
  take 50 (map (λ c, if isFileSafe c then c else 95%N) feederName).

(** [ObjectId.prototype.toString]: 24 hexadecimal digits. *)
Definition hexDigit (d : N) : Ascii.ascii :=
  Ascii.ascii_of_N (if (d <? 10)%N then 48 + d else 87 + d).

Fixpoint hexFrom (digits : nat) (n : N) (acc : string) : string :=
  match digits with
  | O => acc
  | S digits' => hexFrom digits' (n `div` 16)%N (String (hexDigit (n `mod` 16)%N) acc)
  end.

Definition objectIdToString (id : ObjectId) : string := hexFrom 24 id "".

(** [waypoint.name || `Waypoint ${waypoint._id}`] *)
Definition nameOrId {U} (waypoint : Waypoint.t U) : string :=
  if falsy (Waypoint.name waypoint)
  then "Waypoint " +:+ objectIdToString (Waypoint._id waypoint)
  else Waypoint.name waypoint.

(** [waypoint.distanceFromPrevious || 0] *)
Definition orZero (x : number) : number :=
  match x with
  | NaN => Num (QArith_base.Qmake 0 1)
  | Num q =>
      if QArith_base.Qeq_bool q (QArith_base.Qmake 0 1)
      then Num (QArith_base.Qmake 0 1) else Num q
  end.

Module ExcelRow.
(** What [downloadExcel] maps a waypoint to. [transformerType] is read
    from the waypoint, which has no such path: it is always undefined. *)
Record t := mk {
  latitude : number;
  longitude : number;
  name : string;
  description : string;
  transformerType : option string;
  distanceFromPrevious : number;
  poleDetails : option PoleDetails.t;
  gpsDetails : option GpsDetail.t;
  routeType : string;
  timestamp : Timestamp;
}.
End ExcelRow.

Module ReportRow.
(** What [downloadPdf] and [downloadKmz] map a waypoint to. *)
Record t := mk {
  latitude : number;
  longitude : number;
  name : string;
  description : string;
  transformerType : option string;
  poleDetails : list PoleDetails.t;
  gpsDetails : option GpsDetail.t;
  routeType : string;
}.
End ReportRow.

(** The [.map] of [downloadExcel] (lines 85-96): the first pole record and
    the first GPS record. An absent description is the empty string
    already. *)
Definition excelRow {U} (waypoint : Waypoint.t U) : ExcelRow.t :=
  ExcelRow.mk (Waypoint.latitude waypoint) (Waypoint.longitude waypoint)
    (nameOrId waypoint) (Waypoint.description waypoint) None
    (orZero (Waypoint.distanceFromPrevious waypoint))
    (head (Waypoint.poleDetails waypoint))
    (head (Waypoint.gpsDetails waypoint))
    (Waypoint.routeType waypoint) (Waypoint.timestamp waypoint).

(** The [.map] of [downloadPdf] and of [downloadKmz]: all pole records and
    the first GPS record. *)
Definition reportRow {U} (waypoint : Waypoint.t U) : ReportRow.t :=
  ReportRow.mk (Waypoint.latitude waypoint) (Waypoint.longitude waypoint)
    (nameOrId waypoint) (Waypoint.description waypoint) None
    (Waypoint.poleDetails waypoint)
    (head (Waypoint.gpsDetails waypoint))
    (Waypoint.routeType waypoint).

(** What a download handler answers: a refusal, or the file it sends, with
    its [Content-Disposition] and [Content-Type] ([Content-Length] is the
    buffer's length). *)
Inductive Download (Buffer : Type) :=
  | DownloadBadRequest400 (message : string)
  | DownloadNotFound404 (message : string)
  | DownloadForbidden403 (message : string)
  | DownloadServerError500 (message : string)
  | DownloadSent (disposition : JsString) (contentType : string) (buffer : Buffer).
Arguments DownloadBadRequest400 {Buffer}.
Arguments DownloadNotFound404 {Buffer}.
Arguments DownloadForbidden403 {Buffer}.
Arguments DownloadServerError500 {Buffer}.
Arguments DownloadSent {Buffer}.

(** [project.employees.some(emp => emp.empId === empId)] on the populated
    employees (a reference to no user populates to nothing). *)
Definition isEmployeeInProject (users : list User.t) (empId : string)
    (project : StoredProject) : bool :=
  existsb (λ id, match findUser users id with
                 | Some emp => bool_decide (User.empId emp = empId)
                 | None => false
                 end)
          (Project.employees project).

(** [waypoint.createdBy && waypoint.createdBy._id.toString() ===
    user._id.toString()] *)
Definition createdByUser (user : User.t) (waypoint : PopulatedWaypoint) : Prop :=
  User._id <$> Waypoint.createdBy waypoint = Some (User._id user).

Global Instance createdByUser_dec user waypoint : Decision (createdByUser user waypoint).
Proof. unfold createdByUser. apply _. Defined.

(** [userWaypoints[0]?.gpsDetails?.feederName], given the [gpsDetails] of
    the first row, if there is a first row. *)
Definition firstFeederName (first : option (option GpsDetail.t)) : option JsString :=
  match first with
  | Some (Some gpsDetails) => GpsDetail.feederName gpsDetails
  | _ => None
  end.

(** [!feederName] *)
Definition noFeederName (feederName : option JsString) : bool :=
  match feederName with
  | Some (_ :: _) => false
  | _ => true
  end.

Section downloads.
Context {Buffer : Type}.
Context (generateExcelBuffer : list ExcelRow.t → option Buffer).
Context (generatePdfBuffer : list ReportRow.t → option Buffer).
Context (generateKmzBuffer : list ReportRow.t → string → option Buffer).
Context (toLowerCase : string → string).

(** The checks each handler begins with (lines 36-72 of [downloadExcel],
    the same text in the other two), over the user collection and what
    [Project.findOne({ projectId })] found; the two parameters are the
    route's (absent: empty). They give the user and the project. *)
Definition findUserAndProject (users : list User.t) (found : option StoredProject)
    (projectId empId : string) : Download Buffer + User.t * StoredProject :=
  if falsy projectId || falsy empId
  then inl (DownloadBadRequest400 "Both projectId and empId are required")
  else
    match list_find (λ u, User.empId u = empId) users with
    | None => inl (DownloadNotFound404 "Employee not found")
    | Some (_, user) =>
        match found with
        | None => inl (DownloadNotFound404 "Project not found")
        | Some project =>
            if negb (isEmployeeInProject users empId project)
            then inl (DownloadForbidden403 "Employee is not part of this project")
            else inr (user, project)
        end
    end.

(** Lines 105-124 of [downloadExcel]: the buffer, then the file name, for
    which a missing feeder name is replaced. *)
Definition sendExcel (empId : string) (userWaypoints : list ExcelRow.t) : Download Buffer :=
  match generateExcelBuffer userWaypoints with
  | None => DownloadServerError500 "Internal Server Error"
  | Some excelBuffer =>
      let feederName :=
        match firstFeederName (ExcelRow.gpsDetails <$> head userWaypoints) with
        | Some (c :: rest) => c :: rest
        | _ => js "feeder"
        end in
      DownloadSent
        (js "attachment; filename=" ++ sanitizeFeederName feederName
           ++ js " city feeder details by " ++ js empId ++ js ".xlsx")
        "application/vnd.openxmlformats-officedocument.spreadsheetml.sheet"
        excelBuffer
  end.

Definition downloadExcel (users : list User.t) (found : option StoredProject)
    (projectId empId : string) : Download Buffer :=
  match findUserAndProject users found projectId empId with
  | inl refused => refused
  | inr (user, project) =>
      let userWaypoints :=
        map excelRow
            (filter (createdByUser user)
                    (concat (Project.waypoints (populate users project)))) in
      if bool_decide (length userWaypoints = 0%nat)
      then DownloadNotFound404
             "No waypoints found for this employee in the project"
      else sendExcel empId userWaypoints
  end.

(** Lines 238-262 of [downloadPdf]: without a feeder name in the first
    waypoint's first GPS record the download is refused. *)
Definition sendPdf (empId : string) (userWaypoints : list ReportRow.t) : Download Buffer :=
  let feederName := firstFeederName (ReportRow.gpsDetails <$> head userWaypoints) in
  if noFeederName feederName
  then DownloadBadRequest400 "Feeder name not found in GPS details"
  else
    match generatePdfBuffer userWaypoints with
    | None => DownloadServerError500 "Internal Server Error"
    | Some pdfBuffer =>
        DownloadSent
          (js "attachment; filename=" ++ sanitizeFeederName (default [] feederName)
             ++ js " waypoints by " ++ js empId ++ js ".pdf")
          "application/pdf" pdfBuffer
    end.

Definition downloadPdf (users : list User.t) (found : option StoredProject)
    (projectId empId : string) : Download Buffer :=
  match findUserAndProject users found projectId empId with
  | inl refused => refused
  | inr (user, project) =>
      let userWaypoints :=
        map reportRow
            (filter (createdByUser user)
                    (concat (Project.waypoints (populate users project)))) in
      if bool_decide (length userWaypoints = 0%nat)
      then DownloadNotFound404
             "No waypoints found for this employee in the project"
      else sendPdf empId userWaypoints
  end.

(** Lines 103-132 of [downloadKmz]; the generator is also given
    [String(userWaypoints[0]?.routeType).toLowerCase() || 'new']. *)
Definition sendKmz (empId : string) (userWaypoints : list ReportRow.t) : Download Buffer :=
  let feederName := firstFeederName (ReportRow.gpsDetails <$> head userWaypoints) in
  if noFeederName feederName
  then DownloadBadRequest400 "Feeder name not found in GPS details"
  else
    let lower :=
      toLowerCase (from_option ReportRow.routeType "undefined" (head userWaypoints)) in
    let routeType := if falsy lower then "new" else lower in
    match generateKmzBuffer userWaypoints routeType with
    | None => DownloadServerError500 "Internal Server Error"
    | Some kmzBuffer =>
        DownloadSent
          (js "attachment; filename=" ++ sanitizeFeederName (default [] feederName)
             ++ js " city feeder by " ++ js empId ++ js ".kmz")
          "application/vnd.google-earth.kmz" kmzBuffer
    end.

Definition downloadKmz (users : list User.t) (found : option StoredProject)
    (projectId empId : string) : Download Buffer :=
  match findUserAndProject users found projectId empId with
  | inl refused => refused
  | inr (user, project) =>
      let userWaypoints :=
        map reportRow
            (filter (createdByUser user)
                    (concat (Project.waypoints (populate users project)))) in
      if bool_decide (length userWaypoints = 0%nat)
      then DownloadNotFound404
             "No waypoints found for this employee in the project"
      else sendKmz empId userWaypoints
  end.
End downloads.

(** ** The cloud storage helper *)

Module Storage.
(** [createErrorResponse(message, statusCode)] *)
Record Error := mkError { code : nat; message : string }.

(** The three environment variables (unset: empty). *)
Record Env := mkEnv {
  bucketName : JsString;
  projectId : JsString;
  keyFilename : JsString;
}.

(** The in-memory file of the upload middleware. *)
Record File := mkFile {
  originalname : JsString;
  mimetype : string;
}.

(** What the bucket did with a request. *)
Inductive Outcome := Done | Missing | Failed.
End Storage.

Definition joinWith (sep : string) (parts : list string) : string :=
  match parts with
  | [] => ""
  | first :: rest => foldl (λ acc part, acc +:+ sep +:+ part) first rest
  end.

(** [validateEnvironment()] *)
Definition validateEnvironment (env : Storage.Env) : option Storage.Error :=
  let errors :=
    (if bool_decide (Storage.bucketName env = [])
     then ["GCLOUD_BUCKET_NAME environment variable is not set."] else [])
    ++ (if bool_decide (Storage.projectId env = [])
        then ["GCLOUD_PROJECT_ID environment variable is not set."] else [])
    ++ (if bool_decide (Storage.keyFilename env = [])
        then ["GCLOUD_KEY_FILE environment variable is not set."] else []) in
  if bool_decide (0 < length errors)%nat
  then Some (Storage.mkError 500 (joinWith " " errors))
  else None.

Definition allowedMimeTypes : list string :=
  ["image/jpeg"; "image/jpg"; "image/png"].

(** [originalname.replace(/\s+/g, "_")]: every maximal run of white space
    becomes one underscore. [inRun]: the code unit before was white space. *)
Fixpoint replaceSpaces (inRun : bool) (s : JsString) : JsString :=
  match s with
  | [] => []
  | c :: rest =>
      if isSpace c
      then (if inRun then replaceSpaces true rest
            else 95%N :: replaceSpaces true rest)
      else c :: replaceSpaces false rest
  end.

Definition sanitizeFilename (originalname : JsString) : JsString :=
  replaceSpaces false originalname.

(** The name of the object: [`${folder}/${Date.now()}-${sanitizedFilename}`] *)
Definition blobName (folder : JsString) (now : N) (file : Storage.File) : JsString :=
  folder ++ js "/" ++ decimal now ++ js "-"
         ++ sanitizeFilename (Storage.originalname file).

Definition storageUrl : JsString := js "https://storage.googleapis.com/".

(** [`https://storage.googleapis.com/${bucket.name}/${blob.name}`] *)
Definition publicUrl (env : Storage.Env) (name : JsString) : JsString :=
  storageUrl ++ Storage.bucketName env ++ js "/" ++ name.

(** [uploadImageToCloudStorage(file, folder)]: [initialized] tells whether
    the client and the bucket were set up at load, [written] what the write
    stream did. The answer is the error object or the public URL. *)
Definition uploadImageToCloudStorage (env : Storage.Env) (initialized : bool)
    (file : option Storage.File) (folder : JsString) (now : N)
    (written : Storage.Outcome) : Storage.Error + JsString :=
  match validateEnvironment env with
  | Some envError => inl envError
  | None =>
      if negb initialized
      then inl (Storage.mkError 500 "Storage service is not properly configured.")
      else
        match file with
        | None => inl (Storage.mkError 400 "No file provided")
        | Some file =>
            if negb (bool_decide (Storage.mimetype file ∈ allowedMimeTypes))
            then inl (Storage.mkError 415
                        "Invalid file type. Only .jpg, .jpeg, and .png are allowed.")
            else
              match written with
              | Storage.Done => inr (publicUrl env (blobName folder now file))
              | _ => inl (Storage.mkError 500
                            "Failed to upload image to cloud storage.")
              end
        end
  end.

(** One attempt of [/https:\/\/storage\.googleapis\.com\/[^\/]+\/(.+)/] at
    the start of [s]: the group, if the attempt succeeds. After the host,
    the longest run without a slash must be non-empty and be followed by a
    slash (a shorter run would be followed by one of its own code units),
    and the group is the longest non-empty run without a line terminator. *)
Definition matchUrlHere (s : JsString) : option JsString :=
  after ← stripPrefix storageUrl s;
  let '(bucket, rest) := span (λ c, negb (c =? 47)%N) after in
  match bucket, rest with
  | _ :: _, _ :: path =>
      let '(group, _) := span (λ c, negb (isLineTerminator c)) path in
      match group with
      | [] => None
      | _ => Some group
      end
  | _, _ => None
  end.

(** [imageUrl.match(...)]: the first position at which an attempt
    succeeds; [match[1]]. *)
Fixpoint matchUrl (s : JsString) : option JsString :=
  match matchUrlHere s with
  | Some group => Some group
  | None =>
      match s with
      | [] => None
      | _ :: rest => matchUrl rest
      end
  end.

(** [deleteImageFromCloudStorage(imageUrl)]: the object it asks the bucket
    to delete, if it asks, and its answer ([None]: [{ success: true }]). *)
Definition deleteImageFromCloudStorage (env : Storage.Env) (initialized : bool)
    (imageUrl : JsString) (deleted : Storage.Outcome)
    : option JsString * option Storage.Error :=
  match validateEnvironment env with
  | Some envError => (None, Some envError)
  | None =>
      if negb initialized
      then (None, Some (Storage.mkError 500
                          "Storage service is not properly configured."))
      else if bool_decide (imageUrl = [])
      then (None, Some (Storage.mkError 400 "No image URL provided"))
      else
        match matchUrl imageUrl with
        | None => (None, Some (Storage.mkError 400 "Invalid image URL format"))
        | Some path =>
            (Some path,
             match deleted with
             | Storage.Done => None
             | Storage.Missing =>
                 Some (Storage.mkError 404 "Image not found in storage")
             | Storage.Failed => Some (Storage.mkError 500 "Failed to delete image")
             end)
        end
  end.

(** ** Mobile numbers

    [updateUser] checks the body's number before the update; the update
    then runs the schema's validator. *)

(** [/^[0-9]{10}$/.test(v)] *)
Definition tenDigits (v : JsString) : bool :=
  bool_decide (length v = 10%nat) && forallb isDigit v.

(** [/[0-9]{10}$/.test(v)]: the last ten code units are digits. *)
Definition endsWithTenDigits (v : JsString) : bool :=
  bool_decide (10 ≤ length v)%nat && forallb isDigit (drop (length v - 10) v).

(** [updates.mobileNo && !/^[0-9]{10}$/.test(updates.mobileNo)]: the
    request is refused with 400. *)
Definition mobileRefused (mobileNo : JsString) : bool :=
  negb (bool_decide (mobileNo = [])) && negb (tenDigits mobileNo).

(** The schema's validator: [v === null || /[0-9]{10}$/.test(v)] *)
Definition mobileValid (v : option JsString) : bool :=
  match v with
  | None => true
  | Some v => endsWithTenDigits v
  end.

(** ** The authentication middlewares *)

Module Auth.
(** The [id] of a token's payload: absent (or falsy), a value that
    [findById] cannot cast to an ObjectId (it throws a CastError), or an
    ObjectId. *)
Inductive PayloadId :=
  | NoId
  | BadId
  | Id (id : ObjectId).

(** What [jwt.verify] does with a token: it throws one of its errors, or
    gives the payload, of which the middlewares read [id] and [role]
    (absent: the empty string). *)
Inductive Verified :=
  | TokenExpiredError
  | JsonWebTokenError
  | OtherError
  | Decoded (id : PayloadId) (role : string).

Inductive Response :=
  | Unauthorized401 (message : string)
  | NotFound404 (message : string)
  | Forbidden403 (message : string)
  | Next (user : option User.t).
End Auth.

(** [authHeader.startsWith("Bearer ")] and [authHeader.split(" ")[1]]: the
    code units after the prefix up to the next space. *)
Definition bearerToken (authHeader : JsString) : option JsString :=
  rest ← stripPrefix (js "Bearer ") authHeader;
  Some (fst (span (λ c, negb (c =? 32)%N) rest)).

Section middlewares.
(** [jwt.verify] with the secret, as [authMiddleware] calls it (HS256 only)
    and as [verifyToken] calls it, and the user collection. *)
Context (verifyHS256 verifyDefault : JsString → Auth.Verified).
Context (users : list User.t).

(** [authMiddleware(roles)]; [roles] absent: [None]. *)
Definition authMiddleware (roles : option (list string))
    (authHeader : option JsString) : Auth.Response :=
  match authHeader ≫= bearerToken with
  | None => Auth.Unauthorized401 "No token provided or invalid format"
  | Some token =>
      match verifyHS256 token with
      | Auth.TokenExpiredError => Auth.Unauthorized401 "Token expired"
      | Auth.JsonWebTokenError => Auth.Unauthorized401 "Invalid token"
      | Auth.OtherError => Auth.Unauthorized401 "Authentication failed"
      | Auth.Decoded id role =>
          match id with
          | Auth.NoId => Auth.Unauthorized401 "Authentication failed"
          | Auth.BadId => Auth.Unauthorized401 "Authentication failed"
          | Auth.Id id =>
              if falsy role then Auth.Unauthorized401 "Authentication failed"
              else
                match findUser users id with
                | None => Auth.NotFound404 "User not found"
                | Some user =>
                    match roles with
                    | Some roles =>
                        if negb (bool_decide (User.role user ∈ roles))
                        then Auth.Forbidden403 "Access denied"
                        else Auth.Next (Some user)
                    | None => Auth.Next (Some user)
                    end
                end
          end
      end
  end.

(** [verifyToken]: it goes on to the next handler with whatever
    [findById] gave, a missing user included ([findById(undefined)] asks
    for [_id: null], which no document has). *)
Definition verifyToken (authHeader : option JsString) : Auth.Response :=
  match authHeader ≫= bearerToken with
  | None => Auth.Unauthorized401 "No token provided"
  | Some token =>
      match verifyDefault token with
      | Auth.Decoded Auth.NoId _ => Auth.Next None
      | Auth.Decoded (Auth.Id id) _ => Auth.Next (findUser users id)
      | _ => Auth.Unauthorized401 "Invalid or expired token"
      end
  end.

(** [isAdmin], on the [req.user] the middleware before it left. *)
Definition isAdmin (user : option User.t) : Auth.Response :=
  match user with
  | Some u =>
      if bool_decide (User.role u = "admin") then Auth.Next user
      else Auth.Forbidden403 "Access denied. Admins only."
  | None => Auth.Forbidden403 "Access denied. Admins only."
  end.

(** [verifyToken, isAdmin] in a route. *)
Definition adminOnly (authHeader : option JsString) : Auth.Response :=
  match verifyToken authHeader with
  | Auth.Next user => isAdmin user
  | refused => refused
  end.
End middlewares.

(** Two outcomes of [jwt.verify] that differ at most in the role the
    payload claims, present in both or in neither. *)
Definition sameButRole (a b : Auth.Verified) : Prop :=
  match a, b with
  | Auth.Decoded id role, Auth.Decoded id' role' =>
      id = id' ∧ (role = "" ↔ role' = "")
  | _, _ => a = b
  end.

(** ** Sample data

    Two employees of one project and the requests they send, for running
    the handlers on concrete input. *)

Definition ann : ObjectId := 5%N.
Definition bob : ObjectId := 7%N.

Definition sampleUsers : list User.t :=
  [User.mk ann "EMP005" "Ann" "employee" None;
   User.mk bob "EMP007" "Bob" "employee" None].

Definition sampleProject : StoredProject :=
  assignEmployee bob
    (assignEmployee ann (createProject "Project_1" "North" "Feeder-2" None 1%N)).

Definition sampleRequest (employee : ObjectId) (isStart isEnd : jsval)
    (now : Timestamp) (newId : ObjectId) : Req.t :=
  Req.mk employee "Pole" "" (Num (QArith_base.Qmake 40 1))
    (Num (QArith_base.Qmake 57 2)) (Num (QArith_base.Qmake 155 2))
    isStart isEnd (Some []) (Some [])
    "new" "Substation" "Village" None now newId.

(** A midpoint sent without [distanceFromPrevious]: [parseFloat(undefined)]
    is [NaN]. *)
Definition midNoDistance (e : ObjectId) (now : Timestamp) (newId : ObjectId) : Req.t :=
  Req.mk e "Pole" "" NaN
    (Num (QArith_base.Qmake 57 2)) (Num (QArith_base.Qmake 155 2))
    (JBool false) (JBool false) (Some []) (Some [])
    "new" "Substation" "Village" None now newId.

(** A pole record [{}], as [poleDetails: "[{}]"] parses. *)
Definition emptyPole : PoleDetails.t :=
  PoleDetails.mk None None None None None false.

Definition midEmptyPole (e : ObjectId) (now : Timestamp) (newId : ObjectId) : Req.t :=
  Req.mk e "Pole" "" (Num (QArith_base.Qmake 40 1))
    (Num (QArith_base.Qmake 57 2)) (Num (QArith_base.Qmake 155 2))
    (JBool false) (JBool false) (Some [emptyPole]) (Some [])
    "new" "Substation" "Village" None now newId.

(** The stored project after a run of requests, refused ones included. *)
Definition submitAll (reqs : list Req.t) (p : StoredProject) : StoredProject :=
  foldl (λ p req, fst (addWaypoint req p)) p reqs.

Definition isCreated (r : Response) : bool :=
  match r with Created201 _ _ => true | _ => false end.

(** Every request of the run is answered 201. *)
Fixpoint allAccepted (reqs : list Req.t) (p : StoredProject) : bool :=
  match reqs with
  | [] => true
  | req :: rest =>
      isCreated (snd (addWaypoint req p)) && allAccepted rest (fst (addWaypoint req p))
  end.

Definition startBy (e : ObjectId) (now : Timestamp) (newId : ObjectId) : Req.t :=
  sampleRequest e (JBool true) (JBool false) now newId.
Definition midBy (e : ObjectId) (now : Timestamp) (newId : ObjectId) : Req.t :=
  sampleRequest e (JBool false) (JBool false) now newId.
Definition endBy (e : ObjectId) (now : Timestamp) (newId : ObjectId) : Req.t :=
  sampleRequest e (JStr "false") (JStr "true") now newId.
Definition startEndBy (e : ObjectId) (now : Timestamp) (newId : ObjectId) : Req.t :=
  sampleRequest e (JBool true) (JBool true) now newId.

(** Ann walks a whole path, ending it after midnight UTC, while Bob starts
    one and leaves it open. *)
Definition sampleRun : list Req.t :=
  [startBy ann 1700000000000%Z 100%N; startBy bob 1700000060000%Z 101%N;
   midBy ann 1700000120000%Z 102%N; midBy bob 1700000180000%Z 103%N;
   midBy ann 1700000240000%Z 104%N; endBy ann 1700010000000%Z 105%N].

Definition sampleStored : StoredProject := submitAll sampleRun sampleProject.

(** The sample project as the report reads it, and a waypoint of it. *)
Definition samplePopulated : PopulatedProject := populate sampleUsers sampleStored.

Definition populated (req : Req.t) : PopulatedWaypoint :=
  Waypoint.mapCreatedBy (findUser sampleUsers) (buildWaypoint req None [] []).

(** Ann walks a second path three days later. *)
Definition sampleRun2 : list Req.t :=
  sampleRun ++ [startBy ann 1700300000000%Z 106%N; endBy ann 1700300600000%Z 107%N].

Definition samplePopulated2 : PopulatedProject :=
  populate sampleUsers (submitAll sampleRun2 sampleProject).

Definition earlierSegment : Segment.t :=
  mkSegment samplePopulated2
    [populated (startBy ann 1700000000000%Z 100%N);
     populated (midBy ann 1700000120000%Z 102%N);
     populated (midBy ann 1700000240000%Z 104%N);
     populated (endBy ann 1700010000000%Z 105%N)]
    1700010000000%Z.

Definition laterSegment : Segment.t :=
  mkSegment samplePopulated2
    [populated (startBy ann 1700300000000%Z 106%N);
     populated (endBy ann 1700300600000%Z 107%N)]
    1700300600000%Z.

(** Bob starts a path with a GPS record that names the feeder. *)
Definition sampleGps : GpsDetail.t :=
  GpsDetail.mk (Some "2023-11-14 22:13") (Some "EMP007")
    (Some (js "City feeder/11kV #2")) false.

Definition startWithGps (e : ObjectId) (now : Timestamp) (newId : ObjectId) : Req.t :=
  Req.mk e "Pole" "" (Num (QArith_base.Qmake 0 1))
    (Num (QArith_base.Qmake 57 2)) (Num (QArith_base.Qmake 155 2))
    (JBool true) (JBool false) (Some []) (Some [sampleGps])
    "NEW" "Substation" "Village" None now newId.

Definition sampleSurveyed : StoredProject :=
  submitAll [startWithGps bob 1700000060000%Z 101%N] sampleProject.

(** Stand-ins for the buffer generators: the buffer is the number of rows. *)
Definition countRows {Row} (rows : list Row) : option nat := Some (length rows).

(** Waypoints as the handler builds them from sample requests. *)
Definition sampleStart (e : ObjectId) : StoredWaypoint :=
  buildWaypoint (startBy e 1700010300000%Z 110%N) None [] [].
Definition sampleMid (e : ObjectId) : StoredWaypoint :=
  buildWaypoint (midBy e 1700010300000%Z 110%N) None [] [].
Definition sampleEnd (e : ObjectId) : StoredWaypoint :=
  buildWaypoint (endBy e 1700010300000%Z 110%N) None [] [].
Definition sampleStartEnd (e : ObjectId) : StoredWaypoint :=
  buildWaypoint (startEndBy e 1700010300000%Z 110%N) None [] [].

(** * Properties *)

(** ** The ownership filter *)

Lemma userPaths_app e (l1 l2 : list (Path ObjectId)) :
  userPaths e (l1 ++ l2) = userPaths e l1 ++ userPaths e l2.
Proof. apply filter_app. Qed.

Lemma lastUserPath_split e before path after :
  ownedBy e path → userPaths e after = [] →
  lastUserPath e (before ++ path :: after) = Some path.
Proof.
  intros Hown Hafter. unfold lastUserPath.
  rewrite userPaths_app. unfold userPaths at 2.
  rewrite filter_cons_True by done. fold (userPaths e after).
  rewrite Hafter. apply last_snoc.
Qed.

(** What the filter returns: it throws exactly on an empty path, and the
    last position it keeps is that of the employee's last path. *)
Lemma filterOwnedFrom_Some e paths : ∀ i idxs,
  filterOwnedFrom e i paths = Some idxs →
  pathsNonEmpty paths ∧
  match last idxs with
  | None => userPaths e paths = []
  | Some j => ∃ before path after,
      paths = before ++ path :: after ∧ j = (i + length before)%nat ∧
      ownedBy e path ∧ userPaths e after = []
  end.
Proof.
  induction paths as [|path rest IH]; intros i idxs Hf; simpl in Hf.
  - inversion Hf; subst. split; [constructor | reflexivity].
  - destruct path as [|first tl]; [discriminate|].
    destruct (filterOwnedFrom e (S i) rest) as [rest'|] eqn:Hrest; [|discriminate].
    simpl in Hf. inversion Hf; subst idxs; clear Hf.
    destruct (IH _ _ Hrest) as [Hne Hlast].
    split; [constructor; [done | exact Hne]|].
    assert (Hshift : match last rest' with
      | None => userPaths e rest = []
      | Some j => ∃ before path after,
          (first :: tl) :: rest = before ++ path :: after ∧
          j = (i + length before)%nat ∧ ownedBy e path ∧ userPaths e after = []
      end).
    { destruct (last rest') as [j|]; [|exact Hlast].
      destruct Hlast as (before & path & after & -> & -> & Hown & Hafter).
      exists ((first :: tl) :: before), path, after.
      split; [done|]. split; [simpl; lia|]. done. }
    destruct (decide (Waypoint.pathOwner first = Some e)) as [Hown|Hown].
    + rewrite last_cons.
      destruct (last rest') as [j|] eqn:Hl; [exact Hshift|].
      exists [], (first :: tl), rest.
      split; [done|]. split; [simpl; lia|]. split; [exact Hown | exact Hshift].
    + destruct (last rest') as [j|] eqn:Hl; [exact Hshift|].
      unfold userPaths. rewrite filter_cons_False; [exact Hshift|].
      unfold ownedBy. simpl. exact Hown.
Qed.

Lemma filterOwnedFrom_None e paths i :
  filterOwnedFrom e i paths = None ↔ ¬ pathsNonEmpty paths.
Proof.
  revert i. induction paths as [|path rest IH]; intros i; simpl.
  - split; [discriminate | intros H; destruct H; constructor].
  - destruct path as [|first tl].
    + split; [|done]. intros _ H. by inversion H.
    + destruct (filterOwnedFrom e (S i) rest) as [rest'|] eqn:Hrest; simpl.
      * split; [discriminate|]. intros H. exfalso. apply H.
        constructor; [done|]. by apply (filterOwnedFrom_Some e rest (S i) rest').
      * split; [|done]. intros _ H. inversion H; subst.
        by apply (IH (S i)).
Qed.

Lemma isOpen_last {U} (path : Path U) :
  path ≠ [] →
  isOpen path = true ↔ ∃ w, last path = Some w ∧ Waypoint.isEnd w = false.
Proof.
  intros Hne. unfold isOpen. destruct (last path) as [w|] eqn:Hl.
  - split.
    + intros H. exists w. split; [done|]. by destruct (Waypoint.isEnd w).
    + intros (w' & [= <-] & ->). done.
  - apply last_None in Hl. done.
Qed.

Lemma lastPathIncomplete_split e before path after :
  path ≠ [] → ownedBy e path → userPaths e after = [] →
  lastPathIncomplete e (before ++ path :: after) ↔ isOpen path = true.
Proof.
  intros Hne Hown Hafter. unfold lastPathIncomplete.
  rewrite lastUserPath_split by done. rewrite isOpen_last by done.
  split.
  - intros (p & w & [= <-] & Hl & He). eauto.
  - intros (w & Hl & He). eauto.
Qed.

(** [hasIncompletePath] computes [lastPathIncomplete], and when it holds the
    position kept is that of the employee's last path. *)
Lemma hasIncompletePath_spec e paths idxs :
  filterOwned e paths = Some idxs →
  ∃ b, hasIncompletePath paths (last idxs) = Some b ∧
       (b = true ↔ lastPathIncomplete e paths) ∧
       (b = true → ∃ j before path after,
           last idxs = Some j ∧ paths = before ++ path :: after ∧
           j = length before ∧ ownedBy e path ∧ userPaths e after = [] ∧
           isOpen path = true).
Proof.
  intros Hf. destruct (filterOwnedFrom_Some _ _ _ _ Hf) as [Hne Hlast].
  destruct (last idxs) as [j|] eqn:Hl.
  - destruct Hlast as (before & path & after & -> & -> & Hown & Hafter).
    assert (Hp : path ≠ []).
    { apply Forall_app in Hne as [_ Hne]. by inversion Hne. }
    simpl. rewrite lookup_app_r by lia.
    replace (length before - length before)%nat with 0%nat by lia. simpl.
    destruct (last path) as [w|] eqn:Hw; [|by apply last_None in Hw].
    simpl. exists (negb (Waypoint.isEnd w)).
    assert (Hopen : negb (Waypoint.isEnd w) = isOpen path).
    { unfold isOpen. by rewrite Hw. }
    rewrite Hopen, lastPathIncomplete_split by done.
    split; [done|]. split; [done|].
    intros Ho. exists (length before), before, path, after. done.
  - exists false. simpl. split; [done|]. split; [|done].
    split; [done|]. intros (p & w & Hp & _). unfold lastUserPath in Hp.
    rewrite Hlast in Hp. done.
Qed.

(** ** The state machine, case by case *)

Ltac run_handler :=
  unfold submitWaypoint, mbind, Handler_bind, mret, Handler_ret, getDoc,
    orThrow, rejectIf, pushToPath, modifyWaypoints, throw, reply; simpl.

(** An empty path in the document: the filter throws, nothing changes. *)
Lemma submitWaypoint_throws e w m :
  ¬ pathsNonEmpty (Project.waypoints (doc m)) →
  submitWaypoint e w m = (m, inr (ServerError500 "Server error")).
Proof.
  intros Hne. apply (filterOwnedFrom_None e _ 0%nat) in Hne.
  run_handler. unfold filterOwned. rewrite Hne. reflexivity.
Qed.

Lemma filterOwned_is_Some e paths :
  pathsNonEmpty paths → ∃ idxs, filterOwned e paths = Some idxs.
Proof.
  intros Hne. unfold filterOwned.
  destruct (filterOwnedFrom e 0 paths) as [idxs|] eqn:Hf; [eauto|].
  apply filterOwnedFrom_None in Hf. done.
Qed.

(** A start while the last path is open is refused. *)
Lemma submitWaypoint_start_conflict e w m :
  pathsNonEmpty (Project.waypoints (doc m)) →
  Waypoint.isStart w = true →
  lastPathIncomplete e (Project.waypoints (doc m)) →
  submitWaypoint e w m = (m, inr (BadRequest400 msgStartWhileOpen)).
Proof.
  intros Hne Hs Hinc.
  destruct (filterOwned_is_Some e _ Hne) as [idxs Hf].
  destruct (hasIncompletePath_spec _ _ _ Hf) as (b & Hb & Hiff & _).
  apply Hiff in Hinc. subst b.
  run_handler. rewrite Hf. simpl. rewrite Hb. simpl. rewrite Hs. reflexivity.
Qed.

(** Any other start opens a new path at the end of the array. *)
Lemma submitWaypoint_start_ok e w m :
  pathsNonEmpty (Project.waypoints (doc m)) →
  Waypoint.isStart w = true →
  ¬ lastPathIncomplete e (Project.waypoints (doc m)) →
  submitWaypoint e w m =
    (withWaypoints (Project.waypoints (doc m) ++ [[Waypoint.setPathOwner e w]]) m,
     inl tt).
Proof.
  intros Hne Hs Hinc.
  destruct (filterOwned_is_Some e _ Hne) as [idxs Hf].
  destruct (hasIncompletePath_spec _ _ _ Hf) as (b & Hb & Hiff & _).
  destruct b; [exfalso; apply Hinc, Hiff; done|].
  run_handler. rewrite Hf. simpl. rewrite Hb. simpl. rewrite Hs. reflexivity.
Qed.

(** An end or a midpoint with no open last path is refused. *)
Lemma submitWaypoint_append_conflict e w m :
  pathsNonEmpty (Project.waypoints (doc m)) →
  Waypoint.isStart w = false →
  ¬ lastPathIncomplete e (Project.waypoints (doc m)) →
  submitWaypoint e w m =
    (m, inr (BadRequest400
               (if Waypoint.isEnd w then msgEndNotStarted else msgNoActivePath))).
Proof.
  intros Hne Hs Hinc.
  destruct (filterOwned_is_Some e _ Hne) as [idxs Hf].
  destruct (hasIncompletePath_spec _ _ _ Hf) as (b & Hb & Hiff & _).
  destruct b; [exfalso; apply Hinc, Hiff; done|].
  run_handler. rewrite Hf. simpl. rewrite Hb. simpl. rewrite Hs.
  destruct (Waypoint.isEnd w); reflexivity.
Qed.

Lemma alter_middle {A} (f : A → A) (before : list A) (x : A) (after : list A) :
  alter f (length before) (before ++ x :: after) = before ++ f x :: after.
Proof.
  induction before as [|y before IH]; [reflexivity|].
  simpl. f_equal. exact IH.
Qed.

(** An end or a midpoint with an open last path grows that path. *)
Lemma submitWaypoint_append_ok e w m :
  pathsNonEmpty (Project.waypoints (doc m)) →
  Waypoint.isStart w = false →
  lastPathIncomplete e (Project.waypoints (doc m)) →
  ∃ before path after,
    Project.waypoints (doc m) = before ++ path :: after ∧
    ownedBy e path ∧ userPaths e after = [] ∧ isOpen path = true ∧
    submitWaypoint e w m =
      (withWaypoints (before ++ (path ++ [w]) :: after) m, inl tt).
Proof.
  intros Hne Hs Hinc.
  destruct (filterOwned_is_Some e _ Hne) as [idxs Hf].
  destruct (hasIncompletePath_spec _ _ _ Hf) as (b & Hb & Hiff & Hpos).
  apply Hiff in Hinc. subst b.
  destruct (Hpos eq_refl) as (j & before & path & after & Hj & Hsplit & -> & Hown & Hafter & Hopen).
  exists before, path, after. repeat (split; [done|]).
  run_handler. rewrite Hf. simpl. rewrite Hb. simpl. rewrite Hs, Hj.
  unfold withWaypoints.
  destruct (Waypoint.isEnd w); rewrite Hsplit, alter_middle; reflexivity.
Qed.

(** Every run of the state machine that goes on to [save] made a [pathStep];
    every run that answered left the memory as it was. *)
Lemma submitWaypoint_cases e w m :
  match submitWaypoint e w m with
  | (m', inl _) => ∃ paths',
      m' = withWaypoints paths' m ∧
      pathStep e w (Project.waypoints (doc m)) paths'
  | (m', inr r) =>
      m' = m ∧ (PathConflict r ∨ r = ServerError500 "Server error")
  end.
Proof.
  destruct (decide (pathsNonEmpty (Project.waypoints (doc m)))) as [Hne|Hne];
    [|rewrite submitWaypoint_throws by done; auto].
  assert (Hdec : lastPathIncomplete e (Project.waypoints (doc m)) ∨
                 ¬ lastPathIncomplete e (Project.waypoints (doc m))).
  { destruct (filterOwned_is_Some e _ Hne) as [idxs Hf].
    destruct (hasIncompletePath_spec _ _ _ Hf) as (b & _ & Hiff & _).
    destruct b; [left; by apply Hiff | right; intros H; by apply Hiff in H]. }
  destruct (Waypoint.isStart w) eqn:Hs; destruct Hdec as [Hinc|Hinc].
  - rewrite submitWaypoint_start_conflict by done.
    split; [done|]. left. left. done.
  - rewrite submitWaypoint_start_ok by done.
    eexists. split; [done|]. by constructor.
  - destruct (submitWaypoint_append_ok e w m Hne Hs Hinc)
      as (before & path & after & Hsplit & Hown & Hafter & Hopen & ->).
    eexists. split; [done|]. rewrite Hsplit. constructor; try done.
    by rewrite <- Hsplit.
  - rewrite submitWaypoint_append_conflict by done.
    split; [done|]. left. right.
    destruct (Waypoint.isEnd w); [left | right]; done.
Qed.

(** ** The handler as a whole *)

(** With no empty path in the document, the state machine does not throw. *)
Lemma submitWaypoint_no_throw e w m :
  pathsNonEmpty (Project.waypoints (doc m)) →
  ∀ m' message, submitWaypoint e w m ≠ (m', inr (ServerError500 message)).
Proof.
  intros Hne m' message Hrun.
  assert (Hdec : lastPathIncomplete e (Project.waypoints (doc m)) ∨
                 ¬ lastPathIncomplete e (Project.waypoints (doc m))).
  { destruct (filterOwned_is_Some e _ Hne) as [idxs Hf].
    destruct (hasIncompletePath_spec _ _ _ Hf) as (b & _ & Hiff & _).
    destruct b; [left; by apply Hiff | right; intros H; by apply Hiff in H]. }
  destruct (Waypoint.isStart w) eqn:Hs; destruct Hdec as [Hinc|Hinc].
  - by rewrite submitWaypoint_start_conflict in Hrun.
  - by rewrite submitWaypoint_start_ok in Hrun.
  - destruct (submitWaypoint_append_ok e w m Hne Hs Hinc)
      as (? & ? & ? & _ & _ & _ & _ & Heq).
    by rewrite Heq in Hrun.
  - rewrite submitWaypoint_append_conflict in Hrun by done.
    by destruct (Waypoint.isEnd w).
Qed.

(** The state machine followed by [save]: either the step made is
    written, the document being valid with it, or the run ends with the
    collection as it was, by a refusal of the state machine (nothing
    touched) or by a failed validation (the step made is lost). *)
Lemma submit_and_save_cases e w (resp : Response) p :
  match (submitWaypoint e w ≫= λ _, save ≫= λ _, mret resp) (mkMem p p) with
  | (m', inl r) =>
      r = resp ∧ doc m' = db m' ∧
      validWaypoints (Project.waypoints (db m')) = true ∧
      ∃ paths', db m' = Project.setWaypoints paths' p ∧
                pathStep e w (Project.waypoints p) paths'
  | (m', inr r) =>
      db m' = p ∧
      (m' = mkMem p p ∧
       (PathConflict r ∨ r = ServerError500 "Server error") ∧
       (∀ message, r = ServerError500 message →
                   ¬ pathsNonEmpty (Project.waypoints p)) ∨
       r = ServerError500 "Server error" ∧
       ∃ paths', pathStep e w (Project.waypoints p) paths' ∧
                 validWaypoints paths' = false)
  end.
Proof.
  unfold mbind, Handler_bind, mret, Handler_ret.
  pose proof (submitWaypoint_cases e w (mkMem p p)) as Hc.
  destruct (submitWaypoint e w (mkMem p p)) as [m' [[]|r]] eqn:Hrun.
  - destruct Hc as (paths' & -> & Hstep). unfold save, withWaypoints. simpl.
    destruct (validWaypoints paths') eqn:Hv; simpl.
    + split; [done|]. split; [done|]. split; [done|]. eauto.
    + split; [done|]. right. split; [done|]. eauto.
  - destruct Hc as [-> Hr]. simpl. split; [done|]. left.
    split; [done|]. split; [done|].
    intros message -> Hne.
    by eapply (submitWaypoint_no_throw e w (mkMem p p)).
Qed.

(** The handler either answers early, with the collection as it was, or
    saves an accepted step and answers 201. Only a failed [save] leaves the
    loaded document changed. *)
Lemma addWaypointHandler_cases req p :
  match addWaypointHandler req (mkMem p p) with
  | (m', inl (Created201 _ w)) =>
      doc m' = db m' ∧ accepted req p (db m') w ∧
      validWaypoints (Project.waypoints (db m')) = true
  | (m', inl _) => False
  | (m', inr r) =>
      db m' = p ∧ isCreated r = false ∧
      (m' = mkMem p p ∧
       (∀ message, r = ServerError500 message →
                   ¬ pathsNonEmpty (Project.waypoints p)) ∨
       r = ServerError500 "Server error" ∧
       Req.employeeId req ∈ Project.employees p ∧
       ∃ imageUrl pole gps paths',
         Req.poleDetails req = Some pole ∧ Req.gpsDetails req = Some gps ∧
         pathStep (Req.employeeId req) (buildWaypoint req imageUrl pole gps)
                  (Project.waypoints p) paths' ∧
         validWaypoints paths' = false)
  end.
Proof.
  assert (Hcore : ∀ imageUrl pole gps,
    Req.employeeId req ∈ Project.employees p →
    Req.poleDetails req = Some pole → Req.gpsDetails req = Some gps →
    match (submitWaypoint (Req.employeeId req)
             (buildWaypoint req imageUrl pole gps) ≫= λ _,
           save ≫= λ _,
           mret (Created201 "Waypoint added successfully"
                   (buildWaypoint req imageUrl pole gps))) (mkMem p p) with
    | (m', inl (Created201 _ w)) =>
        doc m' = db m' ∧ accepted req p (db m') w ∧
        validWaypoints (Project.waypoints (db m')) = true
    | (m', inl _) => False
    | (m', inr r) =>
        db m' = p ∧ isCreated r = false ∧
        (m' = mkMem p p ∧
         (∀ message, r = ServerError500 message →
                     ¬ pathsNonEmpty (Project.waypoints p)) ∨
         r = ServerError500 "Server error" ∧
         Req.employeeId req ∈ Project.employees p ∧
         ∃ imageUrl pole gps paths',
           Req.poleDetails req = Some pole ∧ Req.gpsDetails req = Some gps ∧
           pathStep (Req.employeeId req) (buildWaypoint req imageUrl pole gps)
                    (Project.waypoints p) paths' ∧
           validWaypoints paths' = false)
    end).
  { intros imageUrl pole gps Hin Hpole Hgps.
    pose proof (submit_and_save_cases (Req.employeeId req)
      (buildWaypoint req imageUrl pole gps)
      (Created201 "Waypoint added successfully"
         (buildWaypoint req imageUrl pole gps)) p) as Hc.
    destruct ((submitWaypoint _ _ ≫= _) _) as [m' [r|r]].
    - destruct Hc as (-> & Hdoc & Hv & paths' & Hdb & Hstep).
      split; [done|]. split; [|done].
      split; [done|]. split; [eauto|]. eauto.
    - destruct Hc as [Hdb [(-> & Hr & Hthrow) | [-> (paths' & Hstep & Hv)]]].
      + split; [done|]. split; [|left; by split].
        destruct Hr as [[Hr|[Hr|Hr]]|Hr]; subst r; reflexivity.
      + split; [done|]. split; [done|]. right. split; [done|].
        split; [done|]. by exists imageUrl, pole, gps, paths'. }
  unfold addWaypointHandler.
  destruct (bool_decide (Req.employeeId req ∈ Project.employees p)) eqn:Hin;
    [|unfold mbind, Handler_bind, getDoc, rejectIf, reply; simpl;
      rewrite Hin; simpl; split; [done|]; split; [done|left; by split]].
  apply bool_decide_eq_true in Hin.
  destruct (Req.poleDetails req) as [pole|] eqn:Hpole;
    [|unfold mbind, Handler_bind, getDoc, rejectIf, reply; simpl;
      rewrite bool_decide_eq_true_2 by done; simpl;
      split; [done|]; split; [done|left; by split]].
  destruct (Req.gpsDetails req) as [gps|] eqn:Hgps;
    [|unfold mbind, Handler_bind, getDoc, rejectIf, reply; simpl;
      rewrite bool_decide_eq_true_2 by done; simpl;
      split; [done|]; split; [done|left; by split]].
  assert (Hgo : ∀ imageUrl,
    match (submitWaypoint (Req.employeeId req)
             (buildWaypoint req imageUrl pole gps) ≫= λ _,
           save ≫= λ _,
           mret (Created201 "Waypoint added successfully"
                   (buildWaypoint req imageUrl pole gps))) (mkMem p p) with
    | (m', inl (Created201 _ w)) =>
        doc m' = db m' ∧ accepted req p (db m') w ∧
        validWaypoints (Project.waypoints (db m')) = true
    | (m', inl _) => False
    | (m', inr r) =>
        db m' = p ∧ isCreated r = false ∧
        (m' = mkMem p p ∧
         (∀ message, r = ServerError500 message →
                     ¬ pathsNonEmpty (Project.waypoints p)) ∨
         r = ServerError500 "Server error" ∧
         Req.employeeId req ∈ Project.employees p ∧
         ∃ imageUrl pole0 gps0 paths',
           Some pole = Some pole0 ∧ Some gps = Some gps0 ∧
           pathStep (Req.employeeId req) (buildWaypoint req imageUrl pole0 gps0)
                    (Project.waypoints p) paths' ∧
           validWaypoints paths' = false)
    end).
  { intros imageUrl.
    exact (Hcore imageUrl pole gps Hin eq_refl eq_refl). }
  clear Hcore.
  unfold mbind at 1 2 3 4 5, Handler_bind at 1 2 3 4 5, getDoc, rejectIf, reply.
  simpl. rewrite bool_decide_eq_true_2 by done. simpl.
  match goal with |- context [if ?c then _ else _] => destruct c end;
    simpl; [split; [done|]; split; [done|left; by split]|].
  destruct (Req.upload req) as [[url|]|]; simpl;
    [exact (Hgo (Some url)) | split; [done|]; split; [done|left; by split]
     | exact (Hgo None)].
Qed.

Lemma addWaypoint_cases req p :
  match addWaypoint req p with
  | (p', Created201 _ w) => accepted req p p' w
  | (p', _) => p' = p
  end.
Proof.
  unfold addWaypoint, runHandler.
  pose proof (addWaypointHandler_cases req p) as Hc.
  destruct (addWaypointHandler req (mkMem p p)) as [m' [r|r]].
  - destruct r; try done. by destruct Hc as (_ & ? & _).
  - destruct Hc as (Hdb & Hr & _). by destruct r.
Qed.

Lemma addWaypoint_accepted req p p' message w :
  addWaypoint req p = (p', Created201 message w) → accepted req p p' w.
Proof.
  intros H. pose proof (addWaypoint_cases req p) as Hc. by rewrite H in Hc.
Qed.

(** Induction over reachable states by what happens to the path array. *)
Lemma reachableBy_paths_ind (ok : Req.t → Prop)
    (P : list (Path ObjectId) → Prop) :
  P [] →
  (∀ req imageUrl pole gps paths paths',
      ok req → P paths →
      pathStep (Req.employeeId req) (buildWaypoint req imageUrl pole gps)
               paths paths' →
      P paths') →
  ∀ p, reachableBy ok p → P (Project.waypoints p).
Proof.
  intros Hnil Hstep p Hr. induction Hr as [| p e Hr IH | p req p' msg w Hr IH Hok Hadd].
  - exact Hnil.
  - unfold assignEmployee. by destruct (bool_decide _).
  - apply addWaypoint_accepted in Hadd
      as (_ & (imageUrl & pole & gps & ->) & paths' & -> & Hs).
    simpl. eapply Hstep; eauto.
Qed.

(** ** Invariants of reachable projects *)

Lemma setPathOwner_isStart {U} e (w : Waypoint.t U) :
  Waypoint.isStart (Waypoint.setPathOwner e w) = Waypoint.isStart w.
Proof. reflexivity. Qed.

Lemma setPathOwner_isEnd {U} e (w : Waypoint.t U) :
  Waypoint.isEnd (Waypoint.setPathOwner e w) = Waypoint.isEnd w.
Proof. reflexivity. Qed.

Lemma setPathOwner_id {U} e (w : Waypoint.t U) :
  Waypoint.pathOwner w = Some e → Waypoint.setPathOwner e w = w.
Proof. destruct w; simpl; intros ->; reflexivity. Qed.

Lemma startsWithStart_step e w paths paths' :
  pathStep e w paths paths' →
  Forall startsWithStart paths → Forall startsWithStart paths'.
Proof.
  intros Hstep HP. destruct Hstep as [paths Hs Hne Hinc | before path after Hs Hne Hown Hafter Hopen].
  - apply Forall_app. split; [done|]. constructor; [|constructor].
    eexists _, []. split; [reflexivity|]. by rewrite setPathOwner_isStart.
  - apply Forall_app in HP as [Hb Hpa]. inversion Hpa as [|? ? Hp Ha]; subst.
    apply Forall_app. split; [done|]. constructor; [|done].
    destruct Hp as (first & rest & -> & Hfs).
    exists first, (rest ++ [w]). done.
Qed.

Lemma startsWithStart_nonEmpty paths :
  Forall startsWithStart paths → pathsNonEmpty paths.
Proof.
  intros H. eapply Forall_impl; [exact H|].
  intros path (first & rest & -> & _). done.
Qed.

(** C10: in a project reached from creation through assignments and
    accepted [addWaypoint] calls, every path is non-empty and begins with a
    waypoint that has [isStart]; so the ownership filter, which reads
    [path[0].pathOwner] unguarded, finds a first element in every path and
    returns for every employee. *)
Theorem reachable_paths_start (p : StoredProject) :
  reachable p →
  Forall startsWithStart (Project.waypoints p) ∧
  pathsNonEmpty (Project.waypoints p) ∧
  ∀ employeeId, is_Some (filterOwned employeeId (Project.waypoints p)).
Proof.
  intros Hr.
  assert (HP : Forall startsWithStart (Project.waypoints p)).
  { revert p Hr. apply reachableBy_paths_ind; [constructor|].
    intros req imageUrl pole gps paths paths' _ HP Hstep.
    by eapply startsWithStart_step. }
  split; [done|]. split; [by apply startsWithStart_nonEmpty|].
  intros e. destruct (filterOwned_is_Some e (Project.waypoints p)) as [idxs ->];
    [by apply startsWithStart_nonEmpty | eauto].
Qed.

Lemma ownedBy_inj e e' path : ownedBy e path → ownedBy e' path → e = e'.
Proof. unfold ownedBy. intros -> [= ->]. reflexivity. Qed.

Lemma ownedBy_snoc e path w :
  path ≠ [] → ownedBy e (path ++ [w]) ↔ ownedBy e path.
Proof. destruct path; [done|]. reflexivity. Qed.

Lemma ownedBy_new e e' (w : StoredWaypoint) :
  ownedBy e' [Waypoint.setPathOwner e w] ↔ e' = e.
Proof. unfold ownedBy. simpl. split; [by intros [= ->] | by intros ->]. Qed.

Lemma userPaths_singleton e path :
  userPaths e [path] = if decide (ownedBy e path) then [path] else [].
Proof.
  unfold userPaths. destruct (decide (ownedBy e path)).
  - by rewrite filter_cons_True.
  - by rewrite filter_cons_False.
Qed.

Lemma userPaths_middle e before path after :
  userPaths e (before ++ path :: after) =
  userPaths e before ++ userPaths e [path] ++ userPaths e after.
Proof.
  rewrite userPaths_app. f_equal.
  change (path :: after) with ([path] ++ after). apply userPaths_app.
Qed.

(** An employee whose last path is complete (or who has none) has only
    closed paths, as long as the earlier ones are closed. *)
Lemma all_closed e paths :
  pathsNonEmpty paths → closedButLast e paths →
  ¬ lastPathIncomplete e paths →
  Forall (λ q, isOpen q = false) (userPaths e paths).
Proof.
  intros Hne Hcl Hinc.
  destruct (userPaths e paths) as [|x l] eqn:HU using rev_ind; [constructor|].
  clear IHl. apply Forall_app. split; [by eapply Hcl|].
  constructor; [|constructor].
  destruct (isOpen x) eqn:Hopen; [|reflexivity].
  exfalso. apply Hinc.
  assert (Hx : x ≠ []).
  { assert (Hin : x ∈ userPaths e paths) by (rewrite HU; apply elem_of_app; right; by apply list_elem_of_singleton).
    unfold userPaths in Hin. apply list_elem_of_filter in Hin as [_ Hin].
    unfold pathsNonEmpty in Hne. rewrite Forall_forall in Hne. by apply Hne. }
  apply isOpen_last in Hopen as (w & Hw & He); [|done].
  exists x, w. unfold lastUserPath. rewrite HU, last_snoc. done.
Qed.

Lemma closedButLast_step e0 w paths paths' :
  pathStep e0 w paths paths' →
  ∀ e, closedButLast e paths → closedButLast e paths'.
Proof.
  intros Hstep e Hcl.
  destruct Hstep as [paths Hs Hne Hinc | before path after Hs Hne Hown Hafter Hopen].
  - intros earlier last' HU.
    rewrite userPaths_app, userPaths_singleton in HU.
    destruct (decide (ownedBy e [Waypoint.setPathOwner e0 w])) as [Ho|Ho].
    + apply ownedBy_new in Ho as ->.
      apply app_inj_tail in HU as [<- _]. by apply all_closed.
    + rewrite app_nil_r in HU. by eapply Hcl.
  - assert (Hp : path ≠ []).
    { apply Forall_app in Hne as [_ Hne]. by inversion Hne. }
    intros earlier last' HU.
    rewrite userPaths_middle, userPaths_singleton in HU.
    destruct (decide (ownedBy e (path ++ [w]))) as [Ho|Ho].
    + apply ownedBy_snoc in Ho; [|done].
      assert (e = e0) as -> by by eapply ownedBy_inj.
      rewrite Hafter, app_nil_r in HU.
      apply app_inj_tail in HU as [<- _].
      apply (Hcl _ path).
      rewrite userPaths_middle, userPaths_singleton, Hafter, app_nil_r.
      by rewrite decide_True.
    + apply (Hcl _ last'). rewrite <- HU.
      rewrite userPaths_middle, userPaths_singleton.
      rewrite decide_False; [done|].
      intros Ho'. apply Ho. by apply ownedBy_snoc.
Qed.

(** C1: in every project reached through accepted [addWaypoint] calls, each
    employee has at most one open path, that is, at most one owned path
    whose last waypoint does not have [isEnd]; and all of the employee's
    paths before the last one are closed. *)
Theorem reachable_one_open_path (p : StoredProject) (e : ObjectId) :
  reachable p →
  (length (openPaths e (Project.waypoints p)) ≤ 1)%nat ∧
  closedButLast e (Project.waypoints p).
Proof.
  intros Hr.
  assert (Hcl : closedButLast e (Project.waypoints p)).
  { revert p Hr. apply reachableBy_paths_ind.
    - intros earlier path HU. by destruct earlier.
    - intros req imageUrl pole gps paths paths' _ HP Hstep.
      by eapply closedButLast_step. }
  split; [|done].
  unfold openPaths.
  destruct (userPaths e (Project.waypoints p)) as [|x l] eqn:HU using rev_ind;
    [simpl; lia|].
  clear IHl. specialize (Hcl l x HU).
  rewrite filter_app.
  assert (Hnone : filter (λ path, isOpen path = true) l = []).
  { clear HU. induction Hcl as [|q l Hq Hl IH]; [done|].
    rewrite filter_cons_False; [done|]. by rewrite Hq. }
  rewrite Hnone. simpl.
  destruct (decide (isOpen x = true)).
  - by rewrite filter_cons_True.
  - rewrite filter_cons_False by done. simpl. lia.
Qed.

(** A run of requests, each accepted, leads to a reachable state. *)
Lemma reachableBy_submitAll (ok : Req.t → Prop) reqs : ∀ p,
  reachableBy ok p → Forall ok reqs → allAccepted reqs p = true →
  reachableBy ok (submitAll reqs p).
Proof.
  induction reqs as [|req reqs IH]; intros p Hp Hok Hacc; [done|].
  inversion Hok; subst. simpl in Hacc.
  apply andb_prop in Hacc as [Hreq Hacc].
  unfold submitAll. simpl. fold (submitAll reqs (addWaypoint req p).1).
  apply IH; [|done..].
  destruct (addWaypoint req p) as [p' r] eqn:Hadd. simpl in *.
  destruct r; try done. by eapply reach_add.
Qed.

Lemma sampleProject_reachable ok : reachableBy ok sampleProject.
Proof. unfold sampleProject. do 2 apply reach_assign. apply reach_create. Qed.

Lemma sampleStored_reachable ok :
  Forall ok sampleRun → reachableBy ok sampleStored.
Proof.
  intros Hok. apply reachableBy_submitAll;
    [apply sampleProject_reachable | exact Hok | vm_compute; reflexivity].
Qed.

Lemma reachable_one_open_path_witness :
  reachable sampleStored ∧
  (length (openPaths bob (Project.waypoints sampleStored)) ≤ 1)%nat ∧
  closedButLast bob (Project.waypoints sampleStored).
Proof.
  assert (Hr : reachable sampleStored).
  { apply sampleStored_reachable. repeat constructor. }
  split; [exact Hr|]. exact (reachable_one_open_path sampleStored bob Hr).
Defined.

Lemma reachable_paths_start_witness :
  reachable sampleStored ∧
  Forall startsWithStart (Project.waypoints sampleStored) ∧
  pathsNonEmpty (Project.waypoints sampleStored) ∧
  ∀ employeeId, is_Some (filterOwned employeeId (Project.waypoints sampleStored)).
Proof.
  assert (Hr : reachable sampleStored).
  { apply sampleStored_reachable. repeat constructor. }
  split; [exact Hr|]. exact (reachable_paths_start sampleStored Hr).
Defined.

(** ** The two flags *)

Lemma noDoubleFlag_step req imageUrl pole gps paths paths' :
  exclusiveFlags req →
  pathStep (Req.employeeId req) (buildWaypoint req imageUrl pole gps) paths paths' →
  noDoubleFlag paths → noDoubleFlag paths'.
Proof.
  intros Hex Hstep HP. unfold noDoubleFlag in *.
  inversion Hstep as [ps Hs Hne Hinc | before path after Hs Hne Hown Hafter Hopen];
    subst.
  - apply Forall_app. split; [done|].
    repeat constructor. exact Hex.
  - apply Forall_app in HP as [Hb Hpa]. inversion Hpa as [|? ? Hp Ha]; subst.
    apply Forall_app. split; [done|]. constructor; [|done].
    apply Forall_app. split; [done|]. repeat constructor. exact Hex.
Qed.

(** C5, as the code has it: the handler stores the two flags as parsed from
    the request and checks nothing about their combination. When no
    accepted request sets both flags, no stored waypoint has both. *)
Theorem exclusive_requests_exclusive_flags (p : StoredProject) :
  reachableBy exclusiveFlags p → noDoubleFlag (Project.waypoints p).
Proof.
  revert p. apply reachableBy_paths_ind; [constructor|].
  intros req imageUrl pole gps paths paths' Hex HP Hstep.
  by eapply noDoubleFlag_step.
Qed.

Lemma exclusive_requests_exclusive_flags_witness :
  reachableBy exclusiveFlags sampleStored ∧
  noDoubleFlag (Project.waypoints sampleStored).
Proof.
  assert (Hr : reachableBy exclusiveFlags sampleStored).
  { apply sampleStored_reachable.
    repeat constructor; intros [H1 H2]; vm_compute in H1, H2; congruence. }
  split; [exact Hr|]. exact (exclusive_requests_exclusive_flags sampleStored Hr).
Defined.

(** C5 fails as stated: a request with both flags set is answered 201 on the
    sample project, and the stored waypoint has [isStart] and [isEnd]. *)
Lemma both_flags_stored :
  let req := startEndBy ann 1700000000000%Z 100%N in
  let p := fst (addWaypoint req sampleProject) in
  reachable p ∧
  isCreated (snd (addWaypoint req sampleProject)) = true ∧
  ∃ w, Project.waypoints p = [[w]] ∧
       Waypoint.isStart w = true ∧ Waypoint.isEnd w = true.
Proof.
  split; [|split].
  - apply (reachableBy_submitAll _ [startEndBy ann 1700000000000%Z 100%N]);
      [apply sampleProject_reachable | by repeat constructor
      | vm_compute; reflexivity].
  - vm_compute. reflexivity.
  - eexists. vm_compute. split; [reflexivity|]. split; reflexivity.
Qed.

(** Such a waypoint is always a path of its own: it opens a path and is its
    end at once, and nothing is appended to a closed path. *)
Lemma double_flag_alone (p : StoredProject) :
  reachable p →
  Forall (λ path, ∀ x : StoredWaypoint, x ∈ path →
            Waypoint.isStart x = true → Waypoint.isEnd x = true → path = [x])
         (Project.waypoints p).
Proof.
  revert p. apply reachableBy_paths_ind; [constructor|].
  intros req imageUrl pole gps paths paths' _ HP Hstep.
  inversion Hstep as [ps Hs Hne Hinc | before path after Hs Hne Hown Hafter Hopen];
    subst.
  - apply Forall_app. split; [done|]. repeat constructor.
    intros x Hx _ _. by apply list_elem_of_singleton in Hx as ->.
  - apply Forall_app in HP as [Hb Hpa]. inversion Hpa as [|? ? Hp Ha]; subst.
    apply Forall_app. split; [done|]. constructor; [|done].
    intros x Hx Hxs Hxe. apply elem_of_app in Hx as [Hx|Hx].
    + rewrite (Hp x Hx Hxs Hxe) in Hopen.
      unfold isOpen in Hopen. simpl in Hopen. by rewrite Hxe in Hopen.
    + apply list_elem_of_singleton in Hx as ->. congruence.
Qed.

(** ** The submissions, one kind at a time *)

Lemma conflict_not_created r : PathConflict r → isCreated r = false.
Proof. intros [-> | [-> | ->]]; reflexivity. Qed.

(** C2: on a project whose paths are non-empty, a submission with [isStart]
    is refused with a path conflict exactly when the employee's last owned
    path exists and its last waypoint does not have [isEnd]; otherwise a new
    path holding only the candidate (its [pathOwner] set to the employee,
    which the handler's candidate already has) is pushed at the end of the
    project's path array. *)
Theorem start_submission (e : ObjectId) (w : StoredWaypoint) (m : Mem) :
  pathsNonEmpty (Project.waypoints (doc m)) →
  Waypoint.isStart w = true →
  ((∃ r, snd (submitWaypoint e w m) = inr r ∧ PathConflict r)
     ↔ lastPathIncomplete e (Project.waypoints (doc m))) ∧
  (lastPathIncomplete e (Project.waypoints (doc m)) →
     submitWaypoint e w m = (m, inr (BadRequest400 msgStartWhileOpen))) ∧
  (¬ lastPathIncomplete e (Project.waypoints (doc m)) →
     submitWaypoint e w m =
       (withWaypoints
          (Project.waypoints (doc m) ++ [[Waypoint.setPathOwner e w]]) m,
        inl tt) ∧
     (Waypoint.pathOwner w = Some e → Waypoint.setPathOwner e w = w)).
Proof.
  intros Hne Hs. split; [|split].
  - split.
    + intros (r & Hr & Hc).
      pose proof (submitWaypoint_start_ok e w m Hne Hs) as Hok.
      destruct (filterOwned_is_Some e _ Hne) as [idxs Hf].
      destruct (hasIncompletePath_spec _ _ _ Hf) as (b & _ & Hiff & _).
      destruct b; [by apply Hiff|].
      rewrite Hok in Hr; [done|]. intros H. by apply Hiff in H.
    + intros Hinc. rewrite submitWaypoint_start_conflict by done.
      eexists. split; [reflexivity|]. by left.
  - intros Hinc. by apply submitWaypoint_start_conflict.
  - intros Hinc. split; [by apply submitWaypoint_start_ok|].
    apply setPathOwner_id.
Qed.

Lemma start_submission_witness :
  let m := mkMem sampleStored sampleStored in
  pathsNonEmpty (Project.waypoints (doc m)) ∧
  Waypoint.isStart (sampleStart bob) = true ∧
  lastPathIncomplete bob (Project.waypoints (doc m)) ∧
  submitWaypoint bob (sampleStart bob) m = (m, inr (BadRequest400 msgStartWhileOpen)).
Proof.
  assert (Hne : pathsNonEmpty (Project.waypoints sampleStored))
    by (vm_compute; by repeat constructor).
  assert (Hinc : lastPathIncomplete bob (Project.waypoints sampleStored))
    by (eexists _, _; vm_compute; repeat split; reflexivity).
  split; [exact Hne|]. split; [reflexivity|]. split; [exact Hinc|].
  destruct (start_submission bob (sampleStart bob)
              (mkMem sampleStored sampleStored) Hne eq_refl) as (_ & Hbob & _).
  exact (Hbob Hinc).
Defined.

Lemma isOpen_snoc_end {U} (path : Path U) (w : Waypoint.t U) :
  isOpen (path ++ [w]) = negb (Waypoint.isEnd w).
Proof. unfold isOpen. by rewrite last_snoc. Qed.

(** C3: the end and midpoint rules. The dispatch takes the two flags to be
    exclusive, so an end or midpoint submission does not have [isStart];
    this is the branch of lines 332-353. On a project whose paths are
    non-empty, such a submission, with [isEnd] or with neither flag, is
    refused with a path conflict exactly when the employee has no open last
    path; otherwise the candidate is appended to that last path, in place,
    and an [isEnd] candidate leaves the path closed. *)
Theorem end_or_midpoint_submission (e : ObjectId) (w : StoredWaypoint) (m : Mem) :
  pathsNonEmpty (Project.waypoints (doc m)) →
  Waypoint.isStart w = false →
  ((∃ r, snd (submitWaypoint e w m) = inr r ∧ PathConflict r)
     ↔ ¬ lastPathIncomplete e (Project.waypoints (doc m))) ∧
  (¬ lastPathIncomplete e (Project.waypoints (doc m)) →
     submitWaypoint e w m =
       (m, inr (BadRequest400
                  (if Waypoint.isEnd w then msgEndNotStarted else msgNoActivePath)))) ∧
  (lastPathIncomplete e (Project.waypoints (doc m)) →
     ∃ before path after,
       Project.waypoints (doc m) = before ++ path :: after ∧
       lastUserPath e (Project.waypoints (doc m)) = Some path ∧
       userPaths e after = [] ∧
       submitWaypoint e w m =
         (withWaypoints (before ++ (path ++ [w]) :: after) m, inl tt) ∧
       (Waypoint.isEnd w = true → isOpen (path ++ [w]) = false)).
Proof.
  intros Hne Hs. split; [|split].
  - split.
    + intros (r & Hr & Hc) Hinc.
      destruct (submitWaypoint_append_ok e w m Hne Hs Hinc)
        as (before & path & after & _ & _ & _ & _ & Heq).
      rewrite Heq in Hr. done.
    + intros Hinc. rewrite submitWaypoint_append_conflict by done.
      eexists. split; [reflexivity|]. right.
      destruct (Waypoint.isEnd w); [by left | by right].
  - intros Hinc. by apply submitWaypoint_append_conflict.
  - intros Hinc.
    destruct (submitWaypoint_append_ok e w m Hne Hs Hinc)
      as (before & path & after & Hsplit & Hown & Hafter & Hopen & Heq).
    exists before, path, after. split; [done|].
    split; [rewrite Hsplit; by apply lastUserPath_split|].
    split; [done|]. split; [done|].
    intros He. by rewrite isOpen_snoc_end, He.
Qed.

Lemma end_or_midpoint_submission_witness :
  let m := mkMem sampleStored sampleStored in
  pathsNonEmpty (Project.waypoints (doc m)) ∧
  Waypoint.isStart (sampleEnd ann) = false ∧
  ¬ lastPathIncomplete ann (Project.waypoints (doc m)) ∧
  submitWaypoint ann (sampleEnd ann) m = (m, inr (BadRequest400 msgEndNotStarted)).
Proof.
  assert (Hne : pathsNonEmpty (Project.waypoints sampleStored))
    by (vm_compute; by repeat constructor).
  assert (Hinc : ¬ lastPathIncomplete ann (Project.waypoints sampleStored)).
  { intros (path & w & Hp & Hw & He). vm_compute in Hp.
    injection Hp as <-. vm_compute in Hw. injection Hw as <-. discriminate He. }
  split; [exact Hne|]. split; [reflexivity|]. split; [exact Hinc|].
  destruct (end_or_midpoint_submission ann (sampleEnd ann)
              (mkMem sampleStored sampleStored) Hne eq_refl) as (_ & Hann & _).
  exact (Hann Hinc).
Defined.

(** ** Refusals change nothing *)

(** C6: when [addWaypoint] answers a path conflict, the stored project is
    the one before the call, and so is the document the handler had loaded
    when it returned: every refusal of the state machine comes before its
    first push, and [save] is not reached. No waypoint is appended and no
    path is created. *)
Theorem path_conflict_atomic (req : Req.t) (p p' : StoredProject) (r : Response) :
  addWaypoint req p = (p', r) →
  PathConflict r →
  p' = p ∧
  ∃ m', addWaypointHandler req (mkMem p p) = (m', inr r) ∧
        doc m' = p ∧ db m' = p ∧
        Project.waypoints (doc m') = Project.waypoints p.
Proof.
  unfold addWaypoint, runHandler. intros Hrun Hc.
  pose proof (addWaypointHandler_cases req p) as Hcases.
  destruct (addWaypointHandler req (mkMem p p)) as [m' [r0|r0]];
    injection Hrun as <- <-.
  - apply conflict_not_created in Hc. by destruct r0.
  - destruct Hcases as (_ & _ & [[-> _] | [-> _]]).
    + split; [done|]. by exists (mkMem p p).
    + destruct Hc as [Hc|[Hc|Hc]]; discriminate Hc.
Qed.

(** The state machine by itself: any early answer leaves the memory alone. *)
Lemma submitWaypoint_refusal e w m m' r :
  submitWaypoint e w m = (m', inr r) → m' = m.
Proof.
  intros Hrun. pose proof (submitWaypoint_cases e w m) as Hc.
  rewrite Hrun in Hc. by destruct Hc.
Qed.

Lemma path_conflict_atomic_witness :
  let req := startBy bob 1700010300000%Z 110%N in
  addWaypoint req sampleStored = (sampleStored, BadRequest400 msgStartWhileOpen) ∧
  PathConflict (BadRequest400 msgStartWhileOpen) ∧
  sampleStored = sampleStored ∧
  ∃ m', addWaypointHandler req (mkMem sampleStored sampleStored)
          = (m', inr (BadRequest400 msgStartWhileOpen)) ∧
        doc m' = sampleStored ∧ db m' = sampleStored ∧
        Project.waypoints (doc m') = Project.waypoints sampleStored.
Proof.
  assert (Hrun : addWaypoint (startBy bob 1700010300000%Z 110%N) sampleStored
                 = (sampleStored, BadRequest400 msgStartWhileOpen))
    by (vm_compute; reflexivity).
  assert (Hc : PathConflict (BadRequest400 msgStartWhileOpen)) by (by left).
  split; [exact Hrun|]. split; [exact Hc|].
  exact (path_conflict_atomic _ _ _ _ Hrun Hc).
Defined.

(** ** The segment scan *)

Local Arguments scanStep : simpl never.

Lemma scanFrom_app project len l1 : ∀ l2 idx st,
  scanFrom project len idx (l1 ++ l2) st =
  scanFrom project len (idx + length l1) l2 (scanFrom project len idx l1 st).
Proof.
  induction l1 as [|w l1 IH]; intros l2 idx st; simpl.
  - by rewrite Nat.add_0_r.
  - rewrite IH. f_equal. lia.
Qed.

(** A midpoint that is not the last waypoint joins a running segment. *)
Lemma scanStep_mid project len idx w first cur all :
  midpoint w → idx ≠ (len - 1)%nat →
  scanStep project len idx w (first :: cur, all) = (first :: cur ++ [w], all).
Proof.
  intros [Hs He] Hidx. unfold scanStep. rewrite Hs, He. simpl.
  by rewrite bool_decide_eq_false_2.
Qed.

Lemma scanFrom_mids project len mids : ∀ idx first cur all,
  Forall midpoint mids → (idx + length mids < len)%nat →
  scanFrom project len idx mids (first :: cur, all) =
    (first :: cur ++ mids, all).
Proof.
  induction mids as [|w mids IH]; intros idx first cur all Hmid Hlen; simpl.
  - by rewrite app_nil_r.
  - inversion Hmid; subst. simpl in Hlen.
    rewrite scanStep_mid by (done || lia).
    rewrite IH by (done || lia). by rewrite <- app_assoc.
Qed.

(** A start that is not an end begins a segment; it is emitted at once,
    open, only when it is the last waypoint. *)
Lemma scanStep_start project len idx w cur all :
  Waypoint.isStart w = true → Waypoint.isEnd w = false →
  scanStep project len idx w (cur, all) =
    if bool_decide (idx = len - 1)%nat
    then ([], all ++ [mkSegment project [w] (Waypoint.timestamp w)])
    else ([w], all).
Proof.
  intros Hs He. unfold scanStep. rewrite Hs, He. reflexivity.
Qed.

(** An end that is not a start closes the running segment. *)
Lemma scanStep_end project len idx w first cur all :
  Waypoint.isStart w = false → Waypoint.isEnd w = true →
  scanStep project len idx w (first :: cur, all) =
    ([], all ++ [mkSegment project (first :: cur ++ [w]) (Waypoint.timestamp w)]).
Proof.
  intros Hs He. unfold scanStep. rewrite Hs, He. reflexivity.
Qed.

(** The last midpoint of the stream ends the scan with an open segment,
    stamped by the segment's first waypoint. *)
Lemma scanStep_mid_last project len w first cur all :
  midpoint w →
  scanStep project len (len - 1) w (first :: cur, all) =
    ([], all ++ [mkSegment project (first :: cur ++ [w]) (Waypoint.timestamp first)]).
Proof.
  intros [Hs He]. unfold scanStep. rewrite Hs, He. simpl.
  by rewrite bool_decide_eq_true_2.
Qed.

(** The scan of [start, mids.., end]: one segment, stamped by the end. *)
Lemma scan_closed_path project start mids finish all :
  Waypoint.isStart start = true → Waypoint.isEnd start = false →
  Forall midpoint mids →
  Waypoint.isStart finish = false → Waypoint.isEnd finish = true →
  let ws := start :: mids ++ [finish] in
  scanFrom project (length ws) 0 ws ([], all) =
    ([], all ++ [mkSegment project ws (Waypoint.timestamp finish)]).
Proof.
  intros Hs He Hmid Hfs Hfe ws. subst ws. simpl.
  rewrite scanStep_start by done.
  rewrite bool_decide_eq_false_2 by (rewrite length_app; simpl; lia).
  rewrite scanFrom_app.
  rewrite (scanFrom_mids _ _ mids 1 start [] all) by (done || (rewrite length_app; simpl; lia)).
  simpl. by rewrite scanStep_end.
Qed.

(** C4: when the employee's waypoints in a project are one closed path
    [start, m1, m2, end] (a start, two midpoints, an end), the scan emits
    exactly one segment for the project; it holds the four waypoints in
    their order, is closed, and carries the end waypoint's timestamp as sort
    key and that timestamp's UTC day as date. *)
Theorem closed_path_round_trip (empId : string) (project : PopulatedProject)
    (start m1 m2 finish : PopulatedWaypoint) :
  employeeWaypoints empId project = [start; m1; m2; finish] →
  Waypoint.isStart start = true → Waypoint.isEnd start = false →
  midpoint m1 → midpoint m2 →
  Waypoint.isStart finish = false → Waypoint.isEnd finish = true →
  ∃ s, scanProject empId [] project = [s] ∧
       extractSegments empId [project] = [s] ∧
       Segment.segment s = [start; m1; m2; finish] ∧
       closedSegment s ∧
       Segment.projectId s = Project.projectId project ∧
       Segment.date s = isoDate (Waypoint.timestamp finish) ∧
       Segment.timestamp s = Waypoint.timestamp finish.
Proof.
  intros Hws Hs He H1 H2 Hfs Hfe.
  exists (mkSegment project [start; m1; m2; finish] (Waypoint.timestamp finish)).
  assert (Hscan : scanProject empId [] project =
    [mkSegment project [start; m1; m2; finish] (Waypoint.timestamp finish)]).
  { unfold scanProject. rewrite Hws.
    pose proof (scan_closed_path project start [m1; m2] finish [] Hs He) as Hc.
    simpl in Hc |- *. rewrite Hc; [done | | done | done].
    constructor; [exact H1|]. constructor; [exact H2|]. constructor. }
  split; [exact Hscan|]. split; [exact Hscan|].
  split; [reflexivity|]. split; [by exists finish|]. done.
Qed.

Lemma closed_path_round_trip_witness :
  let start := populated (startBy ann 1700000000000%Z 100%N) in
  let m1 := populated (midBy ann 1700000120000%Z 102%N) in
  let m2 := populated (midBy ann 1700000240000%Z 104%N) in
  let finish := populated (endBy ann 1700010000000%Z 105%N) in
  employeeWaypoints "EMP005" samplePopulated = [start; m1; m2; finish] ∧
  ∃ s, scanProject "EMP005" [] samplePopulated = [s] ∧
       extractSegments "EMP005" [samplePopulated] = [s] ∧
       Segment.segment s = [start; m1; m2; finish] ∧
       closedSegment s ∧
       Segment.projectId s = "Project_1" ∧
       Segment.date s = isoDate 1700010000000%Z ∧
       Segment.timestamp s = 1700010000000%Z.
Proof.
  assert (Hws : employeeWaypoints "EMP005" samplePopulated =
    [populated (startBy ann 1700000000000%Z 100%N);
     populated (midBy ann 1700000120000%Z 102%N);
     populated (midBy ann 1700000240000%Z 104%N);
     populated (endBy ann 1700010000000%Z 105%N)])
    by (vm_compute; reflexivity).
  split; [exact Hws|].
  exact (closed_path_round_trip "EMP005" samplePopulated _ _ _ _ Hws
           eq_refl eq_refl (conj eq_refl eq_refl) (conj eq_refl eq_refl)
           eq_refl eq_refl).
Defined.

(** Before the last waypoint, the scan emits closed segments only. *)
Lemma scanStep_not_last project len idx w cur all :
  idx ≠ (len - 1)%nat →
  ∃ cur' new, scanStep project len idx w (cur, all) = (cur', all ++ new) ∧
              Forall closedSegment new.
Proof.
  intros Hidx. unfold scanStep.
  rewrite (bool_decide_eq_false_2 _ Hidx).
  set (cur1 := if Waypoint.isStart w then [w]
               else if nonEmpty cur then cur ++ [w] else cur).
  assert (Hlast : nonEmpty cur1 = true → last cur1 = Some w).
  { subst cur1. destruct (Waypoint.isStart w); [done|].
    destruct (nonEmpty cur) eqn:Hc; [intros _; apply last_snoc | congruence]. }
  destruct (Waypoint.isEnd w) eqn:He; simpl.
  - destruct (nonEmpty cur1) eqn:Hc1.
    + eexists [], [_]. split; [reflexivity|].
      constructor; [|constructor]. exists w. split; [by apply Hlast | done].
    + exists cur1, []. rewrite app_nil_r. split; [by destruct cur1 | constructor].
  - exists cur1, []. rewrite app_nil_r. split; [by destruct cur1 | constructor].
Qed.

Lemma scanFrom_not_last project len ws : ∀ idx cur all,
  (idx + length ws < len)%nat →
  ∃ cur' new, scanFrom project len idx ws (cur, all) = (cur', all ++ new) ∧
              Forall closedSegment new.
Proof.
  induction ws as [|w ws IH]; intros idx cur all Hlen; simpl.
  - exists cur, []. by rewrite app_nil_r.
  - simpl in Hlen.
    destruct (scanStep_not_last project len idx w cur all) as (cur1 & new1 & -> & H1);
      [lia|].
    destruct (IH (S idx) cur1 (all ++ new1)) as (cur2 & new2 & -> & H2); [lia|].
    exists cur2, (new1 ++ new2). rewrite app_assoc. split; [done|].
    by apply Forall_app.
Qed.

(** The scan of a stream that ends with [start, mids..] and no end. *)
Lemma scan_open_tail project len idx start mids cur all :
  Waypoint.isStart start = true → Waypoint.isEnd start = false →
  Forall midpoint mids →
  len = (idx + S (length mids))%nat →
  scanFrom project len idx (start :: mids) (cur, all) =
    ([], all ++ [mkSegment project (start :: mids) (Waypoint.timestamp start)]).
Proof.
  intros Hs He Hmid Hlen. simpl. rewrite scanStep_start by done.
  destruct mids as [|m mids _] using rev_ind.
  - simpl. rewrite bool_decide_eq_true_2; [done | simpl in Hlen; lia].
  - rewrite length_app in Hlen. simpl in Hlen.
    rewrite bool_decide_eq_false_2 by lia.
    apply Forall_app in Hmid as [Hmids Hm]. rewrite Forall_singleton in Hm.
    rewrite scanFrom_app.
    rewrite (scanFrom_mids _ _ mids (S idx) start [] all) by (done || lia).
    simpl.
    replace (S (idx + length mids)) with (len - 1)%nat by lia.
    by rewrite scanStep_mid_last.
Qed.

(** C8: when the employee's waypoints in a project end with an unterminated
    path (a start that is not an end, then midpoints only), the scan emits
    for the project the closed segments found before that path and then
    exactly one more segment, which is open: it holds the start and the
    midpoints, and its sort key is the start waypoint's timestamp and its
    date that timestamp's UTC day. *)
Theorem open_tail_one_open_segment (empId : string) (project : PopulatedProject)
    (earlier : list PopulatedWaypoint) (start : PopulatedWaypoint)
    (mids : list PopulatedWaypoint) (allSegments : list Segment.t) :
  employeeWaypoints empId project = earlier ++ start :: mids →
  Waypoint.isStart start = true → Waypoint.isEnd start = false →
  Forall midpoint mids →
  ∃ closed s,
    scanProject empId allSegments project = allSegments ++ closed ++ [s] ∧
    Forall closedSegment closed ∧
    openSegment s ∧
    Segment.segment s = start :: mids ∧
    Segment.date s = isoDate (Waypoint.timestamp start) ∧
    Segment.timestamp s = Waypoint.timestamp start.
Proof.
  intros Hws Hs He Hmid. unfold scanProject.
  rewrite Hws, scanFrom_app, length_app. cbn [length Nat.add].
  destruct (scanFrom_not_last project (length earlier + S (length mids))
              earlier 0 [] allSegments) as (cur & closed & -> & Hclosed); [lia|].
  rewrite (scan_open_tail _ _ _ start mids) by done.
  exists closed, (mkSegment project (start :: mids) (Waypoint.timestamp start)).
  simpl. split; [by rewrite app_assoc|]. split; [done|].
  split; [|done].
  unfold openSegment. simpl.
  destruct mids as [|m mids _] using rev_ind.
  - exists start. done.
  - exists m. rewrite app_comm_cons, last_snoc.
    apply Forall_app in Hmid as [_ Hm]. inversion Hm as [|? ? [_ Hme] _]; subst.
    done.
Qed.

Lemma open_tail_one_open_segment_witness :
  let start := populated (startBy bob 1700000060000%Z 101%N) in
  let mid := populated (midBy bob 1700000180000%Z 103%N) in
  employeeWaypoints "EMP007" samplePopulated = [] ++ start :: [mid] ∧
  ∃ closed s,
    scanProject "EMP007" [] samplePopulated = [] ++ closed ++ [s] ∧
    Forall closedSegment closed ∧
    openSegment s ∧
    Segment.segment s = start :: [mid] ∧
    Segment.date s = isoDate 1700000060000%Z ∧
    Segment.timestamp s = 1700000060000%Z.
Proof.
  assert (Hws : employeeWaypoints "EMP007" samplePopulated =
    [] ++ populated (startBy bob 1700000060000%Z 101%N)
       :: [populated (midBy bob 1700000180000%Z 103%N)])
    by (vm_compute; reflexivity).
  assert (Hmid : Forall midpoint [populated (midBy bob 1700000180000%Z 103%N)])
    by (constructor; [split; reflexivity | constructor]).
  split; [exact Hws|].
  exact (open_tail_one_open_segment "EMP007" samplePopulated [] _ _ [] Hws
           eq_refl eq_refl Hmid).
Defined.

(** ** One employee's report does not depend on the others *)

Lemma employeeWaypoints_remove empId other (p : PopulatedProject) :
  other ≠ empId →
  employeeWaypoints empId (removeEmployee other p) = employeeWaypoints empId p.
Proof.
  intros Hne. unfold employeeWaypoints, removeEmployee. simpl.
  induction (Project.waypoints p) as [|path paths IH]; [reflexivity|].
  simpl. rewrite !filter_app, IH. f_equal.
  clear IH. induction path as [|w path IH]; [reflexivity|].
  destruct (decide (createdByEmp other w)) as [Ho|Ho].
  - rewrite (filter_cons_False (λ w, ¬ createdByEmp other w)) by (intros H; by apply H).
    rewrite IH. rewrite filter_cons_False; [done|].
    unfold createdByEmp in Ho. rewrite Ho. intros [= ->]. done.
  - rewrite (filter_cons_True (λ w, ¬ createdByEmp other w)) by done.
    destruct (decide (User.empId <$> Waypoint.createdBy w = Some empId)).
    + rewrite !filter_cons_True by done. by rewrite IH.
    + rewrite !filter_cons_False by done. exact IH.
Qed.

(** The scan reads the project only for the segment's header. *)
Lemma scanFrom_header (p1 p2 : PopulatedProject) len ws :
  (∀ cur stamp, mkSegment p1 cur stamp = mkSegment p2 cur stamp) →
  ∀ idx st, scanFrom p1 len idx ws st = scanFrom p2 len idx ws st.
Proof.
  intros Hmk. induction ws as [|w ws IH]; intros idx st; [reflexivity|].
  simpl. rewrite IH. f_equal.
  unfold scanStep. destruct st as [cur all].
  set (cur1 := if Waypoint.isStart w then [w]
               else if nonEmpty cur then cur ++ [w] else cur).
  destruct (Waypoint.isEnd w && nonEmpty cur1); [by rewrite Hmk|].
  destruct cur1 as [|first cur1]; [done|].
  destruct (bool_decide (idx = len - 1)%nat); [by rewrite Hmk | done].
Qed.

Lemma scanProject_remove empId other all (p : PopulatedProject) :
  other ≠ empId →
  scanProject empId all (removeEmployee other p) = scanProject empId all p.
Proof.
  intros Hne. unfold scanProject. rewrite employeeWaypoints_remove by done.
  f_equal. by apply scanFrom_header.
Qed.

Lemma extractSegments_remove empId other projects :
  other ≠ empId →
  extractSegments empId (map (removeEmployee other) projects) =
  extractSegments empId projects.
Proof.
  intros Hne. unfold extractSegments. generalize (@nil Segment.t).
  induction projects as [|p projects IH]; intros all; [reflexivity|].
  simpl. rewrite scanProject_remove by done. apply IH.
Qed.

Lemma segmentsOf_snoc (P : PopulatedWaypoint → Prop) project all cur stamp :
  segmentsOf P all → Forall P cur →
  segmentsOf P (all ++ [mkSegment project cur stamp]).
Proof.
  intros Hall Hcur. apply Forall_app. split; [done|].
  by apply Forall_singleton.
Qed.

(** What the scan emits is made of the waypoints it was given. *)
Lemma scanStep_segmentsOf (P : PopulatedWaypoint → Prop) project len idx w cur all :
  P w → Forall P cur → segmentsOf P all →
  Forall P (fst (scanStep project len idx w (cur, all))) ∧
  segmentsOf P (snd (scanStep project len idx w (cur, all))).
Proof.
  intros Hw Hcur Hall. unfold scanStep.
  set (cur1 := if Waypoint.isStart w then [w]
               else if nonEmpty cur then cur ++ [w] else cur).
  assert (H1 : Forall P cur1).
  { subst cur1. destruct (Waypoint.isStart w); [by apply Forall_singleton|].
    destruct (nonEmpty cur); [|done].
    apply Forall_app. split; [done | by apply Forall_singleton]. }
  destruct (Waypoint.isEnd w && nonEmpty cur1).
  - simpl. split; [constructor | by apply segmentsOf_snoc].
  - destruct cur1 as [|first cur1]; [by split|].
    destruct (bool_decide (idx = len - 1)%nat); simpl; [|by split].
    split; [constructor | by apply segmentsOf_snoc].
Qed.

Lemma scanFrom_segmentsOf (P : PopulatedWaypoint → Prop) project len ws :
  Forall P ws → ∀ idx cur all,
  Forall P cur → segmentsOf P all →
  segmentsOf P (snd (scanFrom project len idx ws (cur, all))).
Proof.
  induction 1 as [|w ws Hw Hws IH]; intros idx cur all Hcur Hall; [done|].
  simpl.
  destruct (scanStep_segmentsOf P project len idx w cur all Hw Hcur Hall) as [H1 H2].
  destruct (scanStep project len idx w (cur, all)) as [cur1 all1].
  by apply IH.
Qed.

Lemma extractSegments_own empId projects :
  segmentsOf (createdByEmp empId) (extractSegments empId projects).
Proof.
  unfold extractSegments.
  assert (H : ∀ all, segmentsOf (createdByEmp empId) all →
    segmentsOf (createdByEmp empId) (foldl (scanProject empId) all projects)).
  { induction projects as [|p projects IH]; intros all Hall; [done|].
    simpl. apply IH. unfold scanProject.
    apply scanFrom_segmentsOf; [|constructor|done].
    unfold employeeWaypoints. apply Forall_forall. intros w Hw.
    by apply list_elem_of_filter in Hw as [Hw _]. }
  apply H. constructor.
Qed.

(** ** Sorting *)

Lemma sortInsert_Permutation {A} (cmp : A → A → Z) x l :
  sortInsert cmp x l ≡ₚ x :: l.
Proof.
  induction l as [|y l IH]; [reflexivity|].
  simpl. destruct (bool_decide (cmp x y ≤ 0)%Z); [reflexivity|].
  rewrite IH. apply Permutation_swap.
Qed.

Lemma arraySort_Permutation {A} (cmp : A → A → Z) l : arraySort cmp l ≡ₚ l.
Proof.
  induction l as [|x l IH]; [reflexivity|].
  simpl. rewrite sortInsert_Permutation. by rewrite IH.
Qed.

Section descending.
Context {A : Type} (key : A → Z).

(** The comparator [(a, b) => key(b) - key(a)] and the order it sorts to. *)
Let cmp (a b : A) : Z := (key b - key a)%Z.
Let notBelow (a b : A) : Prop := (key b ≤ key a)%Z.

Lemma sortInsert_descending x l :
  StronglySorted notBelow l → StronglySorted notBelow (sortInsert cmp x l).
Proof.
  induction 1 as [|y l Hl IH Hy]; simpl; [by repeat constructor|].
  destruct (bool_decide (cmp x y ≤ 0)%Z) eqn:Hc.
  - apply bool_decide_eq_true in Hc. unfold cmp in Hc.
    constructor; [by constructor|].
    constructor; [unfold notBelow; lia|].
    eapply Forall_impl; [exact Hy|]. unfold notBelow. intros z Hz. lia.
  - apply bool_decide_eq_false in Hc. unfold cmp in Hc.
    constructor; [exact IH|].
    rewrite sortInsert_Permutation.
    constructor; [unfold notBelow; lia | exact Hy].
Qed.

Lemma arraySort_descending l : StronglySorted notBelow (arraySort cmp l).
Proof.
  induction l as [|x l IH]; simpl; [constructor|].
  by apply sortInsert_descending.
Qed.
End descending.

Lemma StronglySorted_weaken {A} (R S : relation A) l :
  (∀ a b, R a b → S a b) → StronglySorted R l → StronglySorted S l.
Proof.
  intros HRS. induction 1 as [|x l Hl IH Hx]; constructor; [done|].
  eapply Forall_impl; [exact Hx|]. intros b. apply HRS.
Qed.

Lemma sorted_by_timestamp (segments : list Segment.t) :
  StronglySorted (λ a b, (Segment.timestamp b ≤ Segment.timestamp a)%Z)
                 (arraySort byTimestampDesc segments).
Proof. apply (arraySort_descending Segment.timestamp). Qed.

Lemma sorted_by_date (dates : list Date) :
  StronglySorted (λ a b : Date, (b ≤ a)%Z) (arraySort byDateDesc dates).
Proof.
  pose proof (arraySort_descending dateTime dates) as H.
  eapply StronglySorted_weaken; [|exact H].
  unfold dateTime, msPerDay. intros a b Hab. simpl in Hab. lia.
Qed.

(** A list without repetition that is sorted downwards is strictly so. *)
Lemma descending_NoDup (dates : list Z) :
  NoDup dates → StronglySorted (λ a b, (b ≤ a)%Z) dates →
  StronglySorted (λ a b, (a > b)%Z) dates.
Proof.
  intros Hnd Hs. induction Hs as [|d dates Hs IH Hd]; [constructor|].
  apply NoDup_cons in Hnd as [Hnin Hnd].
  constructor; [by apply IH|].
  apply Forall_forall. intros b Hb.
  rewrite Forall_forall in Hd. specialize (Hd b Hb).
  assert (b ≠ d) by (intros ->; done). lia.
Qed.

(** ** Grouping by day *)

Lemma groupOf_pushToGroup d s groups :
  groupOf d (pushToGroup s groups) =
  if bool_decide (d = Segment.date s) then groupOf d groups ++ [s]
  else groupOf d groups.
Proof.
  induction groups as [|[k g] groups IH]; simpl.
  - destruct (bool_decide (d = Segment.date s)) eqn:Hd.
    + apply bool_decide_eq_true in Hd. by rewrite bool_decide_eq_true_2.
    + apply bool_decide_eq_false in Hd. by rewrite bool_decide_eq_false_2.
  - destruct (bool_decide (k = Segment.date s)) eqn:Hk; simpl.
    + apply bool_decide_eq_true in Hk. subst k.
      destruct (bool_decide (d = Segment.date s)) eqn:Hd.
      * apply bool_decide_eq_true in Hd. by rewrite bool_decide_eq_true_2.
      * apply bool_decide_eq_false in Hd. by rewrite bool_decide_eq_false_2.
    + apply bool_decide_eq_false in Hk.
      destruct (bool_decide (k = d)) eqn:Hkd; [|exact IH].
      apply bool_decide_eq_true in Hkd. subst k.
      by rewrite bool_decide_eq_false_2.
Qed.

Lemma groupByDate_snoc l s :
  groupByDate (l ++ [s]) = pushToGroup s (groupByDate l).
Proof. unfold groupByDate. by rewrite foldl_app. Qed.

(** The group of a day holds the segments of that day, in their order. *)
Lemma groupOf_groupByDate d l :
  groupOf d (groupByDate l) = filter (λ s, Segment.date s = d) l.
Proof.
  induction l as [|s l IH] using rev_ind; [reflexivity|].
  rewrite groupByDate_snoc, groupOf_pushToGroup, IH, filter_app.
  destruct (bool_decide (d = Segment.date s)) eqn:Hd.
  - apply bool_decide_eq_true in Hd. by rewrite (filter_cons_True _ s []).
  - apply bool_decide_eq_false in Hd.
    rewrite (filter_cons_False _ s []) by done. by rewrite app_nil_r.
Qed.

Lemma keys_pushToGroup s groups :
  map fst (pushToGroup s groups) =
  if bool_decide (Segment.date s ∈ map fst groups) then map fst groups
  else map fst groups ++ [Segment.date s].
Proof.
  induction groups as [|[k g] groups IH]; simpl.
  - reflexivity.
  - destruct (bool_decide (k = Segment.date s)) eqn:Hk; simpl.
    + apply bool_decide_eq_true in Hk. subst k.
      rewrite bool_decide_eq_true_2; [done | by left].
    + apply bool_decide_eq_false in Hk. rewrite IH.
      destruct (bool_decide (Segment.date s ∈ map fst groups)) eqn:Hin.
      * apply bool_decide_eq_true in Hin.
        rewrite bool_decide_eq_true_2; [done | by right].
      * apply bool_decide_eq_false in Hin.
        rewrite bool_decide_eq_false_2; [done|].
        intros [?|?]%elem_of_cons; congruence.
Qed.

(** The days that have a group are those of the segments, each once. *)
Lemma keys_groupByDate l :
  NoDup (map fst (groupByDate l)) ∧
  ∀ d, d ∈ map fst (groupByDate l) ↔ ∃ s, s ∈ l ∧ Segment.date s = d.
Proof.
  induction l as [|s l [IHnd IHin]] using rev_ind.
  - split; [constructor|]. intros d. split.
    + by intros ?%elem_of_nil.
    + by intros (s & ?%elem_of_nil & _).
  - rewrite groupByDate_snoc, keys_pushToGroup.
    destruct (bool_decide (Segment.date s ∈ map fst (groupByDate l))) eqn:Hin.
    + apply bool_decide_eq_true in Hin. split; [done|].
      intros d. rewrite IHin. split.
      * intros (x & Hx & Hd). exists x. split; [|done].
        apply elem_of_app. by left.
      * intros (x & Hx & Hd). apply elem_of_app in Hx as [Hx|Hx]; [eauto|].
        apply list_elem_of_singleton in Hx as ->. subst d. by apply IHin.
    + apply bool_decide_eq_false in Hin. split.
      * apply NoDup_app. split; [done|]. split; [|apply NoDup_singleton].
        intros d Hd ->%list_elem_of_singleton. done.
      * intros d. rewrite elem_of_app, IHin, list_elem_of_singleton. split.
        -- intros [(x & Hx & Hd) | ->].
           ++ exists x. split; [|done]. apply elem_of_app. by left.
           ++ exists s. split; [|done]. apply elem_of_app. right.
              by apply list_elem_of_singleton.
        -- intros (x & Hx & Hd). apply elem_of_app in Hx as [Hx|Hx]; [eauto|].
           apply list_elem_of_singleton in Hx as ->. by right.
Qed.

(** The days in the order of the output: strictly descending. *)
Lemma sortedDates_descending l :
  StronglySorted (λ a b : Date, (a > b)%Z) (sortedDates (groupByDate l)).
Proof.
  unfold sortedDates. apply descending_NoDup; [|apply sorted_by_date].
  rewrite arraySort_Permutation. apply keys_groupByDate.
Qed.

Lemma sortedDates_elem l d :
  d ∈ sortedDates (groupByDate l) ↔ ∃ s, s ∈ l ∧ Segment.date s = d.
Proof.
  unfold sortedDates. rewrite arraySort_Permutation. apply keys_groupByDate.
Qed.

(** ** Grouping by project *)

Lemma pushToProject_keys s projectsMap :
  Forall (λ ke, Entry.projectId ke.2 = ke.1) projectsMap →
  Forall (λ ke, Entry.projectId ke.2 = ke.1) (pushToProject s projectsMap).
Proof.
  induction 1 as [|[k e] rest Hke Hrest IH]; simpl.
  - by apply Forall_singleton.
  - destruct (bool_decide (k = Segment.projectId s)); constructor; done.
Qed.

Lemma pushToProject_new s projectsMap :
  ∃ e, (Segment.projectId s, e) ∈ pushToProject s projectsMap ∧
       map display (Segment.segment s) ∈ Entry.waypoints e.
Proof.
  induction projectsMap as [|[k e] rest (e' & Hin & Hshown)]; simpl.
  - eexists. split; [by left|]. simpl. by left.
  - destruct (bool_decide (k = Segment.projectId s)) eqn:Hk.
    + apply bool_decide_eq_true in Hk. subst k.
      eexists. split; [by left|]. simpl.
      apply elem_of_app. right. by left.
    + exists e'. split; [by right | done].
Qed.

Lemma pushToProject_old s projectsMap k e x :
  (k, e) ∈ projectsMap → x ∈ Entry.waypoints e →
  ∃ e', (k, e') ∈ pushToProject s projectsMap ∧ x ∈ Entry.waypoints e'.
Proof.
  intros Hin Hx. induction projectsMap as [|[k0 e0] rest IH]; simpl.
  - by apply elem_of_nil in Hin.
  - apply elem_of_cons in Hin as [[= <- <-]|Hin].
    + destruct (bool_decide (k = Segment.projectId s)).
      * eexists. split; [by left|]. simpl. apply elem_of_app. by left.
      * exists e. split; [by left | done].
    + destruct (IH Hin) as (e' & Hin' & Hx').
      destruct (bool_decide (k0 = Segment.projectId s)).
      * exists e. split; [by right | done].
      * exists e'. split; [by right | done].
Qed.

Lemma pushToProject_entriesOf (Q : Display.t → Prop) s projectsMap :
  Forall Q (map display (Segment.segment s)) →
  entriesOf Q (map snd projectsMap) →
  entriesOf Q (map snd (pushToProject s projectsMap)).
Proof.
  intros Hs. unfold entriesOf.
  induction projectsMap as [|[k e] rest IH]; simpl; intros Hm.
  - apply Forall_singleton. simpl. by apply Forall_singleton.
  - apply Forall_cons in Hm as [He Hrest].
    destruct (bool_decide (k = Segment.projectId s)); simpl.
    + constructor; [|done]. simpl. apply Forall_app. split; [done|].
      by apply Forall_singleton.
    + constructor; [done | by apply IH].
Qed.

Lemma projectsMapOf_snoc group s :
  projectsMapOf (group ++ [s]) = pushToProject s (projectsMapOf group).
Proof. unfold projectsMapOf. by rewrite foldl_app. Qed.

Lemma projectsMapOf_keys group :
  Forall (λ ke, Entry.projectId ke.2 = ke.1) (projectsMapOf group).
Proof.
  induction group as [|s group IH] using rev_ind; [constructor|].
  rewrite projectsMapOf_snoc. by apply pushToProject_keys.
Qed.

Lemma projectsMapOf_shown group s :
  s ∈ group →
  ∃ e, (Segment.projectId s, e) ∈ projectsMapOf group ∧
       map display (Segment.segment s) ∈ Entry.waypoints e.
Proof.
  induction group as [|s' group IH] using rev_ind; [by intros ?%elem_of_nil|].
  rewrite projectsMapOf_snoc. intros [Hin|Hin]%elem_of_app.
  - destruct (IH Hin) as (e & He & Hx). by eapply pushToProject_old.
  - apply list_elem_of_singleton in Hin as ->. apply pushToProject_new.
Qed.

(** Every segment of a day's group is shown in an entry of its project. *)
Lemma entriesOfGroup_shown group s :
  s ∈ group → shownIn s (entriesOfGroup group).
Proof.
  intros Hin. destruct (projectsMapOf_shown group s Hin) as (e & He & Hx).
  exists e. split; [|split; [|done]].
  - unfold entriesOfGroup.
    apply list_elem_of_fmap. exists (Segment.projectId s, e). done.
  - pose proof (projectsMapOf_keys group) as Hk.
    rewrite Forall_forall in Hk. exact (Hk _ He).
Qed.

Lemma entriesOfGroup_entriesOf (Q : Display.t → Prop) group :
  Forall (λ s, Forall Q (map display (Segment.segment s))) group →
  entriesOf Q (entriesOfGroup group).
Proof.
  unfold entriesOfGroup.
  induction group as [|s group IH] using rev_ind; intros Hg; [constructor|].
  apply Forall_app in Hg as [Hg Hs]. rewrite Forall_singleton in Hs.
  rewrite projectsMapOf_snoc. apply pushToProject_entriesOf; [done|].
  by apply IH.
Qed.

(** ** The report *)

Lemma display_createdBy empId (w : PopulatedWaypoint) :
  createdByEmp empId w → shownCreatedBy empId (display w).
Proof.
  unfold createdByEmp, shownCreatedBy. simpl.
  by destruct (Waypoint.createdBy w).
Qed.

(** The result, day by day. *)
Lemma buildResult_by_day allSegments :
  buildResult allSegments =
  concat (map (λ d, entriesOfGroup
                      (filter (λ s, Segment.date s = d)
                              (arraySort byTimestampDesc allSegments)))
              (sortedDates (dateGroupsOf allSegments))).
Proof.
  unfold buildResult, dateGroupsOf. f_equal.
  apply map_ext. intros d. by rewrite groupOf_groupByDate.
Qed.

Lemma buildResult_entriesOf (P : PopulatedWaypoint → Prop) (Q : Display.t → Prop)
    allSegments :
  (∀ w, P w → Q (display w)) →
  segmentsOf P allSegments → entriesOf Q (buildResult allSegments).
Proof.
  intros HPQ Hall. rewrite buildResult_by_day. unfold entriesOf.
  apply Forall_concat, Forall_forall. intros entries Hin.
  apply list_elem_of_fmap in Hin as (d & -> & _).
  apply entriesOfGroup_entriesOf, Forall_forall. intros s Hs.
  apply list_elem_of_filter in Hs as [_ Hs].
  rewrite arraySort_Permutation in Hs.
  unfold segmentsOf in Hall. rewrite Forall_forall in Hall.
  apply Forall_fmap. eapply Forall_impl; [exact (Hall s Hs)|].
  intros w. apply HPQ.
Qed.

(** C9: the report for one employee shows only waypoints created by that
    employee, and it is the same report when the waypoints of another
    employee are taken out of every path of every project, however the two
    employees' waypoints lie in the arrays. *)
Theorem report_ignores_other_employee (empId other : string)
    (projects : list PopulatedProject) :
  other ≠ empId →
  reconstruct empId (map (removeEmployee other) projects) =
    reconstruct empId projects ∧
  entriesOf (shownCreatedBy empId) (reconstruct empId projects) ∧
  Forall (λ p, employeeWaypoints other p = [])
         (map (removeEmployee other) projects).
Proof.
  intros Hne. split; [|split].
  - unfold reconstruct. by rewrite extractSegments_remove.
  - unfold reconstruct.
    apply (buildResult_entriesOf (createdByEmp empId));
      [apply display_createdBy | apply extractSegments_own].
  - apply Forall_fmap, Forall_forall. intros p _. simpl.
    unfold employeeWaypoints, removeEmployee. simpl.
    induction (Project.waypoints p) as [|path paths IH]; [reflexivity|].
    simpl. rewrite filter_app, IH, app_nil_r.
    clear IH. induction path as [|w path IH]; [reflexivity|].
    destruct (decide (createdByEmp other w)) as [Ho|Ho].
    + by rewrite (filter_cons_False (λ w, ¬ createdByEmp other w))
        by (intros H; by apply H).
    + rewrite (filter_cons_True (λ w, ¬ createdByEmp other w)) by done.
      by rewrite filter_cons_False.
Qed.

Lemma report_ignores_other_employee_witness :
  "EMP007" ≠ "EMP005" ∧
  reconstruct "EMP005" (map (removeEmployee "EMP007") [samplePopulated]) =
    reconstruct "EMP005" [samplePopulated] ∧
  entriesOf (shownCreatedBy "EMP005") (reconstruct "EMP005" [samplePopulated]) ∧
  Forall (λ p, employeeWaypoints "EMP007" p = [])
         (map (removeEmployee "EMP007") [samplePopulated]).
Proof.
  assert (Hne : "EMP007" ≠ "EMP005") by discriminate.
  split; [exact Hne|].
  exact (report_ignores_other_employee "EMP005" "EMP007" [samplePopulated] Hne).
Defined.

Lemma shownIn_app_l s r1 r2 : shownIn s r1 → shownIn s (r1 ++ r2).
Proof.
  intros (e & He & H). exists e. split; [|done]. apply elem_of_app. by left.
Qed.

Lemma shownIn_app_r s r1 r2 : shownIn s r2 → shownIn s (r1 ++ r2).
Proof.
  intros (e & He & H). exists e. split; [|done]. apply elem_of_app. by right.
Qed.

Lemma shownIn_day allSegments s days :
  s ∈ allSegments → Segment.date s ∈ days →
  shownIn s (concat (map (λ d, entriesOfGroup
                                 (filter (λ s, Segment.date s = d)
                                         (arraySort byTimestampDesc allSegments)))
                         days)).
Proof.
  intros Hs Hd. apply list_elem_of_split in Hd as (l1 & l2 & ->).
  rewrite map_app, concat_app. apply shownIn_app_r.
  simpl. apply shownIn_app_l. apply entriesOfGroup_shown.
  apply list_elem_of_filter. split; [done|].
  by rewrite arraySort_Permutation.
Qed.

(** C7: the segments of all projects are sorted by their sort key,
    descending (a permutation of what was extracted); the days of the
    output are strictly descending; the output is the entries of the first
    day, then those of the next, each day's group holding the segments of
    that day; so of two segments on different days, the one of the later
    day is shown in an earlier part of the output. *)
Theorem report_order (empId : string) (projects : list PopulatedProject) :
  let allSegments := extractSegments empId projects in
  let sorted := arraySort byTimestampDesc allSegments in
  let days := sortedDates (groupByDate sorted) in
  sorted ≡ₚ allSegments ∧
  StronglySorted (λ a b, (Segment.timestamp a >= Segment.timestamp b)%Z) sorted ∧
  StronglySorted (λ a b : Date, (a > b)%Z) days ∧
  (∀ d, d ∈ days ↔ ∃ s, s ∈ allSegments ∧ Segment.date s = d) ∧
  (∀ d, groupOf d (groupByDate sorted) = filter (λ s, Segment.date s = d) sorted) ∧
  reconstruct empId projects =
    concat (map (λ d, entriesOfGroup (groupOf d (groupByDate sorted))) days) ∧
  (∀ s1 s2, s1 ∈ allSegments → s2 ∈ allSegments →
     (Segment.date s1 > Segment.date s2)%Z →
     ∃ r1 r2, reconstruct empId projects = r1 ++ r2 ∧
              shownIn s1 r1 ∧ shownIn s2 r2).
Proof.
  intros allSegments sorted days.
  assert (Hdays : ∀ d, d ∈ days ↔ ∃ s, s ∈ allSegments ∧ Segment.date s = d).
  { intros d. subst days. rewrite sortedDates_elem. subst sorted.
    split; intros (s & Hs & Hd); exists s; split; try done.
    - by rewrite arraySort_Permutation in Hs.
    - by rewrite arraySort_Permutation. }
  assert (Hsorted : StronglySorted (λ a b : Date, (a > b)%Z) days)
    by apply sortedDates_descending.
  split; [apply arraySort_Permutation|].
  split.
  { eapply StronglySorted_weaken; [|apply sorted_by_timestamp].
    intros a b Hab. simpl in Hab. lia. }
  split; [exact Hsorted|]. split; [exact Hdays|].
  split; [intros d; apply groupOf_groupByDate|].
  split; [reflexivity|].
  intros s1 s2 Hs1 Hs2 Hlater.
  unfold reconstruct. fold allSegments. rewrite buildResult_by_day.
  fold sorted. unfold dateGroupsOf. fold sorted. fold days.
  assert (Hd1 : Segment.date s1 ∈ days) by (apply Hdays; eauto).
  assert (Hd2 : Segment.date s2 ∈ days) by (apply Hdays; eauto).
  apply list_elem_of_split in Hd1 as (l1 & l2 & Hsplit).
  assert (Hin2 : Segment.date s2 ∈ l2).
  { rewrite Hsplit in Hd2, Hsorted.
    apply StronglySorted_app in Hsorted as (Hcross & _ & Htail).
    apply elem_of_app in Hd2 as [Hd2|Hd2].
    - specialize (Hcross _ _ Hd2 (list_elem_of_here _ _)). lia.
    - apply elem_of_cons in Hd2 as [Hd2|Hd2]; [lia | done]. }
  rewrite Hsplit.
  change (l1 ++ Segment.date s1 :: l2) with (l1 ++ [Segment.date s1] ++ l2).
  rewrite app_assoc, map_app, concat_app.
  eexists _, _. split; [reflexivity|]. split.
  - apply shownIn_day; [done|]. apply elem_of_app. right. by left.
  - by apply shownIn_day.
Qed.

Lemma report_order_witness :
  laterSegment ∈ extractSegments "EMP005" [samplePopulated2] ∧
  earlierSegment ∈ extractSegments "EMP005" [samplePopulated2] ∧
  (Segment.date laterSegment > Segment.date earlierSegment)%Z ∧
  ∃ r1 r2, reconstruct "EMP005" [samplePopulated2] = r1 ++ r2 ∧
           shownIn laterSegment r1 ∧ shownIn earlierSegment r2.
Proof.
  assert (Hall : extractSegments "EMP005" [samplePopulated2] =
                 [earlierSegment; laterSegment]) by (vm_compute; reflexivity).
  assert (H1 : laterSegment ∈ extractSegments "EMP005" [samplePopulated2])
    by (rewrite Hall; right; left).
  assert (H2 : earlierSegment ∈ extractSegments "EMP005" [samplePopulated2])
    by (rewrite Hall; left).
  assert (Hd : (Segment.date laterSegment > Segment.date earlierSegment)%Z)
    by (vm_compute; reflexivity).
  split; [exact H1|]. split; [exact H2|]. split; [exact Hd|].
  destruct (report_order "EMP005" [samplePopulated2])
    as (_ & _ & _ & _ & _ & _ & Hpair).
  exact (Hpair laterSegment earlierSegment H1 H2 Hd).
Defined.

(** Scenario 4, run: the entry of the later day comes first. *)
Example later_day_first :
  map (λ entry, map (map Display._id) (Entry.waypoints entry))
      (reconstruct "EMP005" [samplePopulated2]) =
  [[[106%N; 107%N]]; [[100%N; 102%N; 104%N; 105%N]]].
Proof. vm_compute. reflexivity. Qed.

(** Scenario 3, run: Bob's report holds Bob's open path only. *)
Example bob_sees_own_waypoints :
  getAllWaypointsEmployee sampleUsers [sampleStored] "EMP007" =
  Ok200 "EMP007" "Bob"
    [Entry.mk "Project_1" "North" "Feeder-2" None
       [map display [populated (startBy bob 1700000060000%Z 101%N);
                     populated (midBy bob 1700000180000%Z 103%N)]]].
Proof. vm_compute. reflexivity. Qed.

(** * Further properties *)

(** ** What an accepted submission does to the project *)

Lemma buildWaypoint_owner req imageUrl pole gps :
  Waypoint.setPathOwner (Req.employeeId req) (buildWaypoint req imageUrl pole gps)
  = buildWaypoint req imageUrl pole gps.
Proof. reflexivity. Qed.

(** An answer other than 201 leaves the stored project as it was, whatever
    the reason: not assigned, bad fields, failed upload, path conflict, or
    an exception, be it thrown while reading the paths or by [save] when the
    new waypoint fails validation, after the loaded document was changed.
    A 201 changes the path array and nothing else of the project. *)
Theorem addWaypoint_touches_paths_only (req : Req.t) (p p' : StoredProject)
    (r : Response) :
  addWaypoint req p = (p', r) →
  (isCreated r = false → p' = p) ∧
  p' = Project.setWaypoints (Project.waypoints p') p ∧
  Project.employees p' = Project.employees p ∧
  Project.projectId p' = Project.projectId p.
Proof.
  intros Hrun. pose proof (addWaypoint_cases req p) as Hc. rewrite Hrun in Hc.
  destruct r as [m|m|m w|m]; try (subst p'; by destruct p).
  destruct Hc as (_ & _ & paths' & -> & _). done.
Qed.

Lemma addWaypoint_touches_paths_only_witness :
  let req := midNoDistance bob 1700010300000%Z 110%N in
  addWaypoint req sampleStored
    = (fst (addWaypoint req sampleStored), ServerError500 "Server error") ∧
  fst (addWaypoint req sampleStored) = sampleStored ∧
  ∃ m', addWaypointHandler req (mkMem sampleStored sampleStored)
          = (m', inr (ServerError500 "Server error")) ∧
        doc m' ≠ sampleStored ∧ db m' = sampleStored.
Proof.
  assert (Hrun : addWaypoint (midNoDistance bob 1700010300000%Z 110%N) sampleStored
    = (fst (addWaypoint (midNoDistance bob 1700010300000%Z 110%N) sampleStored),
       ServerError500 "Server error"))
    by (vm_compute; reflexivity).
  destruct (addWaypoint_touches_paths_only _ _ _ _ Hrun) as [Hsame _].
  split; [exact Hrun|]. split; [exact (Hsame eq_refl)|].
  eexists. split; [vm_compute; reflexivity|].
  split; [vm_compute; discriminate | vm_compute; reflexivity].
Defined.

(** The path array before and after an accepted step, waypoint by waypoint. *)
Lemma pathStep_append_only e w paths paths' :
  pathStep e w paths paths' →
  (∃ before after,
     concat paths = before ++ after ∧
     concat paths' = before ++ Waypoint.setPathOwner e w :: after ∨
     concat paths = before ++ after ∧ concat paths' = before ++ w :: after) ∧
  (length paths ≤ length paths' ≤ S (length paths))%nat ∧
  ∀ i path, paths !! i = Some path →
            ∃ path', paths' !! i = Some path' ∧ path `prefix_of` path'.
Proof.
  intros [ps Hs Hne Hinc | before path after Hs Hne Hown Hafter Hopen].
  - split; [|split].
    + exists (concat ps), []. left. rewrite app_nil_r. split; [done|].
      rewrite concat_app. simpl. done.
    + rewrite length_app. simpl. lia.
    + intros i path Hi. exists path. split; [|done].
      by apply lookup_app_l_Some.
  - split; [|split].
    + exists (concat before ++ path), (concat after). right.
      rewrite !concat_app. simpl. by rewrite <- !app_assoc.
    + rewrite !length_app. simpl. lia.
    + intros i p Hi.
      destruct (decide (i = length before)) as [->|Hne'].
      * rewrite list_lookup_middle in Hi by done. injection Hi as <-.
        exists (path ++ [w]). split; [by rewrite list_lookup_middle|].
        by apply prefix_app_r.
      * exists p. split; [|done].
        destruct (decide (i < length before)%nat) as [Hlt|Hge].
        -- rewrite lookup_app_l in Hi |- * by done. done.
        -- rewrite lookup_app_r in Hi |- * by lia.
           destruct (i - length before)%nat as [|k] eqn:Hk; [lia|]. done.
Qed.

(** An accepted submission is append-only: read path by path, the stored
    waypoints are those of before with the answered waypoint put in at one
    place; no path disappears, at most one is added, and every earlier path
    is a prefix of the path now at its position. *)
Theorem accepted_is_append_only (req : Req.t) (p p' : StoredProject)
    (message : string) (w : StoredWaypoint) :
  addWaypoint req p = (p', Created201 message w) →
  (∃ before after,
     concat (Project.waypoints p) = before ++ after ∧
     concat (Project.waypoints p') = before ++ w :: after) ∧
  (length (Project.waypoints p) ≤ length (Project.waypoints p')
     ≤ S (length (Project.waypoints p)))%nat ∧
  (∀ i path, Project.waypoints p !! i = Some path →
     ∃ path', Project.waypoints p' !! i = Some path' ∧ path `prefix_of` path') ∧
  Waypoint.createdBy w = Req.employeeId req ∧
  Waypoint.pathOwner w = Some (Req.employeeId req) ∧
  Waypoint.timestamp w = Req.now req.
Proof.
  intros Hrun.
  apply addWaypoint_accepted in Hrun
    as (_ & (imageUrl & pole & gps & ->) & paths' & -> & Hstep).
  destruct (pathStep_append_only _ _ _ _ Hstep) as (Hcat & Hlen & Hpre).
  simpl. split; [|done].
  destruct Hcat as (before & after & [[H1 H2] | [H1 H2]]);
    exists before, after; split; try done.
Qed.

Lemma accepted_is_append_only_witness :
  let req := midBy bob 1700010300000%Z 110%N in
  ∃ p' w,
    addWaypoint req sampleStored = (p', Created201 "Waypoint added successfully" w) ∧
    (∃ before after,
       concat (Project.waypoints sampleStored) = before ++ after ∧
       concat (Project.waypoints p') = before ++ w :: after) ∧
    (length (Project.waypoints sampleStored) ≤ length (Project.waypoints p')
       ≤ S (length (Project.waypoints sampleStored)))%nat ∧
    (∀ i path, Project.waypoints sampleStored !! i = Some path →
       ∃ path', Project.waypoints p' !! i = Some path' ∧ path `prefix_of` path') ∧
    Waypoint.createdBy w = bob ∧
    Waypoint.pathOwner w = Some bob ∧
    Waypoint.timestamp w = 1700010300000%Z.
Proof.
  eexists _, _.
  assert (Hrun : addWaypoint (midBy bob 1700010300000%Z 110%N) sampleStored =
    ((addWaypoint (midBy bob 1700010300000%Z 110%N) sampleStored).1,
     Created201 "Waypoint added successfully"
       (buildWaypoint (midBy bob 1700010300000%Z 110%N) None [] [])))
    by (vm_compute; reflexivity).
  split; [exact Hrun|].
  exact (accepted_is_append_only _ _ _ _ _ Hrun).
Defined.

Lemma reachableBy_startsWithStart ok (p : StoredProject) :
  reachableBy ok p → Forall startsWithStart (Project.waypoints p).
Proof.
  revert p. apply reachableBy_paths_ind; [constructor|].
  intros req imageUrl pole gps paths paths' _ HP Hstep.
  by eapply startsWithStart_step.
Qed.

Lemma reachableBy_pathsNonEmpty ok (p : StoredProject) :
  reachableBy ok p → pathsNonEmpty (Project.waypoints p).
Proof. intros Hr. by eapply startsWithStart_nonEmpty, reachableBy_startsWithStart. Qed.

(** ** Validation at [save] *)

Lemma validWaypoint_setPathOwner e (w : StoredWaypoint) :
  validWaypoint (Waypoint.setPathOwner e w) = validWaypoint w.
Proof. reflexivity. Qed.

(** After a step from valid waypoints, the array is valid exactly when the
    waypoint added is. *)
Lemma pathStep_valid e w paths paths' :
  pathStep e w paths paths' →
  validWaypoints paths = true →
  validWaypoints paths' = validWaypoint w.
Proof.
  unfold validWaypoints.
  intros [ps Hs Hne Hinc | before path after Hs Hne Hown Hafter Hopen] Hv.
  - rewrite forallb_app, Hv. simpl.
    rewrite validWaypoint_setPathOwner. by destruct (validWaypoint w).
  - rewrite forallb_app in Hv. simpl in Hv.
    apply andb_true_iff in Hv as [Hb Hv].
    apply andb_true_iff in Hv as [Hp Ha].
    rewrite forallb_app. simpl. rewrite Hb, Ha, forallb_app, Hp. simpl.
    by destruct (validWaypoint w).
Qed.

(** What is stored with a 201 has passed validation. *)
Lemma addWaypoint_created_valid req p p' message w :
  addWaypoint req p = (p', Created201 message w) →
  validWaypoints (Project.waypoints p') = true.
Proof.
  unfold addWaypoint, runHandler. intros Hrun.
  pose proof (addWaypointHandler_cases req p) as Hc.
  destruct (addWaypointHandler req (mkMem p p)) as [m' [r|r]];
    injection Hrun as <- ->; [|by destruct Hc as (_ & ? & _)].
  by destruct Hc as (_ & _ & ?).
Qed.

Lemma reachableBy_valid ok (p : StoredProject) :
  reachableBy ok p → validWaypoints (Project.waypoints p) = true.
Proof.
  induction 1 as [| p e Hr IH | p req p' msg w Hr IH Hok Hadd].
  - reflexivity.
  - unfold assignEmployee. by destruct (bool_decide _).
  - by eapply addWaypoint_created_valid.
Qed.

(** On a reachable project every stored waypoint passes the schema's
    validation, and the handler ends in its [catch] only by a failed
    validation of the waypoint it was adding: the caller is assigned, the
    request got through every check and the state machine took it, the
    waypoint built from it violates the schema, and nothing of it is
    stored. Reading the paths never throws. *)
Theorem server_error_is_failed_validation (p : StoredProject) (req : Req.t) :
  reachable p →
  validWaypoints (Project.waypoints p) = true ∧
  ∀ message, snd (addWaypoint req p) = ServerError500 message →
    fst (addWaypoint req p) = p ∧
    Req.employeeId req ∈ Project.employees p ∧
    ∃ imageUrl pole gps paths',
      Req.poleDetails req = Some pole ∧ Req.gpsDetails req = Some gps ∧
      pathStep (Req.employeeId req) (buildWaypoint req imageUrl pole gps)
               (Project.waypoints p) paths' ∧
      validWaypoint (buildWaypoint req imageUrl pole gps) = false.
Proof.
  intros Hr. pose proof (reachableBy_valid _ _ Hr) as Hv.
  split; [exact Hv|]. intros message.
  apply reachableBy_pathsNonEmpty in Hr.
  unfold addWaypoint, runHandler.
  pose proof (addWaypointHandler_cases req p) as Hc.
  destruct (addWaypointHandler req (mkMem p p)) as [m' [r|r]]; simpl.
  - intros ->. done.
  - intros ->. destruct Hc as (Hdb & _ & [[_ Hthrow] | (_ & Hin & Hbad)]).
    + by destruct (Hthrow message).
    + destruct Hbad as (imageUrl & pole & gps & paths' & Hp & Hg & Hstep & Hbad).
      split; [done|]. split; [done|].
      exists imageUrl, pole, gps, paths'. repeat (split; [done|]).
      by rewrite <- (pathStep_valid _ _ _ _ Hstep Hv).
Qed.

Lemma server_error_is_failed_validation_witness :
  let req := midNoDistance bob 1700010300000%Z 110%N in
  reachable sampleStored ∧
  snd (addWaypoint req sampleStored) = ServerError500 "Server error" ∧
  fst (addWaypoint req sampleStored) = sampleStored ∧
  snd (addWaypoint (midEmptyPole bob 1700010300000%Z 110%N) sampleStored)
    = ServerError500 "Server error" ∧
  validWaypoints (Project.waypoints sampleStored) = true.
Proof.
  assert (Hr : reachable sampleStored).
  { apply sampleStored_reachable. repeat constructor. }
  assert (Hrun : snd (addWaypoint (midNoDistance bob 1700010300000%Z 110%N)
                        sampleStored) = ServerError500 "Server error")
    by (vm_compute; reflexivity).
  destruct (server_error_is_failed_validation sampleStored
              (midNoDistance bob 1700010300000%Z 110%N) Hr) as [Hv Hfail].
  destruct (Hfail _ Hrun) as (Hsame & _).
  split; [exact Hr|]. split; [exact Hrun|]. split; [exact Hsame|].
  split; [vm_compute; reflexivity | exact Hv].
Defined.

(** An accepted submission leaves every other employee's paths as they were,
    path for path. *)
Theorem accepted_leaves_others_alone (req : Req.t) (p p' : StoredProject)
    (message : string) (w : StoredWaypoint) (other : ObjectId) :
  addWaypoint req p = (p', Created201 message w) →
  other ≠ Req.employeeId req →
  userPaths other (Project.waypoints p') = userPaths other (Project.waypoints p).
Proof.
  intros Hrun Hne.
  apply addWaypoint_accepted in Hrun
    as (_ & (imageUrl & pole & gps & ->) & paths' & -> & Hstep).
  simpl.
  inversion Hstep as [ps Hs Hnon Hinc | before path after Hs Hnon Hown Hafter Hopen];
    subst.
  - rewrite userPaths_app, userPaths_singleton.
    rewrite decide_False; [by rewrite app_nil_r|].
    intros Ho. by apply ownedBy_new in Ho.
  - assert (Hp : path ≠ []).
    { apply Forall_app in Hnon as [_ Hnon]. by inversion Hnon. }
    rewrite !userPaths_middle, !userPaths_singleton.
    rewrite !decide_False; [done | |].
    + intros Ho. apply Hne. by eapply ownedBy_inj.
    + intros Ho. apply ownedBy_snoc in Ho; [|done].
      apply Hne. by eapply ownedBy_inj.
Qed.

Lemma accepted_leaves_others_alone_witness :
  let req := midBy bob 1700010300000%Z 110%N in
  ∃ p' w,
    addWaypoint req sampleStored = (p', Created201 "Waypoint added successfully" w) ∧
    ann ≠ bob ∧
    userPaths ann (Project.waypoints p') =
    userPaths ann (Project.waypoints sampleStored).
Proof.
  eexists _, _.
  assert (Hrun : addWaypoint (midBy bob 1700010300000%Z 110%N) sampleStored =
    ((addWaypoint (midBy bob 1700010300000%Z 110%N) sampleStored).1,
     Created201 "Waypoint added successfully"
       (buildWaypoint (midBy bob 1700010300000%Z 110%N) None [] [])))
    by (vm_compute; reflexivity).
  assert (Hne : ann ≠ bob) by discriminate.
  split; [exact Hrun|]. split; [exact Hne|].
  exact (accepted_leaves_others_alone _ _ _ _ _ ann Hrun Hne).
Defined.

(** ** The shape of stored paths *)

Lemma wholly_owned e e' path :
  path ≠ [] → wholly e path → ownedBy e' path → e' = e.
Proof.
  intros Hne Hw Ho. destruct path as [|first rest]; [done|].
  apply Forall_cons in Hw as [[_ Hfirst] _].
  unfold ownedBy in Ho. simpl in Ho. congruence.
Qed.

(** Every stored path belongs to one employee throughout: all its waypoints
    were created by the employee its first waypoint names as owner, and all
    name that owner. The owner filter of [addWaypoint] (by [pathOwner]) and
    the creator filters of the readers (by [createdBy]) so agree on whose
    path it is. *)
Theorem reachable_paths_single_owner (p : StoredProject) :
  reachable p →
  Forall (λ path, ∃ e, wholly e path ∧ ownedBy e path ∧ startedBy e path)
         (Project.waypoints p).
Proof.
  revert p. apply reachableBy_paths_ind; [constructor|].
  intros req imageUrl pole gps paths paths' _ HP Hstep.
  inversion Hstep as [ps Hs Hne Hinc | before path after Hs Hne Hown Hafter Hopen];
    subst.
  - apply Forall_app. split; [done|]. apply Forall_singleton.
    exists (Req.employeeId req). split; [|done].
    by apply Forall_singleton.
  - apply Forall_app in HP as [Hb Hpa]. apply Forall_cons in Hpa as [Hp Ha].
    apply Forall_app. split; [done|]. constructor; [|done].
    assert (Hpne : path ≠ []).
    { apply Forall_app in Hne as [_ Hne]. by inversion Hne. }
    destruct Hp as (e & Hw & Ho & Hsb).
    assert (e = Req.employeeId req) as -> by by eapply ownedBy_inj.
    exists (Req.employeeId req). split; [|split].
    + apply Forall_app. split; [done|]. by apply Forall_singleton.
    + by apply ownedBy_snoc.
    + destruct path; [done|]. exact Hsb.
Qed.

Lemma reachable_paths_single_owner_witness :
  reachable sampleStored ∧
  Forall (λ path, ∃ e, wholly e path ∧ ownedBy e path ∧ startedBy e path)
         (Project.waypoints sampleStored).
Proof.
  assert (Hr : reachable sampleStored).
  { apply sampleStored_reachable. repeat constructor. }
  split; [exact Hr|]. exact (reachable_paths_single_owner sampleStored Hr).
Defined.

Lemma pathShape_singleton {U} (w : Waypoint.t U) :
  Waypoint.isStart w = true → pathShape [w].
Proof.
  intros Hs. exists w, []. split; [done|]. split; [done|]. split; [constructor|].
  intros earlier final Heq. destruct earlier as [|x earlier]; [constructor|].
  destruct earlier; discriminate.
Qed.

Lemma pathShape_snoc {U} (path : Path U) (w : Waypoint.t U) :
  pathShape path → isOpen path = true → Waypoint.isStart w = false →
  pathShape (path ++ [w]).
Proof.
  intros (first & rest & -> & Hfs & Hrest & Hends) Hopen Hs.
  exists first, (rest ++ [w]). split; [done|]. split; [done|].
  split; [apply Forall_app; split; [done | by apply Forall_singleton]|].
  intros earlier final Heq.
  change (first :: rest ++ [w]) with ((first :: rest) ++ [w]) in Heq.
  apply app_inj_tail in Heq as [<- _].
  destruct (first :: rest) as [|x l] eqn:Hpath using rev_ind; [constructor|].
  clear IHl. apply Forall_app. split; [by eapply Hends|].
  apply Forall_singleton.
  unfold isOpen in Hopen. rewrite last_snoc in Hopen.
  by destruct (Waypoint.isEnd x).
Qed.

(** Every stored path is well formed: it begins with a start waypoint, no
    later waypoint of it is a start, and no waypoint before its last is an
    end. *)
Theorem reachable_paths_shape (p : StoredProject) :
  reachable p → Forall pathShape (Project.waypoints p).
Proof.
  revert p. apply reachableBy_paths_ind; [constructor|].
  intros req imageUrl pole gps paths paths' _ HP Hstep.
  inversion Hstep as [ps Hs Hne Hinc | before path after Hs Hne Hown Hafter Hopen];
    subst.
  - apply Forall_app. split; [done|]. apply Forall_singleton.
    by apply pathShape_singleton.
  - apply Forall_app in HP as [Hb Hpa]. apply Forall_cons in Hpa as [Hp Ha].
    apply Forall_app. split; [done|]. constructor; [|done].
    by apply pathShape_snoc.
Qed.

Lemma reachable_paths_shape_witness :
  reachable sampleStored ∧ Forall pathShape (Project.waypoints sampleStored).
Proof.
  assert (Hr : reachable sampleStored).
  { apply sampleStored_reachable. repeat constructor. }
  split; [exact Hr|]. exact (reachable_paths_shape sampleStored Hr).
Defined.

(** ** Assignment *)

Lemma assignEmployee_NoDup e (p : StoredProject) :
  NoDup (Project.employees p) → NoDup (Project.employees (assignEmployee e p)).
Proof.
  intros Hnd. unfold assignEmployee.
  destruct (bool_decide (e ∈ Project.employees p)) eqn:He; [done|].
  apply bool_decide_eq_false in He. simpl.
  apply NoDup_app. split; [done|]. split; [|apply NoDup_singleton].
  intros x Hx ->%list_elem_of_singleton. done.
Qed.

Lemma reachableBy_employees_NoDup ok (p : StoredProject) :
  reachableBy ok p → NoDup (Project.employees p).
Proof.
  induction 1 as [| p e Hr IH | p req p' msg w Hr IH Hok Hadd].
  - constructor.
  - by apply assignEmployee_NoDup.
  - apply addWaypoint_accepted in Hadd as (_ & _ & paths' & -> & _). done.
Qed.

(** The assignment handler changes the project only when it answers 200;
    then the employee it adds is a user with that [empId] and the role
    "employee" who was not yet assigned, put at the end of the list; the
    result is again a reachable project, and no reachable project lists an
    employee twice. *)
Theorem assignEmployee_once (users : list User.t) (empId : string)
    (p : StoredProject) (found' : option StoredProject) (r : AssignResponse) :
  reachable p →
  assignEmployeeHandler users empId (Some p) = (found', r) →
  NoDup (Project.employees p) ∧
  ∃ p', found' = Some p' ∧ reachable p' ∧ NoDup (Project.employees p') ∧
    match r with
    | AssignOk200 _ saved =>
        saved = p' ∧
        ∃ employee, employee ∈ users ∧ User.empId employee = empId ∧
          User.role employee = "employee" ∧
          (User._id employee ∉ Project.employees p) ∧
          p' = assignEmployee (User._id employee) p ∧
          Project.employees p' = Project.employees p ++ [User._id employee]
    | _ => p' = p
    end.
Proof.
  intros Hr Hrun.
  assert (Hnd : NoDup (Project.employees p))
    by by eapply reachableBy_employees_NoDup.
  split; [done|]. unfold assignEmployeeHandler in Hrun.
  destruct (falsy empId); [injection Hrun as <- <-; eauto 10|].
  destruct (list_find _ users) as [[i employee]|] eqn:Hfind;
    [|injection Hrun as <- <-; eauto 10].
  apply list_find_Some in Hfind as (Hi & [He Hrole] & _).
  destruct (bool_decide (User._id employee ∈ Project.employees p)) eqn:Hin;
    injection Hrun as <- <-; [eauto 10|].
  apply bool_decide_eq_false in Hin.
  assert (Heq : Project.setEmployees
                  (Project.employees p ++ [User._id employee]) p
                = assignEmployee (User._id employee) p).
  { unfold assignEmployee. by rewrite bool_decide_eq_false_2. }
  eexists. split; [reflexivity|]. rewrite Heq.
  split; [by apply reach_assign|]. split; [by apply assignEmployee_NoDup|].
  split; [done|]. exists employee.
  split; [by eapply list_elem_of_lookup_2|].
  repeat (split; [done|]). by rewrite <- Heq.
Qed.

Lemma assignEmployee_once_witness :
  let p := createProject "Project_1" "North" "Feeder-2" None 1%N in
  reachable p ∧
  ∃ found' r, assignEmployeeHandler sampleUsers "EMP005" (Some p) = (found', r) ∧
    r = AssignOk200 "Employee assigned successfully" (assignEmployee ann p) ∧
    NoDup (Project.employees p) ∧
    ∃ p', found' = Some p' ∧ reachable p' ∧ NoDup (Project.employees p') ∧
      match r with
      | AssignOk200 _ saved =>
          saved = p' ∧
          ∃ employee, employee ∈ sampleUsers ∧ User.empId employee = "EMP005" ∧
            User.role employee = "employee" ∧
            (User._id employee ∉ Project.employees p) ∧
            p' = assignEmployee (User._id employee) p ∧
            Project.employees p' = Project.employees p ++ [User._id employee]
      | _ => p' = p
      end.
Proof.
  assert (Hr : reachable (createProject "Project_1" "North" "Feeder-2" None 1%N))
    by apply reach_create.
  split; [exact Hr|]. eexists _, _.
  assert (Hrun : assignEmployeeHandler sampleUsers "EMP005"
            (Some (createProject "Project_1" "North" "Feeder-2" None 1%N)) =
          (Some (assignEmployee ann (createProject "Project_1" "North" "Feeder-2" None 1%N)),
           AssignOk200 "Employee assigned successfully"
             (assignEmployee ann (createProject "Project_1" "North" "Feeder-2" None 1%N))))
    by (vm_compute; reflexivity).
  split; [exact Hrun|]. split; [reflexivity|].
  exact (assignEmployee_once sampleUsers "EMP005" _ _ _ Hr Hrun).
Defined.

(** ** What an employee is shown of a project *)

Lemma wholly_startedBy e e' path :
  path ≠ [] → wholly e path → startedBy e' path → e' = e.
Proof.
  intros Hne Hw Hs. destruct path as [|first rest]; [done|].
  apply Forall_cons in Hw as [[Hfirst _] _].
  unfold startedBy in Hs. simpl in Hs. congruence.
Qed.

(** The owner invariant, for any restriction on the requests. *)
Lemma reachableBy_owner_inv ok (p : StoredProject) :
  reachableBy ok p →
  Forall (λ path, ∃ e, wholly e path ∧ ownedBy e path ∧ startedBy e path)
         (Project.waypoints p).
Proof.
  revert p. apply reachableBy_paths_ind; [constructor|].
  intros req imageUrl pole gps paths paths' _ HP Hstep.
  destruct Hstep as [ps Hs Hne Hinc | before path after Hs Hne Hown Hafter Hopen].
  - apply Forall_app. split; [done|]. apply Forall_singleton.
    exists (Req.employeeId req). split; [|done]. by apply Forall_singleton.
  - apply Forall_app in HP as [Hb Hpa]. apply Forall_cons in Hpa as [Hp Ha].
    apply Forall_app. split; [done|]. constructor; [|done].
    assert (Hpne : path ≠ []).
    { apply Forall_app in Hne as [_ Hne]. by inversion Hne. }
    destruct Hp as (e & Hw & Ho & Hsb).
    assert (e = Req.employeeId req) as -> by by eapply ownedBy_inj.
    exists (Req.employeeId req). split; [|split].
    + apply Forall_app. split; [done|]. by apply Forall_singleton.
    + by apply ownedBy_snoc.
    + destruct path; [done|]. exact Hsb.
Qed.

(** For a reachable project, [getProjectWaypoints] answers an employee who
    is not assigned with 403, and shows an assigned employee exactly the
    paths [addWaypoint] treats as that employee's, in stored order; every
    waypoint shown was created by that employee. An admin is shown the
    whole array. *)
Theorem employee_sees_own_paths (p : StoredProject) (userId : ObjectId) :
  reachable p →
  getProjectWaypoints "admin" userId (Some p) = WaypointsOk200 (Project.waypoints p) ∧
  (userId ∉ Project.employees p →
     getProjectWaypoints "employee" userId (Some p) =
       WaypointsForbidden403 "Not authorized to access this project") ∧
  (userId ∈ Project.employees p →
     getProjectWaypoints "employee" userId (Some p) =
       WaypointsOk200 (userPaths userId (Project.waypoints p))) ∧
  Forall (Forall (λ w, Waypoint.createdBy w = userId))
         (userPaths userId (Project.waypoints p)).
Proof.
  intros Hr. pose proof (reachableBy_pathsNonEmpty _ _ Hr) as Hne.
  pose proof (reachableBy_owner_inv _ _ Hr) as Hown.
  assert (Hsame : filter (startedBy userId) (Project.waypoints p) =
                  userPaths userId (Project.waypoints p)).
  { unfold userPaths. clear Hr.
    induction (Project.waypoints p) as [|path paths IH]; [done|].
    apply Forall_cons in Hne as [Hp Hne]. apply Forall_cons in Hown as [He Hown].
    destruct He as (e & Hw & Ho & Hs).
    destruct (decide (userId = e)) as [->|Hneq].
    - rewrite !filter_cons_True by done. f_equal. by apply IH.
    - rewrite !filter_cons_False; [by apply IH | |].
      + intros Ho'. apply Hneq. by eapply ownedBy_inj.
      + intros Hs'. apply Hneq. by eapply wholly_startedBy. }
  split; [reflexivity|]. unfold getProjectWaypoints. simpl.
  split; [|split].
  - intros Hnin. by rewrite bool_decide_eq_false_2.
  - intros Hin. rewrite bool_decide_eq_true_2 by done. simpl. by rewrite Hsame.
  - apply Forall_forall. intros path Hpath.
    unfold userPaths in Hpath. apply list_elem_of_filter in Hpath as [Ho Hpath].
    rewrite Forall_forall in Hown. destruct (Hown _ Hpath) as (e & Hw & Ho' & _).
    assert (userId = e) as -> by by eapply ownedBy_inj.
    eapply Forall_impl; [exact Hw|]. by intros w [? _].
Qed.

Lemma employee_sees_own_paths_witness :
  reachable sampleStored ∧
  getProjectWaypoints "admin" bob (Some sampleStored) =
    WaypointsOk200 (Project.waypoints sampleStored) ∧
  (bob ∉ Project.employees sampleStored →
     getProjectWaypoints "employee" bob (Some sampleStored) =
       WaypointsForbidden403 "Not authorized to access this project") ∧
  (bob ∈ Project.employees sampleStored →
     getProjectWaypoints "employee" bob (Some sampleStored) =
       WaypointsOk200 (userPaths bob (Project.waypoints sampleStored))) ∧
  Forall (Forall (λ w, Waypoint.createdBy w = bob))
         (userPaths bob (Project.waypoints sampleStored)).
Proof.
  assert (Hr : reachable sampleStored).
  { apply sampleStored_reachable. repeat constructor. }
  split; [exact Hr|]. exact (employee_sees_own_paths sampleStored bob Hr).
Defined.

(** ** From stored paths to reported segments *)

Lemma reachableBy_shape_inv ok (p : StoredProject) :
  reachableBy ok p → Forall pathShape (Project.waypoints p).
Proof.
  revert p. apply reachableBy_paths_ind; [constructor|].
  intros req imageUrl pole gps paths paths' _ HP Hstep.
  destruct Hstep as [ps Hs Hne Hinc | before path after Hs Hne Hown Hafter Hopen].
  - apply Forall_app. split; [done|]. apply Forall_singleton.
    by apply pathShape_singleton.
  - apply Forall_app in HP as [Hb Hpa]. apply Forall_cons in Hpa as [Hp Ha].
    apply Forall_app. split; [done|]. constructor; [|done].
    by apply pathShape_snoc.
Qed.

Lemma reachableBy_closedButLast ok (p : StoredProject) e :
  reachableBy ok p → closedButLast e (Project.waypoints p).
Proof.
  revert p. apply reachableBy_paths_ind.
  - intros earlier path HU. by destruct earlier.
  - intros req imageUrl pole gps paths paths' _ HP Hstep.
    by eapply closedButLast_step.
Qed.

Section populated_paths.
Context {U V : Type} (f : U → V).

Lemma isOpen_mapCreatedBy (path : Path U) :
  isOpen (map (Waypoint.mapCreatedBy f) path) = isOpen path.
Proof.
  unfold isOpen. change (map (Waypoint.mapCreatedBy f) path)
    with (Waypoint.mapCreatedBy f <$> path).
  rewrite fmap_last. by destruct (last path).
Qed.

Lemma pathStamp_mapCreatedBy (path : Path U) :
  pathStamp (map (Waypoint.mapCreatedBy f) path) = pathStamp path.
Proof.
  unfold pathStamp. change (map (Waypoint.mapCreatedBy f) path)
    with (Waypoint.mapCreatedBy f <$> path).
  rewrite fmap_last. destruct (last path) as [w|]; [|done]. simpl.
  by destruct path.
Qed.

Lemma pathShape_mapCreatedBy (path : Path U) :
  pathShape path → pathShape (map (Waypoint.mapCreatedBy f) path).
Proof.
  intros (first & rest & -> & Hs & Hrest & Hends).
  exists (Waypoint.mapCreatedBy f first), (map (Waypoint.mapCreatedBy f) rest).
  split; [done|]. split; [done|]. split.
  - apply Forall_fmap. eapply Forall_impl; [exact Hrest|]. done.
  - intros earlier final Heq.
    destruct (first :: rest) as [|x l] eqn:Hpath using rev_ind; [done|].
    clear IHl. rewrite map_app in Heq. simpl in Heq.
    apply app_inj_tail in Heq as [<- _].
    apply Forall_fmap. eapply Forall_impl; [by eapply Hends|]. done.
Qed.
End populated_paths.

(** The scan of one well-formed path, wherever it lies in the stream as long
    as an open one lies at its end: one segment, the path itself. *)
Lemma scan_path project len idx (path : list PopulatedWaypoint) cur all :
  pathShape path →
  (idx + length path ≤ len)%nat →
  (isOpen path = true → (idx + length path)%nat = len) →
  scanFrom project len idx path (cur, all) =
    ([], all ++ [mkSegment project path (pathStamp path)]).
Proof.
  intros (first & rest & -> & Hs & Hrest & Hends) Hlen Hopen.
  destruct rest as [|final mids _] using rev_ind.
  - simpl in *. unfold pathStamp, isOpen in *. simpl in *.
    unfold scanStep. rewrite Hs.
    destruct (Waypoint.isEnd first) eqn:He; simpl; [done|].
    rewrite bool_decide_eq_true_2; [done|]. specialize (Hopen eq_refl). lia.
  - apply Forall_app in Hrest as [Hmids Hfinal].
    rewrite Forall_singleton in Hfinal.
    specialize (Hends (first :: mids) final eq_refl).
    apply Forall_cons in Hends as [He Hmide].
    assert (Hmid : Forall midpoint mids).
    { apply Forall_forall. intros w Hw. rewrite Forall_forall in Hmids, Hmide.
      split; [by apply Hmids | by apply Hmide]. }
    simpl in Hlen. rewrite length_app in Hlen. simpl in Hlen.
    change (first :: mids ++ [final]) with ([first] ++ (mids ++ [final])) at 1.
    rewrite scanFrom_app. simpl scanFrom at 2.
    rewrite scanStep_start by done.
    rewrite bool_decide_eq_false_2 by lia.
    rewrite scanFrom_app.
    rewrite (scanFrom_mids _ _ mids (idx + 1) first [] all) by (done || simpl; lia).
    simpl.
    assert (Hstamp : pathStamp (first :: mids ++ [final]) =
              if Waypoint.isEnd final then Waypoint.timestamp final
              else Waypoint.timestamp first).
    { unfold pathStamp. rewrite app_comm_cons, last_snoc. done. }
    rewrite Hstamp.
    destruct (Waypoint.isEnd final) eqn:Hfe.
    + by rewrite scanStep_end.
    + assert (Hlast : (idx + 1 + length mids)%nat = (len - 1)%nat).
      { simpl in Hopen. rewrite length_app in Hopen. simpl in Hopen.
        unfold isOpen in Hopen. rewrite app_comm_cons, last_snoc, Hfe in Hopen.
        specialize (Hopen eq_refl). lia. }
      rewrite Hlast. by rewrite scanStep_mid_last.
Qed.

(** The scan of a stream made of well-formed paths, all closed but possibly
    the last: one segment per path. *)
Lemma scan_paths project len (paths : list (list PopulatedWaypoint)) :
  Forall pathShape paths →
  (∀ earlier final, paths = earlier ++ [final] →
     Forall (λ q, isOpen q = false) earlier) →
  ∀ idx all, len = (idx + length (concat paths))%nat →
  scanFrom project len idx (concat paths) ([], all) =
    ([], all ++ map (λ path, mkSegment project path (pathStamp path)) paths).
Proof.
  induction paths as [|path paths IH]; intros Hshape Hclosed idx all Hlen; simpl.
  - by rewrite app_nil_r.
  - apply Forall_cons in Hshape as [Hp Hshape].
    simpl in Hlen. rewrite length_app in Hlen.
    rewrite scanFrom_app.
    rewrite scan_path; [|done|lia|].
    + rewrite IH; [by rewrite <- app_assoc | done | | lia].
      intros earlier final ->.
      specialize (Hclosed (path :: earlier) final eq_refl).
      by apply Forall_cons in Hclosed as [_ ?].
    + intros Hopen.
      destruct paths as [|x l _] using rev_ind; [simpl in *; lia|].
      specialize (Hclosed (path :: l) x eq_refl).
      apply Forall_cons in Hclosed as [Hc _]. congruence.
Qed.

(** The employee's stream in a populated reachable project is the
    employee's stored paths, one after the other. *)
Lemma employeeWaypoints_reachable users (p : StoredProject) e u :
  Forall (λ path, ∃ e0, wholly e0 path ∧ ownedBy e0 path ∧ startedBy e0 path)
         (Project.waypoints p) →
  pathsNonEmpty (Project.waypoints p) →
  findUser users e = Some u →
  (∀ id u', findUser users id = Some u' → User.empId u' = User.empId u → id = e) →
  employeeWaypoints (User.empId u) (populate users p) =
  concat (map (map (Waypoint.mapCreatedBy (findUser users)))
              (userPaths e (Project.waypoints p))).
Proof.
  intros Hown Hne Hu Huniq. unfold employeeWaypoints, populate. simpl.
  induction (Project.waypoints p) as [|path paths IH]; [reflexivity|].
  apply Forall_cons in Hown as [(e0 & Hw & Ho & _) Hown].
  apply Forall_cons in Hne as [Hp Hne].
  simpl. rewrite filter_app, IH by done. clear IH.
  change (userPaths e (path :: paths)) with (userPaths e ([path] ++ paths)).
  rewrite (userPaths_app e [path] paths), userPaths_singleton.
  rewrite map_app, concat_app. f_equal.
  destruct (decide (ownedBy e path)) as [Hoe|Hoe].
  - assert (e0 = e) as -> by by eapply ownedBy_inj.
    simpl. rewrite app_nil_r.
    clear Hp Ho Hoe. induction Hw as [|w path [Hc _] Hw IH]; [done|].
    simpl. rewrite filter_cons_True; [by rewrite IH|].
    simpl. by rewrite Hc, Hu.
  - simpl. assert (e0 ≠ e) by (intros ->; done).
    clear Hp Ho Hoe. induction Hw as [|w path [Hc _] Hw IH]; [done|].
    simpl. rewrite filter_cons_False; [exact IH|].
    simpl. rewrite Hc. destruct (findUser users e0) as [u'|] eqn:Hu'; [|done].
    simpl. intros [= Heq]. apply H. by apply (Huniq e0 u').
Qed.

(** The report's scan recovers the stored paths: for a reachable project,
    populated from a user collection in which the employee's [empId]
    belongs to that employee only, the segments the scan emits for the
    employee are exactly the employee's stored paths, one segment per path
    in stored order, each holding the path's waypoints; a closed path is
    stamped by its end waypoint, the open one (if any, the last) by its
    start waypoint. No waypoint of the employee is left out. *)
Theorem report_recovers_paths (users : list User.t) (p : StoredProject)
    (e : ObjectId) (u : User.t) (allSegments : list Segment.t) :
  reachable p →
  findUser users e = Some u →
  (∀ id u', findUser users id = Some u' → User.empId u' = User.empId u → id = e) →
  scanProject (User.empId u) allSegments (populate users p) =
    allSegments ++
    map (λ path, mkSegment (populate users p)
                   (map (Waypoint.mapCreatedBy (findUser users)) path)
                   (pathStamp path))
        (userPaths e (Project.waypoints p)).
Proof.
  intros Hr Hu Huniq.
  pose proof (reachableBy_owner_inv _ _ Hr) as Hown.
  pose proof (reachableBy_pathsNonEmpty _ _ Hr) as Hne.
  pose proof (reachableBy_shape_inv _ _ Hr) as Hshape.
  pose proof (reachableBy_closedButLast _ _ e Hr) as Hclosed.
  unfold scanProject.
  rewrite (employeeWaypoints_reachable users p e u) by done.
  rewrite scan_paths; [| | |done].
  - simpl. f_equal. rewrite map_map. apply map_ext. intros path.
    by rewrite pathStamp_mapCreatedBy.
  - apply Forall_fmap, Forall_forall. intros path Hpath.
    apply pathShape_mapCreatedBy.
    unfold userPaths in Hpath. apply list_elem_of_filter in Hpath as [_ Hpath].
    rewrite Forall_forall in Hshape. by apply Hshape.
  - intros earlier final Heq.
    destruct (userPaths e (Project.waypoints p)) as [|x l _] eqn:HU using rev_ind;
      [by destruct earlier|].
    rewrite map_app in Heq. simpl in Heq. apply app_inj_tail in Heq as [<- _].
    apply Forall_fmap. eapply Forall_impl; [exact (Hclosed l x HU)|].
    intros q Hq. simpl. by rewrite isOpen_mapCreatedBy.
Qed.

Lemma report_recovers_paths_witness :
  reachable sampleStored ∧
  findUser sampleUsers ann = Some (User.mk ann "EMP005" "Ann" "employee" None) ∧
  (∀ id u', findUser sampleUsers id = Some u' →
            User.empId u' = "EMP005" → id = ann) ∧
  scanProject "EMP005" [] samplePopulated =
    [] ++
    map (λ path, mkSegment samplePopulated
                   (map (Waypoint.mapCreatedBy (findUser sampleUsers)) path)
                   (pathStamp path))
        (userPaths ann (Project.waypoints sampleStored)).
Proof.
  assert (Hr : reachable sampleStored).
  { apply sampleStored_reachable. repeat constructor. }
  assert (Hu : findUser sampleUsers ann =
               Some (User.mk ann "EMP005" "Ann" "employee" None)) by reflexivity.
  assert (Huniq : ∀ id u', findUser sampleUsers id = Some u' →
                           User.empId u' = "EMP005" → id = ann).
  { intros id u' Hf He. unfold findUser, sampleUsers in Hf. simpl in Hf.
    destruct (decide (ann = id)) as [<-|_]; [done|].
    destruct (decide (bob = id)) as [<-|_]; simpl in Hf; [|done].
    injection Hf as <-. discriminate He. }
  split; [exact Hr|]. split; [exact Hu|]. split; [exact Huniq|].
  exact (report_recovers_paths sampleUsers sampleStored ann _ [] Hr Hu Huniq).
Defined.

(** ** What the scan emits, for any stream *)

Lemma pathShape_snoc_running (cur : list PopulatedWaypoint) w :
  pathShape cur → Forall (λ x, Waypoint.isEnd x = false) cur →
  Waypoint.isStart w = false → pathShape (cur ++ [w]).
Proof.
  intros Hshape Hends Hs. apply pathShape_snoc; [done| |done].
  destruct Hshape as (first & rest & -> & _).
  unfold isOpen. destruct (last (first :: rest)) as [x|] eqn:Hl; [|done].
  apply last_Some_elem_of in Hl. rewrite Forall_forall in Hends.
  by rewrite (Hends x Hl).
Qed.

Lemma pathStamp_closed (cur : list PopulatedWaypoint) w :
  Waypoint.isEnd w = true → pathStamp (cur ++ [w]) = Waypoint.timestamp w.
Proof. intros He. unfold pathStamp. by rewrite last_snoc, He. Qed.

Lemma pathStamp_open (first : PopulatedWaypoint) rest :
  Forall (λ x, Waypoint.isEnd x = false) (first :: rest) →
  pathStamp (first :: rest) = Waypoint.timestamp first.
Proof.
  intros Hends. unfold pathStamp.
  destruct (last (first :: rest)) as [x|] eqn:Hl; [|by apply last_None in Hl].
  apply last_Some_elem_of in Hl. rewrite Forall_forall in Hends.
  by rewrite (Hends x Hl).
Qed.

Lemma scanStep_sound project len idx w cur all :
  running cur → Forall segmentSound all →
  running (fst (scanStep project len idx w (cur, all))) ∧
  Forall segmentSound (snd (scanStep project len idx w (cur, all))).
Proof.
  intros Hcur Hall. unfold scanStep.
  set (cur1 := if Waypoint.isStart w then [w]
               else if nonEmpty cur then cur ++ [w] else cur).
  assert (H1 : cur1 = [] ∨
               ∃ before, cur1 = before ++ [w] ∧ pathShape cur1 ∧
                         Forall (λ x, Waypoint.isEnd x = false) before).
  { subst cur1. destruct (Waypoint.isStart w) eqn:Hs.
    - right. exists []. split; [done|]. split; [by apply pathShape_singleton|].
      constructor.
    - destruct Hcur as [->|[Hshape Hends]]; [by left|].
      destruct (nonEmpty cur) eqn:Hn.
      + right. exists cur. split; [done|]. split; [|done].
        by apply pathShape_snoc_running.
      + destruct Hshape as (first & rest & -> & _). done. }
  destruct H1 as [->|(before & Hcur1 & Hshape & Hends)].
  { rewrite andb_false_r. simpl. split; [by left | done]. }
  assert (Hn : nonEmpty cur1 = true).
  { rewrite Hcur1. unfold nonEmpty. apply bool_decide_eq_true_2.
    rewrite length_app. simpl. lia. }
  rewrite Hn, andb_true_r.
  destruct (Waypoint.isEnd w) eqn:He.
  - simpl. split; [by left|].
    apply Forall_app. split; [done|]. apply Forall_singleton.
    split; [done|]. split; [|done]. simpl.
    by rewrite Hcur1, pathStamp_closed.
  - assert (Hall1 : Forall (λ x, Waypoint.isEnd x = false) cur1).
    { rewrite Hcur1. apply Forall_app. split; [done|]. by apply Forall_singleton. }
    destruct cur1 as [|first tail] eqn:Hc; [by destruct before|].
    destruct (bool_decide (idx = len - 1)%nat); simpl.
    + split; [by left|].
      apply Forall_app. split; [done|]. apply Forall_singleton.
      split; [done|]. split; [|done]. simpl. by rewrite pathStamp_open.
    + split; [|done]. right. done.
Qed.

Lemma scanFrom_sound project len ws : ∀ idx cur all,
  running cur → Forall segmentSound all →
  Forall segmentSound (snd (scanFrom project len idx ws (cur, all))).
Proof.
  induction ws as [|w ws IH]; intros idx cur all Hcur Hall; [done|].
  simpl.
  destruct (scanStep_sound project len idx w cur all Hcur Hall) as [H1 H2].
  destruct (scanStep project len idx w (cur, all)) as [cur1 all1].
  by apply IH.
Qed.

(** Whatever the stored waypoints are, every segment the report extracts is
    a well-formed path: it begins with a start waypoint, holds no other
    start, and no end before its last waypoint. Its sort key is its last
    waypoint's timestamp when that is an end and its first waypoint's
    otherwise, and its date is the UTC day of the sort key. *)
Theorem extracted_segments_sound (empId : string) (projects : list PopulatedProject) :
  Forall segmentSound (extractSegments empId projects).
Proof.
  unfold extractSegments.
  assert (H : ∀ all, Forall segmentSound all →
    Forall segmentSound (foldl (scanProject empId) all projects)).
  { induction projects as [|p projects IH]; intros all Hall; [done|].
    simpl. apply IH. unfold scanProject.
    apply scanFrom_sound; [by left | done]. }
  apply H. constructor.
Qed.

(** ** Nothing is lost or shown twice *)

Lemma pushToProject_shown s projectsMap :
  concat (map (λ ke, Entry.waypoints ke.2) (pushToProject s projectsMap)) ≡ₚ
  shown s :: concat (map (λ ke, Entry.waypoints ke.2) projectsMap).
Proof.
  induction projectsMap as [|[k e] rest IH]; simpl; [done|].
  destruct (bool_decide (k = Segment.projectId s)); simpl.
  - rewrite <- app_assoc. simpl. symmetry. apply Permutation_middle.
  - rewrite IH. symmetry. apply Permutation_middle.
Qed.

Lemma entriesOfGroup_all_shown group :
  concat (map Entry.waypoints (entriesOfGroup group)) ≡ₚ map shown group.
Proof.
  unfold entriesOfGroup. rewrite map_map.
  induction group as [|s group IH] using rev_ind; [done|].
  rewrite projectsMapOf_snoc, pushToProject_shown, IH, map_app. simpl.
  by rewrite <- Permutation_cons_append.
Qed.

(** Splitting a list by day and gluing the days gives the list back, up to
    order, when every day occurs once among the days. *)
Lemma by_day_Permutation (l : list Segment.t) (days : list Date) :
  NoDup days → (∀ s, s ∈ l → Segment.date s ∈ days) →
  concat (map (λ d, filter (λ s, Segment.date s = d) l) days) ≡ₚ l.
Proof.
  intros Hnd. induction l as [|s l IH]; intros Hdays.
  - clear. induction days as [|d days IH]; [done|]. simpl. exact IH.
  - transitivity (s :: concat (map (λ d, filter (λ s, Segment.date s = d) l) days));
      [|constructor; apply IH; intros x Hx; apply Hdays; by right].
    assert (Hs : Segment.date s ∈ days) by (apply Hdays; by left).
    clear Hdays IH. induction days as [|d days IH]; [by apply elem_of_nil in Hs|].
    apply NoDup_cons in Hnd as [Hnin Hnd]. simpl.
    destruct (decide (Segment.date s = d)) as [<-|Hne].
    + rewrite filter_cons_True by done. simpl. do 2 f_equiv.
      clear IH Hs Hnd. induction days as [|d days IH]; [done|].
      simpl. rewrite filter_cons_False.
      * f_equiv. apply IH. intros H. apply Hnin. by right.
      * intros <-. apply Hnin. by left.
    + rewrite filter_cons_False by done.
      apply elem_of_cons in Hs as [Hs|Hs]; [done|].
      rewrite (IH Hnd Hs). symmetry. apply Permutation_middle.
Qed.

(** The report shows every extracted segment exactly once: read entry by
    entry, the segments shown are those extracted, up to order. *)
Theorem report_shows_each_segment_once (empId : string)
    (projects : list PopulatedProject) :
  concat (map Entry.waypoints (reconstruct empId projects)) ≡ₚ
  map shown (extractSegments empId projects).
Proof.
  unfold reconstruct. generalize (extractSegments empId projects) as all.
  intros all. rewrite buildResult_by_day.
  set (sorted := arraySort byTimestampDesc all).
  assert (Hdays : NoDup (sortedDates (dateGroupsOf all)) ∧
    ∀ s, s ∈ sorted → Segment.date s ∈ sortedDates (dateGroupsOf all)).
  { unfold dateGroupsOf. fold sorted. split.
    - unfold sortedDates. rewrite arraySort_Permutation. apply keys_groupByDate.
    - intros s Hs. apply sortedDates_elem. eauto. }
  destruct Hdays as [Hnd Hcover].
  transitivity (map shown sorted);
    [|apply Permutation_map, arraySort_Permutation].
  transitivity (map shown (concat (map (λ d, filter (λ s, Segment.date s = d) sorted)
                                       (sortedDates (dateGroupsOf all)))));
    [|apply Permutation_map, (by_day_Permutation sorted _ Hnd Hcover)].
  generalize (sortedDates (dateGroupsOf all)) as days. clear.
  induction days as [|d days IH]; [done|].
  simpl. rewrite map_app, concat_app, map_app.
  by rewrite entriesOfGroup_all_shown, IH.
Qed.

(** ** One entry per project and day *)

Lemma keys_pushToProject s projectsMap :
  map fst (pushToProject s projectsMap) =
  if bool_decide (Segment.projectId s ∈ map fst projectsMap)
  then map fst projectsMap
  else map fst projectsMap ++ [Segment.projectId s].
Proof.
  induction projectsMap as [|[k e] rest IH]; simpl; [reflexivity|].
  destruct (bool_decide (k = Segment.projectId s)) eqn:Hk; simpl.
  - apply bool_decide_eq_true in Hk. subst k.
    rewrite bool_decide_eq_true_2; [done | by left].
  - apply bool_decide_eq_false in Hk. rewrite IH.
    destruct (bool_decide (Segment.projectId s ∈ map fst rest)) eqn:Hin.
    + apply bool_decide_eq_true in Hin.
      rewrite bool_decide_eq_true_2; [done | by right].
    + apply bool_decide_eq_false in Hin.
      rewrite bool_decide_eq_false_2; [done|].
      intros [?|?]%elem_of_cons; congruence.
Qed.

(** Where an entry of the map after a push comes from. *)
Lemma pushToProject_inv s projectsMap k e :
  NoDup (map fst projectsMap) →
  (k, e) ∈ pushToProject s projectsMap →
  (k ≠ Segment.projectId s ∧ (k, e) ∈ projectsMap) ∨
  (k = Segment.projectId s ∧
   ∃ e0, (k, e0) ∈ projectsMap ∧ Entry.projectId e = Entry.projectId e0 ∧
         Entry.waypoints e = Entry.waypoints e0 ++ [shown s]) ∨
  (k = Segment.projectId s ∧ (Segment.projectId s ∉ map fst projectsMap) ∧
   Entry.projectId e = k ∧ Entry.waypoints e = [shown s]).
Proof.
  induction projectsMap as [|[k0 e0] rest IH]; simpl; intros Hnd Hin.
  - apply list_elem_of_singleton in Hin. injection Hin as -> ->.
    right. right. split; [done|]. split; [apply not_elem_of_nil | done].
  - apply NoDup_cons in Hnd as [Hnin Hnd].
    destruct (bool_decide (k0 = Segment.projectId s)) eqn:Hk.
    + apply bool_decide_eq_true in Hk. subst k0.
      apply elem_of_cons in Hin as [[= -> ->]|Hin].
      * right. left. split; [done|]. exists e0. split; [by left | done].
      * left. split; [|by right]. intros ->. apply Hnin.
        apply list_elem_of_fmap. by exists (Segment.projectId s, e).
    + apply bool_decide_eq_false in Hk.
      apply elem_of_cons in Hin as [[= -> ->]|Hin].
      * left. split; [done | by left].
      * destruct (IH Hnd Hin) as [[Hne H]|[[-> (e1 & H & H1 & H2)]|(-> & H & H1 & H2)]].
        -- left. split; [done | by right].
        -- right. left. split; [done|]. exists e1. split; [by right | done].
        -- right. right. split; [done|]. split; [|done].
           intros [?|?]%elem_of_cons; congruence.
Qed.

(** What the map holds after the segments of a group were pushed. *)
Lemma projectsMapOf_inv group :
  NoDup (map fst (projectsMapOf group)) ∧
  (∀ x, x ∈ group → Segment.projectId x ∈ map fst (projectsMapOf group)) ∧
  ∀ k e, (k, e) ∈ projectsMapOf group →
         Entry.projectId e = k ∧
         Entry.waypoints e =
           map shown (filter (λ s, Segment.projectId s = k) group) ∧
         ∃ x, x ∈ group ∧ Segment.projectId x = k.
Proof.
  induction group as [|s group (Hnd & Hkeys & Hent)] using rev_ind.
  - split; [constructor|]. split; [by intros x ?%elem_of_nil|].
    by intros k e ?%elem_of_nil.
  - rewrite projectsMapOf_snoc.
    assert (Hnd' : NoDup (map fst (pushToProject s (projectsMapOf group)))).
    { rewrite keys_pushToProject.
      destruct (bool_decide _) eqn:Hin; [done|].
      apply bool_decide_eq_false in Hin.
      apply NoDup_app. split; [done|]. split; [|apply NoDup_singleton].
      intros x Hx ->%list_elem_of_singleton. done. }
    split; [done|]. split.
    + intros x Hx. rewrite keys_pushToProject.
      apply elem_of_app in Hx as [Hx|Hx].
      * destruct (bool_decide _); [by apply Hkeys|].
        apply elem_of_app. left. by apply Hkeys.
      * apply list_elem_of_singleton in Hx as ->.
        destruct (bool_decide _) eqn:Hin; [by apply bool_decide_eq_true in Hin|].
        apply elem_of_app. right. by apply list_elem_of_singleton.
    + intros k e Hin. rewrite filter_app.
      destruct (pushToProject_inv _ _ _ _ Hnd Hin)
        as [[Hne H]|[[-> (e0 & H & H1 & H2)]|(-> & H & H1 & H2)]].
      * destruct (Hent k e H) as (Hp & Hw & x & Hx & Hxk).
        split; [done|]. split.
        -- rewrite (filter_cons_False _ s []) by done. by rewrite app_nil_r.
        -- exists x. split; [|done]. apply elem_of_app. by left.
      * destruct (Hent _ e0 H) as (Hp & Hw & _).
        split; [congruence|]. split.
        -- rewrite (filter_cons_True _ s []) by done.
           rewrite map_app, H2, Hw. done.
        -- exists s. split; [|done]. apply elem_of_app. right.
           by apply list_elem_of_singleton.
      * split; [done|]. split.
        -- rewrite (filter_cons_True _ s []) by done.
           assert (Hnone : filter (λ x, Segment.projectId x = Segment.projectId s) group = []).
           { destruct (filter _ group) as [|x l] eqn:Hf; [done|].
             assert (Hx : x ∈ filter (λ x, Segment.projectId x = Segment.projectId s) group)
               by (rewrite Hf; by left).
             apply list_elem_of_filter in Hx as [Heq Hx].
             exfalso. apply H. rewrite <- Heq. by apply Hkeys. }
           by rewrite Hnone, H2.
        -- exists s. split; [|done]. apply elem_of_app. right.
           by apply list_elem_of_singleton.
Qed.

(** Within the part of the report that belongs to one day, each project has
    one entry and no two entries are of the same project; the entry holds
    exactly the segments of that project and day, in the order of the sort
    (most recent sort key first), and is never empty. *)
Theorem one_entry_per_project_and_day (empId : string)
    (projects : list PopulatedProject) (d : Date) :
  let sorted := arraySort byTimestampDesc (extractSegments empId projects) in
  let group := groupOf d (dateGroupsOf (extractSegments empId projects)) in
  group = filter (λ s, Segment.date s = d) sorted ∧
  NoDup (map Entry.projectId (entriesOfGroup group)) ∧
  Forall (λ entry,
            Entry.waypoints entry =
              map shown (filter (λ s, Segment.projectId s = Entry.projectId entry) group) ∧
            Entry.waypoints entry ≠ [])
         (entriesOfGroup group).
Proof.
  intros sorted group.
  split; [apply groupOf_groupByDate|].
  destruct (projectsMapOf_inv group) as (Hnd & _ & Hent).
  unfold entriesOfGroup.
  assert (Hids : map Entry.projectId (map snd (projectsMapOf group)) =
                 map fst (projectsMapOf group)).
  { rewrite map_map. apply map_ext_in. intros [k e] Hin.
    rewrite <- list_elem_of_In in Hin. destruct (Hent k e Hin) as [Hp _]. exact Hp. }
  split; [by rewrite Hids|].
  apply Forall_fmap, Forall_forall. intros [k e] Hin. simpl.
  destruct (Hent k e Hin) as (Hk & Hw & x & Hx & Hxk).
  rewrite Hk. split; [done|]. rewrite Hw. intros Hnil.
  apply (f_equal length) in Hnil. rewrite length_map in Hnil. simpl in Hnil.
  assert (Hxin : x ∈ filter (λ s, Segment.projectId s = k) group)
    by (apply list_elem_of_filter; split; done).
  destruct (filter _ group); [by apply elem_of_nil in Hxin | done].
Qed.

(** ** The report of an employee without waypoints *)

Lemma scanProject_nothing empId all (p : PopulatedProject) :
  employeeWaypoints empId p = [] → scanProject empId all p = all.
Proof. intros H. unfold scanProject. by rewrite H. Qed.

(** An [empId] that no user has is answered 404. A user none of whose
    projects holds a waypoint of theirs (no project at all included) is
    answered 200 with an empty list, not an error; projects the user is not
    assigned to are not looked at. *)
Theorem report_of_nothing (users : list User.t) (projects : list StoredProject)
    (empId : string) :
  (Forall (λ u, User.empId u ≠ empId) users →
     getAllWaypointsEmployee users projects empId =
       NotFound404 "Employee not found") ∧
  (∀ i user, list_find (λ u, User.empId u = empId) users = Some (i, user) →
     Forall (λ p, User._id user ∈ Project.employees p →
                  employeeWaypoints empId (populate users p) = []) projects →
     getAllWaypointsEmployee users projects empId =
       Ok200 empId (User.name user) []).
Proof.
  split.
  - intros Hnone. unfold getAllWaypointsEmployee.
    destruct (list_find _ users) as [[i u]|] eqn:Hf; [|done].
    apply list_find_Some in Hf as (Hi & He & _).
    rewrite Forall_forall in Hnone. exfalso.
    apply (Hnone u); [by eapply list_elem_of_lookup_2 | done].
  - intros i user Hf Hempty. unfold getAllWaypointsEmployee. rewrite Hf.
    f_equal. unfold reconstruct.
    assert (Hex : extractSegments empId
              (map (populate users)
                   (filter (λ p, User._id user ∈ Project.employees p) projects)) = []).
    { unfold extractSegments. generalize (@nil Segment.t) as all.
      induction projects as [|p projects IH]; intros all; [done|].
      apply Forall_cons in Hempty as [Hp Hempty].
      destruct (decide (User._id user ∈ Project.employees p)) as [Hin|Hin].
      - rewrite filter_cons_True by done. simpl.
        rewrite scanProject_nothing by by apply Hp. by apply IH.
      - rewrite filter_cons_False by done. by apply IH. }
    by rewrite Hex.
Qed.

Lemma report_of_nothing_witness :
  (Forall (λ u, User.empId u ≠ "EMP999") sampleUsers →
     getAllWaypointsEmployee sampleUsers [sampleProject] "EMP999" =
       NotFound404 "Employee not found") ∧
  getAllWaypointsEmployee sampleUsers [sampleProject] "EMP005" =
    Ok200 "EMP005" "Ann" [].
Proof.
  destruct (report_of_nothing sampleUsers [sampleProject] "EMP999") as [H404 _].
  destruct (report_of_nothing sampleUsers [sampleProject] "EMP005") as [_ H200].
  split; [exact H404|].
  apply (H200 0%nat (User.mk ann "EMP005" "Ann" "employee" None)); [reflexivity|].
  apply Forall_singleton. intros _. reflexivity.
Defined.

(** * The download handlers *)

Lemma isFileSafe_underscore : isFileSafe 95 = true.
Proof. reflexivity. Qed.

Lemma cleaned_safe (s : JsString) :
  Forall (λ c, isFileSafe c = true)
         (map (λ c, if isFileSafe c then c else 95%N) s).
Proof.
  apply Forall_fmap, Forall_forall. intros c _. simpl.
  by destruct (isFileSafe c) eqn:Hc.
Qed.

Lemma cleaned_id (s : JsString) :
  Forall (λ c, isFileSafe c = true) s →
  map (λ c, if isFileSafe c then c else 95%N) s = s.
Proof.
  induction 1 as [|c s Hc Hs IH]; [done|]. simpl. by rewrite Hc, IH.
Qed.

(** The feeder part of a download's file name is at most 50 code units long
    and made of letters, digits, hyphens and underscores only; a name that
    is already so is kept, and cleaning twice is cleaning once. Every other
    code unit of the name is replaced by an underscore, in place. *)
Theorem feeder_name_is_file_safe (feederName : JsString) :
  length (sanitizeFeederName feederName) = min 50 (length feederName) ∧
  Forall (λ c, isFileSafe c = true) (sanitizeFeederName feederName) ∧
  sanitizeFeederName (sanitizeFeederName feederName) = sanitizeFeederName feederName ∧
  (Forall (λ c, isFileSafe c = true) feederName → (length feederName ≤ 50)%nat →
     sanitizeFeederName feederName = feederName) ∧
  ∀ i c, (i < 50)%nat → feederName !! i = Some c →
         sanitizeFeederName feederName !! i =
           Some (if isFileSafe c then c else 95%N).
Proof.
  unfold sanitizeFeederName.
  assert (Hsafe : Forall (λ c, isFileSafe c = true)
            (take 50 (map (λ c, if isFileSafe c then c else 95%N) feederName)))
    by apply Forall_take, cleaned_safe.
  split; [by rewrite length_take, length_map|].
  split; [done|]. split; [|split].
  - rewrite (cleaned_id _ Hsafe). rewrite take_take. done.
  - intros Hs Hlen. rewrite cleaned_id by done. by apply take_ge.
  - intros i c Hi Hc. rewrite lookup_take_lt by done.
    change (map ?f ?l) with (f <$> l). by rewrite list_lookup_fmap, Hc.
Qed.

Lemma feeder_name_is_file_safe_witness :
  let name := js "City feeder/11kV #2" in
  length (sanitizeFeederName name) = 19%nat ∧
  sanitizeFeederName name = js "City_feeder_11kV__2" ∧
  sanitizeFeederName (js "City_feeder-2") = js "City_feeder-2".
Proof.
  destruct (feeder_name_is_file_safe (js "City feeder/11kV #2")) as (Hlen & _).
  destruct (feeder_name_is_file_safe (js "City_feeder-2")) as (_ & _ & _ & Hid & _).
  split; [exact Hlen|]. split; [vm_compute; reflexivity|].
  apply Hid; [|vm_compute; lia].
  vm_compute. repeat constructor.
Defined.

Lemma findUser_id users id u : findUser users id = Some u → User._id u = id.
Proof.
  unfold findUser. destruct (list_find _ users) as [[i u']|] eqn:Hf; [|done].
  intros [= <-]. by apply list_find_Some in Hf as (_ & ? & _).
Qed.

Lemma findUser_elem_of users u : u ∈ users → is_Some (findUser users (User._id u)).
Proof.
  intros Hin. unfold findUser.
  destruct (list_find (λ u0, User._id u0 = User._id u) users) as [[i u']|] eqn:Hf;
    [by eexists|].
  apply list_find_None in Hf. rewrite Forall_forall in Hf. by destruct (Hf u Hin).
Qed.

(** The waypoints a download selects from a populated reachable project:
    those of the user's stored paths, path after path. *)
Lemma download_selection users (p : StoredProject) user :
  Forall (λ path, ∃ e0, wholly e0 path ∧ ownedBy e0 path ∧ startedBy e0 path)
         (Project.waypoints p) →
  user ∈ users →
  filter (createdByUser user) (concat (Project.waypoints (populate users p))) =
  concat (map (map (Waypoint.mapCreatedBy (findUser users)))
              (userPaths (User._id user) (Project.waypoints p))).
Proof.
  intros Hown Hu. unfold populate. simpl.
  induction (Project.waypoints p) as [|path paths IH]; [reflexivity|].
  apply Forall_cons in Hown as [(e0 & Hw & Ho & _) Hown].
  simpl. rewrite filter_app, IH by done. clear IH.
  change (userPaths (User._id user) (path :: paths))
    with (userPaths (User._id user) ([path] ++ paths)).
  rewrite (userPaths_app _ [path] paths), userPaths_singleton.
  rewrite map_app, concat_app. f_equal.
  destruct (decide (ownedBy (User._id user) path)) as [Hoe|Hoe].
  - assert (e0 = User._id user) as -> by by eapply ownedBy_inj.
    simpl. rewrite app_nil_r.
    clear Ho Hoe. induction Hw as [|w path [Hc _] Hw IH]; [done|].
    simpl. rewrite filter_cons_True; [by rewrite IH|].
    unfold createdByUser. simpl. rewrite Hc.
    destruct (findUser_elem_of users user Hu) as [u' Hu'].
    rewrite Hu'. simpl. f_equal. by eapply findUser_id.
  - simpl.
    assert (Hne : e0 ≠ User._id user).
    { intros ->. done. }
    clear Ho Hoe. induction Hw as [|w path [Hc _] Hw IH]; [done|].
    simpl. rewrite filter_cons_False; [exact IH|].
    unfold createdByUser. simpl. rewrite Hc.
    destruct (findUser users e0) as [u'|] eqn:Hu'; [|done].
    simpl. intros [= Heq]. apply Hne. rewrite <- Heq. symmetry.
    by eapply findUser_id.
Qed.

Lemma excelRow_mapCreatedBy {U V} (f : U → V) (w : Waypoint.t U) :
  excelRow (Waypoint.mapCreatedBy f w) = excelRow w.
Proof. reflexivity. Qed.

Lemma reportRow_mapCreatedBy {U V} (f : U → V) (w : Waypoint.t U) :
  reportRow (Waypoint.mapCreatedBy f w) = reportRow w.
Proof. reflexivity. Qed.

(** The rows of the populated paths are the rows of the stored paths. *)
Lemma rows_populated {U V Row} (row : ∀ W, Waypoint.t W → Row) (f : U → V)
    (paths : list (Path U)) :
  (∀ w, row V (Waypoint.mapCreatedBy f w) = row U w) →
  map (row V) (concat (map (map (Waypoint.mapCreatedBy f)) paths)) =
  map (row U) (concat paths).
Proof.
  intros Hrow. induction paths as [|path paths IH]; [reflexivity|].
  simpl. rewrite !map_app, IH. f_equal.
  rewrite map_map. apply map_ext. exact Hrow.
Qed.

(** For a reachable project and an employee of it, the three downloads are
    refused with 404 exactly when the employee has no path in the project.
    Otherwise each goes on with the rows of all waypoints of the employee's
    paths, in stored order (the waypoints [addWaypoint] accepted from that
    employee, none more and none less): [downloadExcel] hands them to its
    generator; [downloadPdf] and [downloadKmz] first refuse with 400 when
    the first of them has no feeder name in its first GPS record. Whatever
    file is sent was generated from exactly those rows. *)
Theorem download_exports_own_paths {Buffer : Type}
    (generateExcelBuffer : list ExcelRow.t → option Buffer)
    (generatePdfBuffer : list ReportRow.t → option Buffer)
    (generateKmzBuffer : list ReportRow.t → string → option Buffer)
    (toLowerCase : string → string)
    (users : list User.t) (p : StoredProject)
    (projectId empId : string) (i : nat) (user : User.t) :
  reachable p →
  projectId ≠ "" → empId ≠ "" →
  list_find (λ u, User.empId u = empId) users = Some (i, user) →
  isEmployeeInProject users empId p = true →
  let own := userPaths (User._id user) (Project.waypoints p) in
  let excel := downloadExcel generateExcelBuffer users (Some p) projectId empId in
  let pdf := downloadPdf generatePdfBuffer users (Some p) projectId empId in
  let kmz :=
    downloadKmz generateKmzBuffer toLowerCase users (Some p) projectId empId in
  let noWaypoints : Download Buffer :=
    DownloadNotFound404 "No waypoints found for this employee in the project" in
  let noFeeder : Download Buffer :=
    DownloadBadRequest400 "Feeder name not found in GPS details" in
  let feederName :=
    firstFeederName ((λ w, head (Waypoint.gpsDetails w)) <$> head (concat own)) in
  (own = [] → excel = noWaypoints ∧ pdf = noWaypoints ∧ kmz = noWaypoints) ∧
  (own ≠ [] →
     excel = sendExcel generateExcelBuffer empId (map excelRow (concat own)) ∧
     pdf = sendPdf generatePdfBuffer empId (map reportRow (concat own)) ∧
     kmz = sendKmz generateKmzBuffer toLowerCase empId
             (map reportRow (concat own)) ∧
     excel ≠ noWaypoints ∧ excel ≠ noFeeder ∧
     pdf ≠ noWaypoints ∧ kmz ≠ noWaypoints ∧
     (pdf = noFeeder ↔ noFeederName feederName = true) ∧
     (kmz = noFeeder ↔ noFeederName feederName = true)) ∧
  (∀ disposition contentType buffer,
     (excel = DownloadSent disposition contentType buffer →
        generateExcelBuffer (map excelRow (concat own)) = Some buffer) ∧
     (pdf = DownloadSent disposition contentType buffer →
        generatePdfBuffer (map reportRow (concat own)) = Some buffer) ∧
     (kmz = DownloadSent disposition contentType buffer →
        ∃ routeType,
          generateKmzBuffer (map reportRow (concat own)) routeType = Some buffer)).
Proof.
  intros Hr Hpid Hemp Hfind Hin own excel pdf kmz noWaypoints noFeeder feederName.
  pose proof (reachableBy_owner_inv _ _ Hr) as Hown.
  pose proof (reachableBy_pathsNonEmpty _ _ Hr) as Hne.
  assert (Hu : user ∈ users).
  { apply list_find_Some in Hfind as (Hi & _). by eapply list_elem_of_lookup_2. }
  assert (Hchecks : findUserAndProject (Buffer := Buffer) users (Some p) projectId empId
                    = inr (user, p)).
  { unfold findUserAndProject, falsy.
    rewrite !bool_decide_eq_false_2 by done. cbn [orb].
    by rewrite Hfind, Hin. }
  assert (Hexcel : excel =
    if bool_decide (length (map excelRow (concat own)) = 0%nat)
    then noWaypoints
    else sendExcel generateExcelBuffer empId (map excelRow (concat own))).
  { unfold excel, downloadExcel. rewrite Hchecks.
    rewrite (download_selection users p user Hown Hu). fold own.
    by rewrite (rows_populated (@excelRow)). }
  assert (Hpdf : pdf =
    if bool_decide (length (map reportRow (concat own)) = 0%nat)
    then noWaypoints
    else sendPdf generatePdfBuffer empId (map reportRow (concat own))).
  { unfold pdf, downloadPdf. rewrite Hchecks.
    rewrite (download_selection users p user Hown Hu). fold own.
    by rewrite (rows_populated (@reportRow)). }
  assert (Hkmz : kmz =
    if bool_decide (length (map reportRow (concat own)) = 0%nat)
    then noWaypoints
    else sendKmz generateKmzBuffer toLowerCase empId (map reportRow (concat own))).
  { unfold kmz, downloadKmz. rewrite Hchecks.
    rewrite (download_selection users p user Hown Hu). fold own.
    by rewrite (rows_populated (@reportRow)). }
  assert (Hfeeder : ∀ l : list StoredWaypoint,
    firstFeederName (ReportRow.gpsDetails <$> head (map reportRow l)) =
    firstFeederName ((λ w, head (Waypoint.gpsDetails w)) <$> head l)).
  { by intros [|w l]. }
  assert (Hlen : own ≠ [] → length (concat own) ≠ 0%nat).
  { intros Hmine. destruct own as [|path rest] eqn:Hm; [done|].
    assert (Hpath : path ∈ Project.waypoints p).
    { assert (Hp : path ∈ userPaths (User._id user) (Project.waypoints p))
        by (fold own; rewrite Hm; by left).
      unfold userPaths in Hp. by apply list_elem_of_filter in Hp as [_ ?]. }
    unfold pathsNonEmpty in Hne. rewrite Forall_forall in Hne.
    specialize (Hne path Hpath). by destruct path. }
  clearbody excel pdf kmz. subst excel pdf kmz noWaypoints noFeeder.
  rewrite !length_map.
  destruct (decide (own = [])) as [Hempty|Hsome].
  - rewrite Hempty. simpl. split; [done|]. split; [done|].
    intros disposition contentType buffer. by repeat split.
  - rewrite !bool_decide_eq_false_2 by auto.
    assert (Hp400 :
      sendPdf generatePdfBuffer empId (map reportRow (concat own))
        = DownloadBadRequest400 "Feeder name not found in GPS details"
      ↔ noFeederName feederName = true).
    { unfold sendPdf. cbv zeta. rewrite Hfeeder. fold feederName.
      destruct (noFeederName feederName); [done|].
      split; [|done]. by destruct (generatePdfBuffer _). }
    assert (Hk400 :
      sendKmz generateKmzBuffer toLowerCase empId (map reportRow (concat own))
        = DownloadBadRequest400 "Feeder name not found in GPS details"
      ↔ noFeederName feederName = true).
    { unfold sendKmz. cbv zeta. rewrite Hfeeder. fold feederName.
      destruct (noFeederName feederName); [done|].
      split; [|done]. by destruct (generateKmzBuffer _ _). }
    split; [done|]. split.
    + intros _. repeat (split; [done|]).
      split; [unfold sendExcel; destruct (generateExcelBuffer _);
              cbv zeta; discriminate|].
      split; [unfold sendExcel; destruct (generateExcelBuffer _);
              cbv zeta; discriminate|].
      split; [unfold sendPdf; cbv zeta;
              destruct (noFeederName (firstFeederName _)); [done|];
              destruct (generatePdfBuffer _); discriminate|].
      split; [unfold sendKmz; cbv zeta;
              destruct (noFeederName (firstFeederName _)); [done|];
              destruct (generateKmzBuffer _ _); discriminate|].
      done.
    + intros disposition contentType buffer. split; [|split].
      * unfold sendExcel.
        destruct (generateExcelBuffer _) as [b|]; cbv zeta; [|done].
        by intros [= _ _ ->].
      * unfold sendPdf. cbv zeta.
        destruct (noFeederName (firstFeederName _)); [done|].
        destruct (generatePdfBuffer _) as [b|]; [|done]. by intros [= _ _ ->].
      * unfold sendKmz. cbv zeta.
        destruct (noFeederName (firstFeederName _)); [done|].
        destruct (generateKmzBuffer _ _) as [b|] eqn:Hgen; [|done].
        intros [= _ _ ->]. eauto.
Qed.

Lemma download_exports_own_paths_witness :
  let excel := downloadExcel countRows sampleUsers (Some sampleSurveyed)
                 "Project_1" "EMP007" in
  let pdf := downloadPdf countRows sampleUsers (Some sampleSurveyed)
               "Project_1" "EMP007" in
  let kmz := downloadKmz (λ rows _, countRows rows) (λ s, s) sampleUsers
               (Some sampleSurveyed) "Project_1" "EMP007" in
  reachable sampleSurveyed ∧
  "Project_1" ≠ "" ∧ "EMP007" ≠ "" ∧
  list_find (λ u, User.empId u = "EMP007") sampleUsers
    = Some (1%nat, User.mk bob "EMP007" "Bob" "employee" None) ∧
  isEmployeeInProject sampleUsers "EMP007" sampleSurveyed = true ∧
  userPaths bob (Project.waypoints sampleSurveyed) ≠ [] ∧
  excel = DownloadSent
            (js "attachment; filename=City_feeder_11kV__2 city feeder details by EMP007.xlsx")
            "application/vnd.openxmlformats-officedocument.spreadsheetml.sheet"
            1%nat ∧
  pdf = DownloadSent
          (js "attachment; filename=City_feeder_11kV__2 waypoints by EMP007.pdf")
          "application/pdf" 1%nat ∧
  kmz ≠ DownloadBadRequest400 "Feeder name not found in GPS details" ∧
  downloadPdf countRows sampleUsers (Some sampleStored) "Project_1" "EMP007"
    = DownloadBadRequest400 "Feeder name not found in GPS details".
Proof.
  intros excel pdf kmz.
  assert (Hr : reachable sampleSurveyed).
  { apply reachableBy_submitAll;
      [apply sampleProject_reachable | repeat constructor
       | vm_compute; reflexivity]. }
  assert (H1 : "Project_1" ≠ "") by discriminate.
  assert (H2 : "EMP007" ≠ "") by discriminate.
  assert (Hf : list_find (λ u, User.empId u = "EMP007") sampleUsers
               = Some (1%nat, User.mk bob "EMP007" "Bob" "employee" None))
    by reflexivity.
  assert (Hin : isEmployeeInProject sampleUsers "EMP007" sampleSurveyed = true)
    by (vm_compute; reflexivity).
  assert (Hmine : userPaths bob (Project.waypoints sampleSurveyed) ≠ [])
    by (vm_compute; discriminate).
  repeat (split; [assumption|]).
  destruct (download_exports_own_paths countRows countRows
              (λ rows _, countRows rows) (λ s, s) sampleUsers sampleSurveyed
              "Project_1" "EMP007" 1 _ Hr H1 H2 Hf Hin) as (_ & Hgo & _).
  destruct (Hgo Hmine) as (_ & _ & _ & _ & _ & _ & _ & _ & Hkmz).
  split; [vm_compute; reflexivity|]. split; [vm_compute; reflexivity|].
  split; [|vm_compute; reflexivity].
  intros Hk. apply Hkmz in Hk. vm_compute in Hk. discriminate Hk.
Defined.

(** * The cloud storage helper *)

Lemma stripPrefix_app p s : stripPrefix p (p ++ s) = Some s.
Proof.
  induction p as [|a p IH]; simpl; [by destruct s|].
  by rewrite N.eqb_refl.
Qed.

Lemma span_stop f run c rest :
  Forall (λ x, f x = true) run → f c = false →
  span f (run ++ c :: rest) = (run, c :: rest).
Proof.
  intros Hrun Hc. induction Hrun as [|x run Hx Hrun IH]; simpl.
  - by rewrite Hc.
  - by rewrite Hx, IH.
Qed.

Lemma span_all f s : Forall (λ x, f x = true) s → span f s = (s, []).
Proof.
  induction 1 as [|x s Hx Hs IH]; simpl; [done|]. by rewrite Hx, IH.
Qed.

Lemma isDigit_decimalFrom fuel : ∀ n acc,
  Forall (λ c, isDigit c = true) acc →
  Forall (λ c, isDigit c = true) (decimalFrom fuel n acc).
Proof.
  assert (Hd : ∀ n, isDigit (48 + n `mod` 10) = true).
  { intros n. unfold isDigit.
    pose proof (N.mod_upper_bound n 10 ltac:(done)) as Hlt.
    set (d := (n `mod` 10)%N) in *. clearbody d.
    apply andb_true_intro. split; apply N.leb_le; lia. }
  induction fuel as [|fuel IH]; intros n acc Hacc; simpl.
  - constructor; [apply Hd | done].
  - destruct (n <? 10)%N; [constructor; [apply Hd | done]|].
    apply IH. constructor; [apply Hd | done].
Qed.

Lemma isDigit_decimal n : Forall (λ c, isDigit c = true) (decimal n).
Proof. apply isDigit_decimalFrom. constructor. Qed.

Lemma lineTerminator_isSpace c : isLineTerminator c = true → isSpace c = true.
Proof.
  unfold isLineTerminator. rewrite !orb_true_iff, !N.eqb_eq.
  intros [[[->| ->]| ->]| ->]; reflexivity.
Qed.

Lemma isDigit_not_lineTerminator c : isDigit c = true → isLineTerminator c = false.
Proof.
  unfold isDigit, isLineTerminator. rewrite andb_true_iff, !N.leb_le.
  intros [H1 H2]. rewrite !orb_false_iff, !N.eqb_neq. lia.
Qed.

Lemma replaceSpaces_no_space s : ∀ inRun,
  Forall (λ c, isSpace c = false) (replaceSpaces inRun s).
Proof.
  induction s as [|c s IH]; intros inRun; simpl; [constructor|].
  destruct (isSpace c) eqn:Hc.
  - destruct inRun; [apply IH|]. constructor; [reflexivity | apply IH].
  - constructor; [done | apply IH].
Qed.

Lemma replaceSpaces_id s : ∀ inRun,
  Forall (λ c, isSpace c = false) s → replaceSpaces inRun s = s.
Proof.
  induction s as [|c s IH]; intros inRun Hs; [done|].
  apply Forall_cons in Hs as [Hc Hs]. simpl. rewrite Hc. f_equal. by apply IH.
Qed.

Lemma replaceSpaces_length s : ∀ inRun,
  (length (replaceSpaces inRun s) ≤ length s)%nat.
Proof.
  induction s as [|c s IH]; intros inRun; simpl; [done|].
  destruct (isSpace c); [destruct inRun|]; simpl;
    [pose proof (IH true) | pose proof (IH true) | pose proof (IH false)]; lia.
Qed.

(** The file name an image is stored under holds no white space (so no line
    break); a name without white space is kept as it is, and no name gets
    longer. *)
Theorem stored_file_name_has_no_space (originalname : JsString) :
  Forall (λ c, isSpace c = false) (sanitizeFilename originalname) ∧
  (length (sanitizeFilename originalname) ≤ length originalname)%nat ∧
  (Forall (λ c, isSpace c = false) originalname →
     sanitizeFilename originalname = originalname).
Proof.
  unfold sanitizeFilename. split; [apply replaceSpaces_no_space|].
  split; [apply replaceSpaces_length | apply replaceSpaces_id].
Qed.

Lemma stored_file_name_has_no_space_witness :
  sanitizeFilename (js "my  photo 1 .png") = js "my_photo_1_.png" ∧
  sanitizeFilename (js "pole-17.jpg") = js "pole-17.jpg".
Proof.
  split; [vm_compute; reflexivity|].
  destruct (stored_file_name_has_no_space (js "pole-17.jpg")) as (_ & _ & Hid).
  apply Hid. vm_compute. repeat constructor.
Defined.

Lemma blobName_no_lineTerminator folder now file :
  Forall (λ c, isLineTerminator c = false) folder →
  Forall (λ c, isLineTerminator c = false) (blobName folder now file).
Proof.
  intros Hfolder. unfold blobName.
  repeat (apply Forall_app; split); try done.
  - by apply Forall_singleton.
  - eapply Forall_impl; [apply isDigit_decimal|].
    intros c. apply isDigit_not_lineTerminator.
  - by apply Forall_singleton.
  - eapply Forall_impl; [apply replaceSpaces_no_space|].
    intros c Hc. simpl in Hc.
    destruct (isLineTerminator c) eqn:Hlt; [|done].
    apply lineTerminator_isSpace in Hlt. congruence.
Qed.

Lemma matchUrl_public env name :
  Storage.bucketName env ≠ [] →
  Forall (λ c, c ≠ 47%N) (Storage.bucketName env) →
  name ≠ [] → Forall (λ c, isLineTerminator c = false) name →
  matchUrl (publicUrl env name) = Some name.
Proof.
  intros Hbucket Hslash Hname Hlt.
  assert (Hhere : matchUrlHere (publicUrl env name) = Some name).
  { unfold matchUrlHere, publicUrl. rewrite stripPrefix_app. simpl.
    rewrite (span_stop (λ c, negb (c =? 47)%N)); [|
      eapply Forall_impl; [exact Hslash|];
      intros c Hc; simpl; by apply negb_true_iff, N.eqb_neq | done].
    destruct (Storage.bucketName env) as [|b bs]; [done|].
    rewrite (span_all (λ c, negb (isLineTerminator c))); [by destruct name|].
    eapply Forall_impl; [exact Hlt|]. intros c Hc. simpl. by rewrite Hc. }
  destruct (publicUrl env name); cbn [matchUrl]; by rewrite Hhere.
Qed.

(** Upload and delete fit together: when an upload answers with a URL (the
    environment is complete, the client set up, the file of an allowed
    image type, the write done), a later delete of that URL asks the bucket
    to delete exactly the object the upload wrote, provided the bucket's
    name has no slash and the folder no line break. *)
Theorem upload_then_delete (env : Storage.Env) (initialized : bool)
    (file : option Storage.File) (folder : JsString) (now : N)
    (written deleted : Storage.Outcome) (url : JsString) :
  uploadImageToCloudStorage env initialized file folder now written = inr url →
  Forall (λ c, c ≠ 47%N) (Storage.bucketName env) →
  Forall (λ c, isLineTerminator c = false) folder →
  ∃ f, file = Some f ∧
       Storage.mimetype f ∈ allowedMimeTypes ∧
       url = publicUrl env (blobName folder now f) ∧
       matchUrl url = Some (blobName folder now f) ∧
       fst (deleteImageFromCloudStorage env initialized url deleted)
         = Some (blobName folder now f).
Proof.
  unfold uploadImageToCloudStorage, deleteImageFromCloudStorage.
  intros Hup Hslash Hfolder.
  destruct (validateEnvironment env) as [envError|] eqn:Henv; [done|].
  destruct initialized; simpl in *; [|done].
  destruct file as [f|]; [|done].
  destruct (bool_decide (Storage.mimetype f ∈ allowedMimeTypes)) eqn:Hmime;
    simpl in Hup; [|done].
  apply bool_decide_eq_true in Hmime.
  destruct written; try done. injection Hup as <-.
  assert (Hbucket : Storage.bucketName env ≠ []).
  { intros Hb. unfold validateEnvironment in Henv. rewrite Hb in Henv.
    simpl in Henv. done. }
  assert (Hname : blobName folder now f ≠ []).
  { unfold blobName. intros Hnil. apply (f_equal length) in Hnil.
    rewrite !length_app in Hnil. simpl in Hnil. lia. }
  assert (Hmatch : matchUrl (publicUrl env (blobName folder now f))
                   = Some (blobName folder now f)).
  { apply matchUrl_public; try done. by apply blobName_no_lineTerminator. }
  exists f. repeat (split; [done|]).
  rewrite Hmatch.
  rewrite bool_decide_eq_false_2; [done|].
  unfold publicUrl. intros Hnil. apply (f_equal length) in Hnil.
  rewrite !length_app in Hnil. simpl in Hnil. lia.
Qed.

Lemma upload_then_delete_witness :
  let env := Storage.mkEnv (js "survey-images") (js "ems") (js "key.json") in
  let file := Storage.mkFile (js "pole 17.png") "image/png" in
  let url := js "https://storage.googleapis.com/survey-images/uploads/1700000000000-pole_17.png" in
  uploadImageToCloudStorage env true (Some file) (js "uploads")
    1700000000000 Storage.Done = inr url ∧
  matchUrl url = Some (js "uploads/1700000000000-pole_17.png") ∧
  fst (deleteImageFromCloudStorage env true url Storage.Missing)
    = Some (js "uploads/1700000000000-pole_17.png").
Proof.
  assert (Hup : uploadImageToCloudStorage
            (Storage.mkEnv (js "survey-images") (js "ems") (js "key.json")) true
            (Some (Storage.mkFile (js "pole 17.png") "image/png")) (js "uploads")
            1700000000000 Storage.Done
          = inr (js "https://storage.googleapis.com/survey-images/uploads/1700000000000-pole_17.png"))
    by (vm_compute; reflexivity).
  split; [exact Hup|].
  destruct (upload_then_delete _ _ _ _ _ _ Storage.Missing _ Hup)
    as (f & Hf & _ & _ & Hm & Hd).
  - vm_compute. repeat constructor; discriminate.
  - vm_compute. repeat constructor.
  - injection Hf as <-. split; [exact Hm | exact Hd].
Defined.

(** The delete does not compare the bucket named in the URL with its own:
    for a URL of the storage host with any bucket name, it asks its own
    bucket to delete the object path that follows, whatever bucket the URL
    names. *)
Theorem delete_ignores_bucket_in_url (env other : Storage.Env)
    (name : JsString) (deleted : Storage.Outcome) :
  validateEnvironment env = None →
  Storage.bucketName other ≠ [] →
  Forall (λ c, c ≠ 47%N) (Storage.bucketName other) →
  name ≠ [] → Forall (λ c, isLineTerminator c = false) name →
  fst (deleteImageFromCloudStorage env true (publicUrl other name) deleted)
    = Some name.
Proof.
  intros Henv Hbucket Hslash Hname Hlt.
  unfold deleteImageFromCloudStorage.
  rewrite Henv, (matchUrl_public other name) by done. cbn [negb].
  rewrite bool_decide_eq_false_2; [done|].
  unfold publicUrl. intros Hnil. apply (f_equal length) in Hnil.
  rewrite !length_app in Hnil. simpl in Hnil. lia.
Qed.

Lemma delete_ignores_bucket_in_url_witness :
  let env := Storage.mkEnv (js "survey-images") (js "ems") (js "key.json") in
  let other := Storage.mkEnv (js "another-bucket") (js "x") (js "y") in
  fst (deleteImageFromCloudStorage env true
         (publicUrl other (js "uploads/17-pole.png")) Storage.Done)
    = Some (js "uploads/17-pole.png").
Proof.
  apply (delete_ignores_bucket_in_url
           (Storage.mkEnv (js "survey-images") (js "ems") (js "key.json"))
           (Storage.mkEnv (js "another-bucket") (js "x") (js "y"))).
  - vm_compute. reflexivity.
  - vm_compute. discriminate.
  - vm_compute. repeat constructor; discriminate.
  - vm_compute. discriminate.
  - vm_compute. repeat constructor.
Defined.

(** * Mobile numbers *)

(** A number that [updateUser] lets through fails the schema's validator
    exactly when it is empty: ten digits pass both checks, and the empty
    string skips the handler's check and is then refused by the validator
    of the update. The validator alone is laxer: it looks at the last ten
    code units only. *)
Theorem mobile_checks_agree (mobileNo : JsString) :
  mobileRefused mobileNo = false →
  (mobileValid (Some mobileNo) = false ↔ mobileNo = []) ∧
  (mobileNo ≠ [] → length mobileNo = 10%nat ∧
                   Forall (λ c, isDigit c = true) mobileNo).
Proof.
  unfold mobileRefused, mobileValid, endsWithTenDigits, tenDigits.
  intros Hok. destruct (decide (mobileNo = [])) as [->|Hne].
  - split; [done|]. done.
  - rewrite bool_decide_eq_false_2 in Hok by done. simpl in Hok.
    apply negb_false_iff, andb_true_iff in Hok as [Hlen Hdigits].
    apply bool_decide_eq_true in Hlen.
    split; [|intros _; split; [done|]].
    + rewrite Hlen, Nat.sub_diag. simpl. rewrite drop_0, Hdigits.
      split; [done|]. intros ->. done.
    + apply Forall_forall. intros c Hc.
      rewrite forallb_forall in Hdigits. apply Hdigits.
      by apply list_elem_of_In.
Qed.

Lemma mobile_checks_agree_witness :
  mobileRefused (js "9876543210") = false ∧
  mobileValid (Some (js "9876543210")) = true ∧
  mobileRefused [] = false ∧ mobileValid (Some []) = false ∧
  mobileRefused (js "+919876543210") = true ∧
  mobileValid (Some (js "+919876543210")) = true.
Proof.
  assert (H1 : mobileRefused (js "9876543210") = false) by (vm_compute; reflexivity).
  assert (H2 : mobileRefused [] = false) by reflexivity.
  destruct (mobile_checks_agree [] H2) as [Hiff0 _].
  split; [exact H1|]. split; [vm_compute; reflexivity|].
  split; [exact H2|]. split; [by apply Hiff0|].
  split; vm_compute; reflexivity.
Defined.

(** ** The authentication middlewares *)

Lemma findUser_Some_elem_of users id u :
  findUser users id = Some u → u ∈ users ∧ User._id u = id.
Proof.
  intros Hf. split; [|by eapply findUser_id].
  unfold findUser in Hf.
  destruct (list_find _ users) as [[i u']|] eqn:Hl; [|done].
  injection Hf as <-. apply list_find_Some in Hl as (Hl & _).
  by eapply list_elem_of_lookup_2.
Qed.

(** [authMiddleware(roles)] decides on the role stored for the user, not on
    the role the token claims: two tokens' payloads that differ only in the
    role they claim (claimed by both or by neither) get the same answer, and
    a request that is let through is that of a stored user, whose stored
    role is among [roles] when [roles] is given. *)
Theorem authMiddleware_trusts_stored_role
    (verify verify' : JsString → Auth.Verified) (users : list User.t)
    (roles : option (list string)) (authHeader : option JsString) :
  (∀ token, sameButRole (verify token) (verify' token)) →
  authMiddleware verify users roles authHeader
    = authMiddleware verify' users roles authHeader ∧
  (∀ user, authMiddleware verify users roles authHeader = Auth.Next user →
     ∃ u, user = Some u ∧ u ∈ users ∧
          (∀ allowed, roles = Some allowed → User.role u ∈ allowed)).
Proof.
  intros Hsame. unfold authMiddleware.
  destruct (authHeader ≫= bearerToken) as [token|]; [|by split].
  specialize (Hsame token). unfold sameButRole in Hsame.
  destruct (verify token) as [| | |id role] eqn:Hv;
    try (rewrite <- Hsame; by split).
  destruct (verify' token) as [| | |id' role'] eqn:Hv'; try done.
  destruct Hsame as [<- Hrole].
  destruct id as [| |id]; try by split.
  unfold falsy.
  destruct (decide (role = "")) as [Hr|Hr].
  - rewrite !bool_decide_eq_true_2 by tauto. by split.
  - rewrite !bool_decide_eq_false_2 by tauto. split; [done|].
    intros user. destruct (findUser users id) as [u|] eqn:Hf; [|done].
    apply findUser_Some_elem_of in Hf as [Hin _].
    destruct roles as [allowed|].
    + destruct (bool_decide (User.role u ∈ allowed)) eqn:Hm; [|done].
      simpl. intros [= <-]. exists u. split; [done|]. split; [done|].
      intros ? [= <-]. by apply bool_decide_eq_true in Hm.
    + intros [= <-]. exists u. by repeat split.
Qed.

Lemma authMiddleware_trusts_stored_role_witness :
  (∀ token : JsString,
     sameButRole (Auth.Decoded (Auth.Id ann) "employee")
                 (Auth.Decoded (Auth.Id ann) "admin")) ∧
  authMiddleware (λ _, Auth.Decoded (Auth.Id ann) "admin") sampleUsers
    (Some ["admin"]) (Some (js "Bearer abc.def.ghi"))
  = Auth.Forbidden403 "Access denied".
Proof.
  assert (Hsame : ∀ token : JsString,
            sameButRole (Auth.Decoded (Auth.Id ann) "employee")
                        (Auth.Decoded (Auth.Id ann) "admin")).
  { intros _. split; [reflexivity|]. split; discriminate. }
  split; [exact Hsame|].
  rewrite <- (proj1 (authMiddleware_trusts_stored_role
                       (λ _, Auth.Decoded (Auth.Id ann) "employee")
                       (λ _, Auth.Decoded (Auth.Id ann) "admin")
                       sampleUsers (Some ["admin"])
                       (Some (js "Bearer abc.def.ghi")) Hsame)).
  vm_compute. reflexivity.
Defined.

(** A route guarded by [verifyToken, isAdmin] lets a request through only
    for a stored user whose stored role is admin, although [verifyToken]
    alone goes on with no user when the token's id matches none. Every
    request that [authMiddleware(["admin"])] lets through is let through
    by [verifyToken, isAdmin] too, with the same user, whenever a payload
    accepted under HS256 only is accepted with the default options. *)
Theorem admin_guards_agree
    (verifyHS256 verifyDefault : JsString → Auth.Verified)
    (users : list User.t) (authHeader : option JsString) :
  (∀ token id role, verifyHS256 token = Auth.Decoded id role →
                    verifyDefault token = Auth.Decoded id role) →
  (∀ user, adminOnly verifyDefault users authHeader = Auth.Next user →
     ∃ u, user = Some u ∧ u ∈ users ∧ User.role u = "admin") ∧
  (∀ user, authMiddleware verifyHS256 users (Some ["admin"]) authHeader
             = Auth.Next user →
           adminOnly verifyDefault users authHeader = Auth.Next user) ∧
  (∀ token id role,
     authHeader ≫= bearerToken = Some token →
     verifyDefault token = Auth.Decoded (Auth.Id id) role →
     findUser users id = None →
     verifyToken verifyDefault users authHeader = Auth.Next None ∧
     adminOnly verifyDefault users authHeader
       = Auth.Forbidden403 "Access denied. Admins only.").
Proof.
  intros Hsub. unfold adminOnly, verifyToken, authMiddleware.
  destruct (authHeader ≫= bearerToken) as [token|]; [|by repeat split].
  split; [|split].
  - intros user.
    destruct (verifyDefault token) as [| | |[| |id] role]; try done.
    unfold isAdmin. destruct (findUser users id) as [u|] eqn:Hf; [|done].
    destruct (bool_decide (User.role u = "admin")) eqn:Hr; [|done].
    intros [= <-]. exists u. split; [done|].
    apply findUser_Some_elem_of in Hf as [Hin _].
    by apply bool_decide_eq_true in Hr.
  - intros user.
    destruct (verifyHS256 token) as [| | |[| |id] role] eqn:Hv; try done.
    rewrite (Hsub _ _ _ Hv).
    destruct (falsy role); [done|].
    destruct (findUser users id) as [u|]; [|done].
    destruct (bool_decide (User.role u ∈ ["admin"])) eqn:Hm; [|done].
    simpl. intros [= <-]. unfold isAdmin.
    apply bool_decide_eq_true in Hm. apply list_elem_of_singleton in Hm.
    by rewrite bool_decide_eq_true_2.
  - intros token' id role [= <-] Hv Hf. by rewrite Hv, Hf.
Qed.

Lemma admin_guards_agree_witness :
  let verify : JsString → Auth.Verified :=
    λ token, if bool_decide (token = js "t1") then Auth.Decoded (Auth.Id 9%N) ""
             else Auth.JsonWebTokenError in
  (∀ token id role, verify token = Auth.Decoded id role →
                    verify token = Auth.Decoded id role) ∧
  Some (js "Bearer t1") ≫= bearerToken = Some (js "t1") ∧
  verify (js "t1") = Auth.Decoded (Auth.Id 9%N) "" ∧
  findUser sampleUsers 9%N = None ∧
  verifyToken verify sampleUsers (Some (js "Bearer t1")) = Auth.Next None ∧
  adminOnly verify sampleUsers (Some (js "Bearer t1"))
    = Auth.Forbidden403 "Access denied. Admins only.".
Proof.
  intros verify.
  assert (Hsub : ∀ token id role, verify token = Auth.Decoded id role →
                                  verify token = Auth.Decoded id role)
    by (intros ? ? ? H; exact H).
  assert (Ht : Some (js "Bearer t1") ≫= bearerToken = Some (js "t1"))
    by (vm_compute; reflexivity).
  assert (Hv : verify (js "t1") = Auth.Decoded (Auth.Id 9%N) "")
    by (vm_compute; reflexivity).
  assert (Hf : findUser sampleUsers 9%N = None) by (vm_compute; reflexivity).
  split; [exact Hsub|]. split; [exact Ht|]. split; [exact Hv|].
  split; [exact Hf|].
  exact (proj2 (proj2 (admin_guards_agree verify verify sampleUsers
                         (Some (js "Bearer t1")) Hsub))
           (js "t1") 9%N "" Ht Hv Hf).
Defined.
